(** * ytscrape: download orchestrator, duplicate index and proxy rotation

    A shallow embedding of the parts of [ytscrp.py], [proxy_rotator.py] and
    [socks5_proxy_fetcher.py] that the specification talks about, and of
    the functions around them (the calls on a proxy pool and the refresh of
    the SOCKS5 list, file names and the duplicate lookup, the address and
    the item list of a channel, the life cycle and the archive of a task),
    followed by the properties proved about them.

    Conventions.
    - Python [str] is modelled by [string]; one [ascii] stands for one code
      point below 256.
    - Python [set] of strings is a [gset string], a Python [list] is a [list],
      indexed with stdpp's lookup; an index past the end raises [IndexError]
      in Python and is an explicit outcome here.
    - Blocks run under a lock in the source are atomic steps here. *)

From Stdlib Require Import ZArith String Ascii List Lia.
From Stdlib Require QArith.
From stdpp Require Import base gmap sets list strings sorting.

Local Open Scope string_scope.

(* ===================================================================== *)
(** ** Proxy rotation: [ProxyRotator] and [SOCKS5ProxyFetcher]            *)
(* ===================================================================== *)

Module ProxyPool.

(** The three fields both classes keep under [self.lock]. *)
Record pool : Type := Pool {
  valid_proxies : list string;
  failed_proxies : gset string;
  current_index : nat
}.

(** What a call leaves behind: a returned value, or an [IndexError] raised
    by [self.valid_proxies[self.current_index]]; both with the pool as the
    call left it. *)
Inductive outcome (A : Type) : Type :=
| Returned (a : A) (p : pool)
| IndexError (p : pool).
Arguments Returned {A} a p.
Arguments IndexError {A} p.

(** [__init__] before any proxy is loaded. *)
Definition new_pool : pool := Pool [] ∅ 0.

(** [ProxyRotator.load_proxies]: only [valid_proxies] is assigned. *)
Definition load_proxies (proxies : list string) (p : pool) : pool :=
  Pool proxies (failed_proxies p) (current_index p).

(** [SOCKS5ProxyFetcher.fetch_fresh_proxies], the locked block at its end:
    the list is replaced and the failure set cleared; [current_index] is
    not assigned. *)
Definition fetch_fresh_proxies (proxy_list : list string) (p : pool) : pool :=
  Pool proxy_list ∅ (current_index p).

(** [mark_proxy_failed]: [self.failed_proxies.add(proxy)]. *)
Definition mark_proxy_failed (proxy : string) (p : pool) : pool :=
  Pool (valid_proxies p) ({[proxy]} ∪ failed_proxies p) (current_index p).

(** [self.current_index = (self.current_index + 1) % len(self.valid_proxies)] *)
Definition advance (p : pool) : pool :=
  Pool (valid_proxies p) (failed_proxies p)
       (Nat.modulo (current_index p + 1) (length (valid_proxies p))).

(** How the [while attempts < len(self.valid_proxies)] loop is left. *)
Inductive loop_exit : Type :=
| Found (proxy : string) (p : pool)
| Exhausted (p : pool)
| OutOfRange (p : pool).

(** The loop of [get_next_proxy]; [remaining] is
    [len(self.valid_proxies) - attempts]. *)
Fixpoint skip_failed (remaining : nat) (p : pool) : loop_exit :=
  match remaining with
  | 0 => Exhausted p
  | S r =>
      match valid_proxies p !! current_index p with
      | None => OutOfRange p
      | Some proxy =>
          if decide (proxy ∈ failed_proxies p)
          then skip_failed r (advance p)
          else Found proxy (advance p)
      end
  end.

(** [self.failed_proxies.clear()] *)
Definition clear_failed (p : pool) : pool :=
  Pool (valid_proxies p) ∅ (current_index p).

(** [get_next_proxy], identical in both classes. *)
Definition get_next_proxy (p : pool) : outcome (option string) :=
  match valid_proxies p with
  | [] => Returned None p
  | _ :: _ =>
      match skip_failed (length (valid_proxies p)) p with
      | Found proxy p' => Returned (Some proxy) p'
      | OutOfRange p' => IndexError p'
      | Exhausted p' =>
          let q := clear_failed p' in
          match valid_proxies q with
          | [] => Returned None q
          | _ :: _ =>
              match valid_proxies q !! current_index q with
              | None => IndexError q
              | Some proxy => Returned (Some proxy) (advance q)
              end
          end
      end
  end.

(** The effect of [get_random_proxy] on the pool (its result is drawn by
    [random.choice] and is not modelled): the failure set is cleared when
    no endpoint is left available. *)
Definition get_random_proxy_effect (p : pool) : pool :=
  match valid_proxies p with
  | [] => p
  | _ :: _ =>
      match filter (λ x, x ∉ failed_proxies p) (valid_proxies p) with
      | [] => clear_failed p
      | _ :: _ => p
      end
  end.

(** Calls a client can make on a pool. *)
Inductive call : Type :=
| FetchFresh (proxy_list : list string)
| MarkFailed (proxy : string)
| GetNext
| GetRandom.

(** One call: the pool afterwards and whether it raised. *)
Definition exec (c : call) (p : pool) : outcome (option string) :=
  match c with
  | FetchFresh l => Returned None (fetch_fresh_proxies l p)
  | MarkFailed x => Returned None (mark_proxy_failed x p)
  | GetNext => get_next_proxy p
  | GetRandom => Returned None (get_random_proxy_effect p)
  end.

Definition pool_after {A} (o : outcome A) : pool :=
  match o with Returned _ p => p | IndexError p => p end.

(** A sequence of calls; an exception leaves the pool as it was when
    raised and the caller carries on.  The outcomes are listed in call
    order. *)
Fixpoint exec_all (cs : list call) (p : pool) : list (outcome (option string)) :=
  match cs with
  | [] => []
  | c :: cs' => let o := exec c p in o :: exec_all cs' (pool_after o)
  end.

Definition raised {A} (o : outcome A) : bool :=
  match o with Returned _ _ => false | IndexError _ => true end.

(** The cursor points into the list whenever the list has an element. *)
Definition cursor_in_range (p : pool) : Prop :=
  valid_proxies p ≠ [] → current_index p < length (valid_proxies p).

(** [mark_proxy_failed] called on each endpoint of [marks] in turn. *)
Definition mark_all (marks : list string) (p : pool) : pool :=
  foldl (λ q x, mark_proxy_failed x q) p marks.

(** Calls available on a [ProxyRotator], whose list is loaded once. *)
Definition rotator_call (c : call) : bool :=
  match c with FetchFresh _ => false | _ => true end.

End ProxyPool.

(* ===================================================================== *)
(** ** The Python string operations the source relies on                  *)
(* ===================================================================== *)

Module PyStr.

Definition chars (s : string) : list ascii := list_ascii_of_string s.
Definition str (l : list ascii) : string := string_of_list_ascii l.

(** [s[:n]] *)
Fixpoint take (n : nat) (s : string) : string :=
  match n, s with
  | S n', String c s' => String c (take n' s')
  | _, _ => EmptyString
  end.

(** [sub in s] *)
Fixpoint contains (sub s : string) : bool :=
  match s with
  | EmptyString => String.prefix sub EmptyString
  | String _ s' => String.prefix sub s || contains sub s'
  end.

(** [s.split(sep)] for a non-empty [sep]: the pieces between the
    occurrences of [sep], found left to right without overlap.  [skip]
    counts the characters of a separator still to be passed over, [cur]
    holds the current piece, reversed. *)
Fixpoint split_from (sep : string) (skip : nat) (cur : list ascii) (s : string)
  : list string :=
  match s with
  | EmptyString => [str (rev cur)]
  | String c s' =>
      match skip with
      | S k => split_from sep k cur s'
      | 0 =>
          if String.prefix sep s
          then str (rev cur) :: split_from sep (String.length sep - 1) [] s'
          else split_from sep 0 (c :: cur) s'
      end
  end.

Definition split (sep s : string) : list string := split_from sep 0 [] s.

(** [str.isspace] on the code points below 256. *)
Definition is_space (c : ascii) : bool :=
  let n := nat_of_ascii c in
  (((9 <=? n) && (n <=? 13)) || ((28 <=? n) && (n <=? 32))
   || (n =? 133) || (n =? 160))%nat.

(** [s.split()]: the maximal runs of non-space characters. *)
Fixpoint split_whitespace_from (cur : list ascii) (s : string) : list string :=
  match s with
  | EmptyString => match cur with [] => [] | _ => [str (rev cur)] end
  | String c s' =>
      if is_space c
      then match cur with
           | [] => split_whitespace_from [] s'
           | _ => str (rev cur) :: split_whitespace_from [] s'
           end
      else split_whitespace_from (c :: cur) s'
  end.

Definition split_whitespace (s : string) : list string :=
  split_whitespace_from [] s.

Fixpoint drop_while (f : ascii → bool) (l : list ascii) : list ascii :=
  match l with
  | [] => []
  | c :: l' => if f c then drop_while f l' else l
  end.

(** [s.strip()] *)
Definition strip (s : string) : string :=
  str (rev (drop_while is_space (rev (drop_while is_space (chars s))))).

(** [s.lower()] on the code points below 256: A-Z and the Latin-1 capitals
    (all of 192..222 but the multiplication sign 215) move up by 32. *)
Definition lower_char (c : ascii) : ascii :=
  let n := nat_of_ascii c in
  if (((65 <=? n) && (n <=? 90))
      || ((192 <=? n) && (n <=? 222) && negb (n =? 215)))%nat
  then ascii_of_nat (n + 32) else c.

Definition lower (s : string) : string := str (map lower_char (chars s)).

(** The character [c] does not occur in [s]. *)
Fixpoint lacks (c : ascii) (s : string) : bool :=
  match s with
  | EmptyString => true
  | String x s' => negb (Ascii.eqb x c) && lacks c s'
  end.

(** Truth value of a string: [if s:] *)
Definition truthy (s : string) : bool :=
  match s with EmptyString => false | _ => true end.

End PyStr.

(* ===================================================================== *)
(** ** [glob.glob] and [os.path.splitext] on one directory                *)
(* ===================================================================== *)

Module Glob.
Import PyStr.

(** A directory entry as [os.listdir] and [os.path.isfile] show it. *)
Record entry : Type := Entry { name : string; is_file : bool }.

(** The listing of a directory, in the order the system returns it. *)
Definition directory : Type := list entry.

(** What [fnmatch.translate] makes of a pattern: [*], [?], a literal
    character, or a bracket expression (negated or not) given by its
    ranges; a single character [c] is the range [(c, c)]. *)
Inductive glob_token : Type :=
| GStar
| GAny
| GLit (c : ascii)
| GClass (negate : bool) (items : list (ascii * ascii)).

Definition ascii_ltb (a b : ascii) : bool := (nat_of_ascii a <? nat_of_ascii b)%nat.
Definition ascii_leb (a b : ascii) : bool := (nat_of_ascii a <=? nat_of_ascii b)%nat.

(** [l] up to the first [c], and what follows that [c]. *)
Fixpoint break_at (c : ascii) (l : list ascii) : option (list ascii * list ascii) :=
  match l with
  | [] => None
  | x :: l' =>
      if Ascii.eqb x c then Some ([], l')
      else match break_at c l' with
           | Some (a, b) => Some (x :: a, b)
           | None => None
           end
  end.

(** The text between a [[] and its closing []]: a leading [!] and a []]
    right after it belong to the text.  [None] when nothing closes. *)
Definition class_body (rest : list ascii) : option (list ascii * list ascii) :=
  let '(bang, r1) :=
    match rest with "!"%char :: r => (["!"%char], r) | _ => ([], rest) end in
  let '(brk, r2) :=
    match r1 with "]"%char :: r => (["]"%char], r) | _ => ([], r1) end in
  match break_at "]" r2 with
  | Some (body, after) => Some ((bang ++ brk ++ body)%list, after)
  | None => None
  end.

(** The chunks between range hyphens: the search for a hyphen starts
    [skip] characters in, and resumes two characters after the one that
    follows a hyphen found ([k = k + 3]). *)
Fixpoint chunks_from (skip : nat) (cur : list ascii) (body : list ascii)
  : list (list ascii) :=
  match body with
  | [] => [rev cur]
  | c :: body' =>
      match skip with
      | S k => chunks_from k (c :: cur) body'
      | 0 =>
          if Ascii.eqb c "-" then rev cur :: chunks_from 2 [] body'
          else chunks_from 0 (c :: cur) body'
      end
  end.

(** [if chunk: chunks.append(chunk) else: chunks[-1] += '-'] *)
Fixpoint close_chunks (cs : list (list ascii)) : list (list ascii) :=
  match cs with
  | [] => []
  | [c] => [c]
  | [c; []] => [(c ++ ["-"%char])%list]
  | c :: cs' => c :: close_chunks cs'
  end.

(** The pass from the right that removes empty ranges. *)
Fixpoint remove_empty_ranges (cs : list (list ascii)) : list (list ascii) :=
  match cs with
  | [] => []
  | c :: rest =>
      match remove_empty_ranges rest with
      | [] => [c]
      | d :: ds =>
          if ascii_ltb (List.hd "000"%char d) (List.last c "000"%char)
          then (removelast c ++ List.tl d)%list :: ds
          else c :: d :: ds
      end
  end.

Definition singles (l : list ascii) : list (ascii * ascii) :=
  map (λ c, (c, c)) l.

(** The ranges the joined chunks denote: the last character of a chunk
    and the first of the next bound a range, the others stand alone. *)
Fixpoint class_items (cur : list ascii) (rest : list (list ascii))
  : list (ascii * ascii) :=
  match rest with
  | [] => singles cur
  | d :: rest' =>
      (singles (removelast cur)
       ++ (List.last cur "000"%char, List.hd "000"%char d)
       :: class_items (List.tl d) rest')%list
  end.

Definition class_token (body : list ascii) : glob_token :=
  let skip := match body with "!"%char :: _ => 2 | _ => 1 end in
  match remove_empty_ranges (close_chunks (chunks_from skip [] body)) with
  | [] => GClass false []
  | ("!"%char :: c) :: rest => GClass true (class_items c rest)
  | c :: rest => GClass false (class_items c rest)
  end.

(** [fnmatch.translate]; [fuel] bounds the number of tokens, the length
    of the pattern is enough. *)
Fixpoint translate (fuel : nat) (pat : list ascii) : list glob_token :=
  match fuel with
  | 0 => []
  | S f =>
      match pat with
      | [] => []
      | "*"%char :: r => GStar :: translate f r
      | "?"%char :: r => GAny :: translate f r
      | "["%char :: r =>
          match class_body r with
          | None => GLit "[" :: translate f r
          | Some (body, after) => class_token body :: translate f after
          end
      | c :: r => GLit c :: translate f r
      end
  end.

Definition in_class (negate : bool) (items : list (ascii * ascii)) (c : ascii) : bool :=
  xorb negate (existsb (λ r, ascii_leb (fst r) c && ascii_leb c (snd r)) items).

(** Whole-name match of the translated pattern. *)
Fixpoint match_tokens (ts : list glob_token) (s : list ascii) : bool :=
  match ts with
  | [] => match s with [] => true | _ => false end
  | GStar :: ts' =>
      (fix star (s : list ascii) : bool :=
         match_tokens ts' s
         || match s with [] => false | _ :: s' => star s' end) s
  | GAny :: ts' =>
      match s with _ :: s' => match_tokens ts' s' | [] => false end
  | GLit c :: ts' =>
      match s with x :: s' => Ascii.eqb x c && match_tokens ts' s' | [] => false end
  | GClass neg items :: ts' =>
      match s with x :: s' => in_class neg items x && match_tokens ts' s' | [] => false end
  end.

(** [fnmatch.fnmatch(name, pattern)] on a system that keeps case. *)
Definition fnmatch (nm pattern : string) : bool :=
  match_tokens (translate (String.length pattern) (chars pattern)) (chars nm).

(** [glob.has_magic] *)
Definition has_magic (pattern : string) : bool :=
  existsb (λ c, Ascii.eqb c "*" || Ascii.eqb c "?" || Ascii.eqb c "[") (chars pattern).

Definition ishidden (s : string) : bool :=
  match s with String "." _ => true | _ => false end.

Definition string_eqb (a b : string) : bool := bool_decide (a = b).

(** [glob.glob(os.path.join(dir, pattern))] for a pattern without a path
    separator, as the names matched: a pattern without wildcard is looked
    up as it stands; otherwise the listing is filtered, names starting with
    a dot only for a pattern starting with a dot. *)
Definition glob (dir : directory) (pattern : string) : list string :=
  let names := map name dir in
  if has_magic pattern then
    filter (λ nm, fnmatch nm pattern = true)
           (if ishidden pattern then names
            else filter (λ nm, ishidden nm = false) names)
  else if existsb (string_eqb pattern) names then [pattern] else [].

(** [os.path.splitext] on a name without a path separator: the extension
    starts at the last dot, unless only dots come before it. *)
Definition splitext (p : string) : string * string :=
  match break_at "." (rev (chars p)) with
  | None => (p, EmptyString)
  | Some (ext_rev, root_rev) =>
      if forallb (λ c, Ascii.eqb c ".") root_rev then (p, EmptyString)
      else (str (rev root_rev), str ("."%char :: rev ext_rev))
  end.

End Glob.

(* ===================================================================== *)
(** ** [ytscrp.py]: file names, content identifiers, duplicate lookup     *)
(* ===================================================================== *)

Module DuplicateIndex.
Import PyStr Glob.

(** The double quote, code point 34. *)
Definition quote_char : ascii := ascii_of_nat 34.

(** The class of the first [re.sub] of [sanitize_filename]. *)
Definition is_problematic (c : ascii) : bool :=
  existsb (Ascii.eqb c)
          ["<"; ">"; ":"; quote_char; "/"; "\"; "|"; "?"; "*"]%char.

(** The class of the second [re.sub]: code points 0..31 and 127..159. *)
Definition is_control (c : ascii) : bool :=
  let n := nat_of_ascii c in
  ((n <=? 31) || ((127 <=? n) && (n <=? 159)))%nat.

Definition sanitize_filename (filename : string) : string :=
  let replaced :=
    map (λ c, if is_problematic c then "_"%char else c) (chars filename) in
  let cleaned := List.filter (λ c, negb (is_control c)) replaced in
  let capped :=
    if (200 <? length cleaned)%nat then firstn 200 cleaned else cleaned in
  strip (str capped).

Section ContentIdentifier.

(** [hashlib.md5(s.encode()).hexdigest()], a function of the library. *)
Variable md5_hexdigest : string → string.

(** The three branches that look for a video id.  The outer option is
    [None] when an index of a [split] result is out of range, the inner
    one is the Python [None] the variable starts with. *)
Definition video_id_of (url : string) : option (option string) :=
  if contains "youtube.com/watch?v=" url then
    seg ← split "watch?v=" url !! 1;
    first ← split "&" seg !! 0;
    Some (Some first)
  else if contains "youtu.be/" url then
    seg ← split "youtu.be/" url !! 1;
    first ← split "?" seg !! 0;
    Some (Some first)
  else if contains "/video/" url then
    seg ← split "/video/" url !! 1;
    first ← split "/" seg !! 0;
    Some (Some first)
  else Some None.

(** [generate_video_id_hash]; [None] stands for an [IndexError]. *)
Definition generate_video_id_hash (url : string) : option string :=
  video_id ← video_id_of url;
  match video_id with
  | Some id =>
      if truthy id then Some (take 12 (md5_hexdigest id))
      else Some (take 12 (md5_hexdigest url))
  | None => Some (take 12 (md5_hexdigest url))
  end.

End ContentIdentifier.

(** A video id without the characters the three branches cut at. *)
Definition plain_id (id : string) : Prop :=
  id ≠ EmptyString ∧
  lacks "&" id = true ∧ lacks "?" id = true ∧ lacks "/" id = true.

Definition possible_extensions (audio_only : bool) : list string :=
  if negb audio_only
  then [".mp4"; ".webm"; ".mkv"; ".avi"; ".mov"]
  else [".mp3"; ".m4a"; ".webm"; ".ogg"].

(** The three patterns tried for one extension. *)
Definition patterns (sanitized_title video_id_hash ext : string) : list string :=
  [ sanitized_title ++ "_" ++ video_id_hash ++ ext;
    sanitized_title ++ "_" ++ video_id_hash ++ ".f*" ++ ext;
    "*" ++ video_id_hash ++ "*" ++ ext ].

(** The two nested [for] loops: the first pattern with a match decides,
    and its first match is returned. *)
Fixpoint first_match (dir : directory) (pats : list string) : option string :=
  match pats with
  | [] => None
  | pattern :: rest =>
      match glob dir pattern with
      | m :: _ => Some m
      | [] => first_match dir rest
      end
  end.

(** [len(a & b) / len(a | b) > 0.7] behind the guard [len(a) > 0].  The
    quotient of the two sizes is compared with 7/10 exactly; the rounding
    of the floating-point division and of the literal [0.7] changes the
    outcome for no pair of sizes below [2^50]. *)
Definition similar (title_words existing_words : gset string) : bool :=
  if (0 <? size title_words)%nat
  then (7 * size (title_words ∪ existing_words)
        <? 10 * size (title_words ∩ existing_words))%nat
  else false.

Definition word_set (s : string) : gset string :=
  list_to_set (split_whitespace (lower s)).

(** The fallback loop over the regular files of the directory. *)
Fixpoint similarity_match (sanitized_title : string) (exts : list string)
         (existing_files : list string) : option string :=
  match existing_files with
  | [] => None
  | existing_file :: rest =>
      let existing_name := fst (splitext existing_file) in
      let existing_ext := snd (splitext existing_file) in
      if negb (existsb (string_eqb existing_ext) exts)
      then similarity_match sanitized_title exts rest
      else if similar (word_set sanitized_title) (word_set existing_name)
           then Some existing_file
           else similarity_match sanitized_title exts rest
  end.

(** [check_existing_file]; [download_dir] is [None] when the path does
    not exist, and the listing of the directory otherwise. *)
Definition check_existing_file (download_dir : option directory)
           (title video_id_hash : string) (audio_only : bool) : option string :=
  match download_dir with
  | None => None
  | Some dir =>
      let sanitized_title := sanitize_filename title in
      let exts := possible_extensions audio_only in
      match first_match dir
              (flat_map (patterns sanitized_title video_id_hash) exts) with
      | Some m => Some m
      | None =>
          similarity_match sanitized_title exts
            (map name (List.filter is_file dir))
      end
  end.

(** The directories of the two lookup examples. *)
Definition random_video_dir : option directory :=
  Some [Entry "Some Random Video.webm" true].

Definition song_dir : option directory :=
  Some [Entry "Song Title_abc123def456.mp3" true].

End DuplicateIndex.

(* ===================================================================== *)
(** ** [ytscrp.py]: one task, its items and its workers                   *)
(* ===================================================================== *)

Module Orchestrator.
Import PyStr.

(** [VideoDownload.status] *)
Inductive item_status : Type :=
| Pending | Checking | Skipped | Downloading | Completed | Failed.

(** [tasks_storage[task_id]['status']] *)
Inductive task_state : Type :=
| Initializing | Fetching | TaskDownloading | TaskCompleted | TaskFailed.

Global Instance item_status_eq_dec : EqDecision item_status.
Proof. solve_decision. Defined.

Global Instance task_state_eq_dec : EqDecision task_state.
Proof. solve_decision. Defined.

(** The dataclass [VideoDownload].  The fields [progress], [speed], [eta],
    [start_time] and [end_time] hold a float, two formatted texts and two
    clock readings; no status depends on them and they are left out. *)
Record VideoDownload : Type := mkVideo {
  url : string;
  title : string;
  status : item_status;
  file_size : Z;
  downloaded_size : Z;
  filename : string;
  error : string;
  video_id_hash : string;
  skipped_reason : string
}.

(** One entry of the list [get_video_info_detailed] returns. *)
Record video_info : Type := mkInfo {
  info_url : string;
  info_title : string;
  info_video_id_hash : string
}.

(** The counters and flags of [tasks_storage[task_id]].  A counter is
    [None] while its key is absent from the dictionary (the dictionary
    built by [start_download_enhanced] has no counter keys). *)
Record task_record : Type := mkTask {
  task_status : task_state;
  progress : nat;
  total_videos : Z;
  success_count : option nat;
  failure_count : option nat;
  skipped_count : option nat;
  downloading_count : option nat;
  checking_count : option nat;
  zip_available : bool;
  completed : bool
}.

(** A call into the outside world either returns or raises; [Raise]
    carries [str(e)]. *)
Inductive raises (A : Type) : Type :=
| Return (a : A)
| Raise (msg : string).
Arguments Return {A} a.
Arguments Raise {A} msg.

(** What the outside world answers to the worker of one item:
    - [duplicate_check]: the call [check_existing_file(...)];
    - [existing_size]: [os.path.getsize] of the file it found;
    - [fetch]: [ydl.extract_info(url, download=True)] and the search for
      the file it wrote, ending in [downloaded_filename];
    - [written_size]: [os.path.exists] and [os.path.getsize] of that
      file, [None] when it does not exist. *)
Record item_env : Type := mkEnv {
  duplicate_check : raises (option string);
  existing_size : raises Z;
  fetch : raises (option string);
  written_size : raises (option Z)
}.

(** The request and the environment of one task. *)
Record config : Type := mkConfig {
  max_videos : Z;
  skip_duplicates : bool;
  enhanced_endpoint : bool;
  resolved : list video_info;
  env : nat → item_env
}.

(** Where the body of [download_single_video] stands. *)
Inductive worker_pc : Type :=
| WStart
| WChecking
| WDownloading
| WRaised (msg : string)
| WDone (result : bool).

(** Where [process_download_enhanced] stands. *)
Inductive orch_pc : Type :=
| OStart | OFetching | ORegistered | ODownloading | OWave | OEnd.

Record state : Type := mkState {
  task : task_record;
  videos : list VideoDownload;
  workers : list worker_pc;
  orch : orch_pc
}.

(** *** Field assignments *)

Definition set_status (s : item_status) (v : VideoDownload) : VideoDownload :=
  mkVideo (url v) (title v) s (file_size v) (downloaded_size v) (filename v)
          (error v) (video_id_hash v) (skipped_reason v).

Definition set_file_size (z : Z) (v : VideoDownload) : VideoDownload :=
  mkVideo (url v) (title v) (status v) z (downloaded_size v) (filename v)
          (error v) (video_id_hash v) (skipped_reason v).

Definition set_downloaded_size (z : Z) (v : VideoDownload) : VideoDownload :=
  mkVideo (url v) (title v) (status v) (file_size v) z (filename v)
          (error v) (video_id_hash v) (skipped_reason v).

Definition set_filename (f : string) (v : VideoDownload) : VideoDownload :=
  mkVideo (url v) (title v) (status v) (file_size v) (downloaded_size v) f
          (error v) (video_id_hash v) (skipped_reason v).

Definition set_error (e : string) (v : VideoDownload) : VideoDownload :=
  mkVideo (url v) (title v) (status v) (file_size v) (downloaded_size v)
          (filename v) e (video_id_hash v) (skipped_reason v).

Definition set_video_id_hash (h : string) (v : VideoDownload) : VideoDownload :=
  mkVideo (url v) (title v) (status v) (file_size v) (downloaded_size v)
          (filename v) (error v) h (skipped_reason v).

Definition set_skipped_reason (r : string) (v : VideoDownload) : VideoDownload :=
  mkVideo (url v) (title v) (status v) (file_size v) (downloaded_size v)
          (filename v) (error v) (video_id_hash v) r.

(** *** Counting, as [sum(1 for v in videos if ...)] *)

Definition count_status (s : item_status) (vs : list VideoDownload) : nat :=
  length (List.filter (λ v, bool_decide (status v = s)) vs).

(** [v.status in ['completed', 'skipped']] *)
Definition count_success (vs : list VideoDownload) : nat :=
  length (List.filter
            (λ v, bool_decide (status v = Completed) || bool_decide (status v = Skipped))
            vs).

(** *** The task dictionary *)

(** [start_download] and [start_download_enhanced] *)
Definition initial_task (cfg : config) : task_record :=
  let zero := if enhanced_endpoint cfg then None else Some 0 in
  mkTask Initializing 0 (max_videos cfg) zero zero None None None false false.

Definition initial_state (cfg : config) : state :=
  mkState (initial_task cfg) [] [] OStart.

(** [update_task_status_realtime(task_id, status, progress, total, current,
    zip_available, completed)]: the counters are not among the keys it
    writes. *)
Definition update_task_status_realtime (s : task_state) (prog : nat) (total : Z)
           (zip done : bool) (t : task_record) : task_record :=
  mkTask s prog total (success_count t) (failure_count t) (skipped_count t)
         (downloading_count t) (checking_count t) zip done.

(** [tasks_storage[task_id]['total_videos'] = len(video_info_list)] *)
Definition set_total_videos (total : Z) (t : task_record) : task_record :=
  mkTask (task_status t) (progress t) total (success_count t) (failure_count t)
         (skipped_count t) (downloading_count t) (checking_count t)
         (zip_available t) (completed t).

(** The two assignments after an item succeeded or was skipped. *)
Definition set_success (n : nat) (t : task_record) : task_record :=
  mkTask (task_status t) n (total_videos t) (Some n) (failure_count t)
         (skipped_count t) (downloading_count t) (checking_count t)
         (zip_available t) (completed t).

(** [tasks_storage[task_id]['failure_count'] = failed] *)
Definition set_failure (n : nat) (t : task_record) : task_record :=
  mkTask (task_status t) (progress t) (total_videos t) (success_count t) (Some n)
         (skipped_count t) (downloading_count t) (checking_count t)
         (zip_available t) (completed t).

(** The [update] of [send_video_progress_update]: every counter is
    recomputed from the list. *)
Definition send_video_progress_update (vs : list VideoDownload) (t : task_record)
  : task_record :=
  mkTask (task_status t) (count_success vs) (total_videos t)
         (Some (count_success vs)) (Some (count_status Failed vs))
         (Some (count_status Skipped vs)) (Some (count_status Downloading vs))
         (Some (count_status Checking vs)) (zip_available t) (completed t).

(** *** The items *)

(** The [VideoDownload] built for one resolved entry. *)
Definition new_video (info : video_info) : VideoDownload :=
  let t := if truthy (info_title info) then info_title info else "Unknown Video" in
  mkVideo (info_url info) (take 120 t) Pending 0 0 "" "" (info_video_id_hash info) "".

(** *** One worker: [download_single_video] *)

(** Which counters the block just run has reassigned. *)
Inductive counter_update : Type := KeepCounters | SetSuccess | SetFailure.

(** The block "Mark downloading". *)
Definition mark_downloading (v : VideoDownload) : VideoDownload :=
  set_filename "" (set_error "" (set_status Downloading v)).

(** The [except Exception as e] block. *)
Definition mark_failed (msg : string) (v : VideoDownload) : VideoDownload :=
  set_error msg (set_status Failed v).

(** The next block of the worker of one item: the statements up to and
    including its next block under [storage_lock], with the answers of the
    outside world taken from [e].  A block that raises midway keeps the
    assignments made before the raise.  Handing a snapshot to the event
    loop ([asyncio.run_coroutine_threadsafe]) is taken not to raise. *)
Definition worker_block (skip : bool) (info : video_info) (e : item_env)
           (pc : worker_pc) (v : VideoDownload)
  : option (worker_pc * VideoDownload * counter_update) :=
  match pc with
  | WStart =>
      Some (WChecking,
            set_video_id_hash (info_video_id_hash info) (set_status Checking v),
            KeepCounters)
  | WChecking =>
      let proceed := Some (WDownloading, mark_downloading v, KeepCounters) in
      if skip then
        match duplicate_check e with
        | Raise msg => Some (WRaised msg, v, KeepCounters)
        | Return (Some existing_file) =>
            if truthy existing_file then
              let v1 := set_filename existing_file (set_status Skipped v) in
              match existing_size e with
              | Raise msg => Some (WRaised msg, v1, KeepCounters)
              | Return size =>
                  Some (WDone true,
                        set_skipped_reason ("Already exists: " ++ existing_file)
                                           (set_file_size size v1),
                        SetSuccess)
              end
            else proceed
        | Return None => proceed
        end
      else proceed
  | WDownloading =>
      match fetch e with
      | Raise msg => Some (WRaised msg, v, KeepCounters)
      | Return downloaded_filename =>
          match downloaded_filename with
          | Some f =>
              if truthy f then
                let v1 := set_filename f (set_status Completed v) in
                match written_size e with
                | Raise msg => Some (WRaised msg, v1, KeepCounters)
                | Return (Some size) =>
                    Some (WDone true, set_file_size size v1, SetSuccess)
                | Return None => Some (WDone true, v1, SetSuccess)
                end
              else
                Some (WDone true,
                      set_error "Downloaded but file not found" (set_status Failed v),
                      SetFailure)
          | None =>
              Some (WDone true,
                    set_error "Downloaded but file not found" (set_status Failed v),
                    SetFailure)
          end
      end
  | WRaised msg => Some (WDone false, mark_failed msg v, SetFailure)
  | WDone _ => None
  end.

Definition apply_counters (k : counter_update) (vs : list VideoDownload)
           (t : task_record) : task_record :=
  match k with
  | KeepCounters => t
  | SetSuccess => set_success (count_success vs) t
  | SetFailure => set_failure (count_status Failed vs) t
  end.

(** The byte counts of a progress event are Python numbers, integers or
    finite floats: rationals.  [number_truthy x] is the truth value of [x]
    (not zero) and [py_int x] is [int(x)], which cuts toward zero. *)
Definition number_truthy (x : QArith_base.Q) : bool :=
  negb (QArith_base.Qnum x =? 0)%Z.

Definition py_int (x : QArith_base.Q) : Z :=
  Z.quot (QArith_base.Qnum x) (Z.pos (QArith_base.Qden x)).

(** The body of [progress_hook] for a ['downloading'] event attributed to
    item [idx]; [downloaded] and [total] are the values of the two
    [... or ... or 0] chains.  A falsy count leaves the field alone, a
    truthy one stores [int] of it. *)
Definition progress_hook (downloaded total : QArith_base.Q) (v : VideoDownload)
  : VideoDownload :=
  let v1 :=
    if number_truthy downloaded then set_downloaded_size (py_int downloaded) v
    else v in
  if number_truthy total then set_file_size (py_int total) v1 else v1.

Definition is_done (pc : worker_pc) : bool :=
  match pc with WDone _ => true | _ => false end.

Definition is_fetching (pc : worker_pc) : bool :=
  match pc with WDownloading => true | _ => false end.

(** *** The task: [process_download_enhanced] and what runs beside it *)

Inductive action : Type :=
| AFetching                (* the first status update *)
| AResolve                 (* the item list came back *)
| ADownloading             (* the status update before the wave *)
| ASubmit                  (* every item is handed to the executor *)
| AWorker (i : nat)        (* the next block of the worker of item [i] *)
| AHook (idx : nat) (downloaded total : QArith_base.Q)
| ASnapshot                (* a scheduled [send_video_progress_update] *)
| AFinish                  (* the wave is over: archive, final update *)
| ARaise (msg : string).   (* an exception reaches the outer handler *)

Definition with_task (t : task_record) (st : state) : state :=
  mkState t (videos st) (workers st) (orch st).

(** One action.  The executor runs at most four workers at a time and the
    event loop runs a snapshot only when it is free; here any worker that
    has not returned may run its next block and a snapshot may be taken at
    any time, so every schedule of the program is a schedule of [step]. *)
Definition step (cfg : config) (a : action) (st : state) : option state :=
  match a with
  | AFetching =>
      match orch st with
      | OStart =>
          Some (mkState (update_task_status_realtime Fetching 0 (max_videos cfg)
                           false false (task st))
                        (videos st) (workers st) OFetching)
      | _ => None
      end
  | AResolve =>
      match orch st with
      | OFetching =>
          match resolved cfg with
          | [] =>
              Some (mkState (update_task_status_realtime TaskFailed 0 (max_videos cfg)
                               false true (task st))
                            (videos st) (workers st) OEnd)
          | _ :: _ =>
              Some (mkState (set_total_videos (Z.of_nat (length (resolved cfg))) (task st))
                            (map new_video (resolved cfg)) (workers st) ORegistered)
          end
      | _ => None
      end
  | ADownloading =>
      match orch st with
      | ORegistered =>
          Some (mkState (update_task_status_realtime TaskDownloading 0
                           (Z.of_nat (length (resolved cfg))) false false (task st))
                        (videos st) (workers st) ODownloading)
      | _ => None
      end
  | ASubmit =>
      match orch st with
      | ODownloading =>
          Some (mkState (task st) (videos st)
                        (map (λ _, WStart) (resolved cfg)) OWave)
      | _ => None
      end
  | AWorker i =>
      pc ← workers st !! i;
      v ← videos st !! i;
      info ← resolved cfg !! i;
      r ← worker_block (skip_duplicates cfg) info (env cfg i) pc v;
      let vs := <[i := r.1.2]> (videos st) in
      Some (mkState (apply_counters r.2 vs (task st)) vs
                    (<[i := r.1.1]> (workers st)) (orch st))
  | AHook idx downloaded total =>
      if existsb is_fetching (workers st) then
        v ← videos st !! idx;
        Some (mkState (task st) (<[idx := progress_hook downloaded total v]> (videos st))
                      (workers st) (orch st))
      else None
  | ASnapshot =>
      Some (with_task (send_video_progress_update (videos st) (task st)) st)
  | AFinish =>
      match orch st with
      | OWave =>
          if forallb is_done (workers st) then
            Some (mkState (update_task_status_realtime TaskCompleted
                             (count_success (videos st))
                             (Z.of_nat (length (resolved cfg))) true true (task st))
                          (videos st) (workers st) OEnd)
          else None
      | _ => None
      end
  | ARaise msg =>
      match orch st with
      | OEnd => None
      | _ =>
          Some (mkState (update_task_status_realtime TaskFailed 0 (max_videos cfg)
                           false true (task st))
                        (videos st) (workers st) OEnd)
      end
  end.

(** A schedule, run from a state; [None] when an action is not enabled. *)
Fixpoint run (cfg : config) (acts : list action) (st : state) : option state :=
  match acts with
  | [] => Some st
  | a :: acts' => st' ← step cfg a st; run cfg acts' st'
  end.

(** A state some schedule leads to. *)
Definition reachable (cfg : config) (st : state) : Prop :=
  ∃ acts, run cfg acts (initial_state cfg) = Some st.

(** Every item was handed to a worker and every worker has returned. *)
Definition wave_finished (st : state) : Prop :=
  length (workers st) = length (videos st) ∧
  forallb is_done (workers st) = true.

Definition is_raise (a : action) : bool :=
  match a with ARaise _ => true | _ => false end.

(** What an observer reads off an item. *)
Definition outcome (v : VideoDownload) : item_status * string :=
  (status v, error v).

(** What an observer reads off the items after each action of a schedule. *)
Fixpoint observe (cfg : config) (acts : list action) (st : state)
  : list (list (item_status * string)) :=
  match acts with
  | [] => []
  | a :: acts' =>
      match step cfg a st with
      | Some st' => map outcome (videos st') :: observe cfg acts' st'
      | None => []
      end
  end.

(** *** Example tasks *)

Definition three_items : list video_info :=
  [ mkInfo "https://www.youtube.com/watch?v=aaaaaaaaaaa" "First" "d57f21e6a273" ;
    mkInfo "https://www.youtube.com/watch?v=bbbbbbbbbbb" "Second" "050641dae304" ;
    mkInfo "https://www.youtube.com/watch?v=ccccccccccc" "Third" "02d6b747c2ef" ].

(** Three items, nothing on disk yet; the fetch of the second one raises
    [msg], the other two write a file. *)
Definition second_fetch_fails (msg : string) : config :=
  mkConfig 10 true true three_items
    (λ i, if (i =? 1)%nat
          then mkEnv (Return None) (Return 0%Z) (Raise msg) (Return None)
          else mkEnv (Return None) (Return 0%Z)
                     (Return (Some "clip.mp4")) (Return (Some 1024%Z))).

(** One item whose duplicate check raises [msg]; its fetch would work. *)
Definition duplicate_check_fails (msg : string) : config :=
  mkConfig 10 true true
    [mkInfo "https://www.youtube.com/watch?v=aaaaaaaaaaa" "First" "d57f21e6a273"]
    (λ _, mkEnv (Raise msg) (Return 0%Z)
                (Return (Some "clip.mp4")) (Return (Some 1024%Z))).

(** The workers of three items taking turns, with snapshots in between,
    up to the return of the last worker. *)
Definition interleaved_wave : list action :=
  [ AFetching; AResolve; ADownloading; ASubmit;
    AWorker 0; AWorker 1; ASnapshot; AWorker 2; AWorker 1; AWorker 0;
    AHook 0 (QArith_base.inject_Z 512) (QArith_base.inject_Z 1024);
    AWorker 1; ASnapshot; AWorker 2; AWorker 0; AWorker 1; AWorker 2 ].

(** The same wave followed by the archive and the final update. *)
Definition interleaved : list action :=
  (interleaved_wave ++ [AFinish; ASnapshot])%list.

(** The same wave followed by an archive that cannot be written. *)
Definition archive_fails : list action :=
  (interleaved_wave ++ [ARaise "No space left on device"])%list.

(** One item carried to the end. *)
Definition single_item : list action :=
  [ AFetching; AResolve; ADownloading; ASubmit;
    AWorker 0; AWorker 0; AWorker 0; AFinish ].

Definition final_state (cfg : config) (acts : list action) : state :=
  default (initial_state cfg) (run cfg acts (initial_state cfg)).

(** [completed], [failed] and [skipped] are the terminal statuses. *)
Definition terminal (s : item_status) : bool :=
  match s with Skipped | Completed | Failed => true | _ => false end.

(** The worker of item [i], before and after it was submitted. *)
Definition pc_of (st : state) (i : nat) : worker_pc :=
  default WStart (workers st !! i).

(** The pairs of a position and an item that the worker of one item can
    bring about, progress events included. *)
Inductive local_reach (skip : bool) (info : video_info) (e : item_env)
  : worker_pc → VideoDownload → Prop :=
| reach_start : local_reach skip info e WStart (new_video info)
| reach_block pc v pc' v' k :
    local_reach skip info e pc v →
    worker_block skip info e pc v = Some (pc', v', k) →
    local_reach skip info e pc' v'
| reach_hook pc v downloaded total :
    local_reach skip info e pc v →
    local_reach skip info e pc (progress_hook downloaded total v).

(** The duplicate check of item [i] is off, or finds nothing. *)
Definition duplicate_miss (cfg : config) (i : nat) : Prop :=
  skip_duplicates cfg = false ∨ duplicate_check (env cfg i) = Return None.

(** The fetch of item [i] succeeds and its file is found. *)
Definition fetch_succeeds (cfg : config) (i : nat) : Prop :=
  ∃ f size, fetch (env cfg i) = Return (Some f) ∧ truthy f = true ∧
            written_size (env cfg i) = Return size.

(** What holds in every state a schedule leads to. *)
Record invariant (cfg : config) (st : state) : Prop := {
  inv_local :
    ∀ i info v, resolved cfg !! i = Some info → videos st !! i = Some v →
                local_reach (skip_duplicates cfg) info (env cfg i) (pc_of st i) v;
  inv_videos :
    videos st = [] ∨ length (videos st) = length (resolved cfg);
  inv_workers :
    workers st = [] ∨
    (length (workers st) = length (resolved cfg) ∧
     length (videos st) = length (resolved cfg));
  inv_orch :
    match orch st with
    | OStart | OFetching => videos st = [] ∧ workers st = []
    | ORegistered | ODownloading =>
        workers st = [] ∧ length (videos st) = length (resolved cfg)
    | OWave =>
        length (workers st) = length (resolved cfg) ∧
        length (videos st) = length (resolved cfg)
    | OEnd => True
    end;
  inv_completed :
    task_status (task st) = TaskCompleted →
    orch st = OEnd ∧
    length (workers st) = length (videos st) ∧
    forallb is_done (workers st) = true ∧
    total_videos (task st) = Z.of_nat (length (videos st)) ∧
    length (videos st) = length (resolved cfg);
  inv_failed :
    task_status (task st) = TaskFailed →
    orch st = OEnd ∧ total_videos (task st) = max_videos cfg;
  inv_failure_count :
    count_status Failed (videos st) = 0 ∨
    failure_count (task st) = Some (count_status Failed (videos st))
}.

End Orchestrator.

(* ===================================================================== *)
(** ** Proxy rotation: the rest of the two classes                        *)
(* ===================================================================== *)

Module ProxyCalls.
Import ProxyPool.

(** What a call handed back, an exception handing back nothing. *)
Definition returned {A} (o : outcome A) : option A :=
  match o with Returned a _ => Some a | IndexError _ => None end.

(** The list read round from the cursor. *)
Definition rotation (p : pool) : list string :=
  (drop (current_index p) (valid_proxies p)
   ++ take (current_index p) (valid_proxies p))%list.

(** [[p for p in self.valid_proxies if p not in self.failed_proxies]] *)
Definition available (p : pool) : list string :=
  filter (λ x, x ∉ failed_proxies p) (valid_proxies p).

(** [get_random_proxy].  [random.choice(available)] is
    [available[randbelow(len(available))]]; [randbelow] stands for the
    generator, which answers a length [n > 0] with a number below [n]. *)
Definition get_random_proxy (randbelow : nat → nat) (p : pool)
  : outcome (option string) :=
  match valid_proxies p with
  | [] => Returned None p
  | _ :: _ =>
      let q := match available p with [] => clear_failed p | _ :: _ => p end in
      let choices :=
        match available p with [] => valid_proxies p | _ :: _ => available p end in
      match choices with
      | [] => Returned None q
      | _ :: _ =>
          match choices !! randbelow (length choices) with
          | Some proxy => Returned (Some proxy) q
          | None => IndexError q
          end
      end
  end.

(** The numbers of [get_stats]. *)
Record stats : Type := Stats {
  total_proxies : Z;
  failed_count : Z;
  available_proxies : Z;
  stats_index : Z
}.

Definition get_stats (p : pool) : stats :=
  Stats (Z.of_nat (length (valid_proxies p)))
        (Z.of_nat (size (failed_proxies p)))
        (Z.of_nat (length (valid_proxies p)) - Z.of_nat (size (failed_proxies p)))
        (Z.of_nat (current_index p)).

(** [ProxyRotator.load_proxies] with [test=False], on the lines of the
    file: [[line.strip() for line in f if line.strip()]]. *)
Definition read_proxy_lines (lines : list string) : list string :=
  List.filter PyStr.truthy (map PyStr.strip lines).

(** [ProxyRotator(proxy_file, test_proxies=False)]; [lines] is [None]
    when the file cannot be read, which leaves the list empty. *)
Definition init_proxy_rotator (lines : option (list string)) : pool :=
  match lines with
  | Some ls => load_proxies (read_proxy_lines ls) new_pool
  | None => load_proxies [] new_pool
  end.

(** What [get_proxy_for_ytdlp] hands to yt-dlp: the dictionary it returns,
    or the exception of [get_next_proxy], and the rotator afterwards.  The
    global [proxy_rotator] is [None] before [init_proxy_rotator]. *)
Inductive ytdlp_proxy : Type :=
| ProxyOptions (options : gmap string string) (rotator : option pool)
| ProxyRaised (rotator : option pool).

Definition get_proxy_for_ytdlp (proxy_rotator : option pool) : ytdlp_proxy :=
  match proxy_rotator with
  | None => ProxyOptions ∅ None
  | Some p =>
      match get_next_proxy p with
      | IndexError p' => ProxyRaised (Some p')
      | Returned None p' => ProxyOptions ∅ (Some p')
      | Returned (Some proxy) p' =>
          if PyStr.truthy proxy
          then ProxyOptions {[ "proxy" := "http://" ++ proxy ]} (Some p')
          else ProxyOptions ∅ (Some p')
      end
  end.

(** The pool a sequence of calls ends in. *)
Fixpoint pool_after_all (cs : list call) (p : pool) : pool :=
  match cs with
  | [] => p
  | c :: cs' => pool_after_all cs' (pool_after (exec c p))
  end.

End ProxyCalls.

(* ===================================================================== *)
(** ** Shapes of strings used to state what the string code guarantees    *)
(* ===================================================================== *)

Module PyStrShapes.
Import PyStr.

(** A list that is empty or starts with a character that [f] rejects. *)
Definition starts_clean (f : ascii → bool) (l : list ascii) : Prop :=
  match l with [] => True | c :: _ => f c = false end.

(** The characters [strip] keeps. *)
Definition stripped_chars (l : list ascii) : list ascii :=
  rev (drop_while is_space (rev (drop_while is_space l))).

(** Neither the first nor the last character is a space. *)
Definition no_surrounding_space (s : string) : Prop :=
  starts_clean is_space (chars s) ∧ starts_clean is_space (rev (chars s)).

(** A name [sanitize_filename] has nothing to do on: none of the
    characters it replaces or removes, at most 200 characters, no space at
    either end. *)
Definition clean_name (s : string) : Prop :=
  Forall (λ c, DuplicateIndex.is_problematic c = false
               ∧ DuplicateIndex.is_control c = false) (chars s) ∧
  (String.length s ≤ 200)%nat ∧
  no_surrounding_space s.

End PyStrShapes.

(* ===================================================================== *)
(** ** Shapes of patterns and file names                                  *)
(* ===================================================================== *)

Module LookupShapes.

(** A character [fnmatch.translate] takes literally wherever it stands:
    not a wildcard, and neither of the two characters that are special
    inside a bracket expression. *)
Definition plain_char (c : ascii) : bool :=
  negb (existsb (Ascii.eqb c) ["*"; "?"; "["; "]"; "!"]%char).

(** [s.endswith(e)] *)
Definition ends_with (s e : string) : Prop := ∃ root, s = root ++ e.

End LookupShapes.

(* ===================================================================== *)
(** ** The life cycle of a task and of its items                          *)
(* ===================================================================== *)

Module TaskLifecycle.
Import Orchestrator.

(** How far a task status is on the way [initializing], [fetching],
    [downloading], then [completed] or [failed]. *)
Definition task_rank (s : task_state) : nat :=
  match s with
  | Initializing => 0
  | Fetching => 1
  | TaskDownloading => 2
  | TaskCompleted | TaskFailed => 3
  end.

(** The changes of [VideoDownload.status] the body of
    [download_single_video] can make. *)
Definition item_edge (a b : item_status) : bool :=
  match a, b with
  | Pending, Checking
  | Checking, Skipped | Checking, Downloading | Checking, Failed
  | Downloading, Completed | Downloading, Failed
  | Skipped, Failed | Completed, Failed => true
  | _, _ => false
  end.

(** What the task dictionary shows at each point of
    [process_download_enhanced]. *)
Definition phase_invariant (cfg : config) (st : state) : Prop :=
  match orch st with
  | OStart =>
      task_status (task st) = Initializing ∧
      completed (task st) = false ∧ zip_available (task st) = false
  | OFetching =>
      task_status (task st) = Fetching ∧
      completed (task st) = false ∧ zip_available (task st) = false
  | ORegistered =>
      task_status (task st) = Fetching ∧
      completed (task st) = false ∧ zip_available (task st) = false ∧
      resolved cfg ≠ []
  | ODownloading | OWave =>
      task_status (task st) = TaskDownloading ∧
      completed (task st) = false ∧ zip_available (task st) = false ∧
      resolved cfg ≠ []
  | OEnd =>
      completed (task st) = true ∧
      ((task_status (task st) = TaskCompleted ∧ zip_available (task st) = true ∧
        resolved cfg ≠ []) ∨
       (task_status (task st) = TaskFailed ∧ zip_available (task st) = false))
  end.

(** The progress shown counts items of the list, and the total shown is
    the limit of the request or the length of the list. *)
Definition progress_invariant (cfg : config) (st : state) : Prop :=
  (progress (task st) ≤ length (videos st))%nat ∧
  (total_videos (task st) = max_videos cfg ∨
   total_videos (task st) = Z.of_nat (length (resolved cfg))).

(** The blocks the worker of an item has left to run, at most. *)
Definition blocks_left (pc : worker_pc) : nat :=
  match pc with
  | WStart => 4
  | WChecking => 3
  | WDownloading => 2
  | WRaised _ => 1
  | WDone _ => 0
  end.

End TaskLifecycle.

(* ===================================================================== *)
(** ** [socks5_proxy_fetcher.py]: the refresh from the proxy list service *)
(* ===================================================================== *)

Module Socks5Fetch.
Import ProxyPool.

(** Python numbers as the service sends them: integers and finite floats
    are rationals, and Python compares them exactly. *)
Definition number : Type := QArith_base.Q.

Definition fifty : number := QArith_base.Qmake 50 1.

(** [a > b] *)
Definition gt (a b : number) : bool := negb (QArith_base.Qle_bool a b).

(** One element of the ['data'] array, through the four [get] calls the
    filter makes: [ip] and [port] as [f"{ip}:{port}"] prints them, empty
    when the value is falsy (absent, [None], [0] or the empty text);
    [protocols] empty and [upTime] zero when the key is absent. *)
Record proxy_info : Type := ProxyInfo {
  info_ip : string;
  info_port : string;
  info_protocols : list string;
  info_upTime : number
}.

(** The dictionary appended to [all_proxies], with the two keys read later
    ([country], [anonymity], [speed], [protocols] and [last_checked] are
    copied and never read). *)
Record fetched : Type := Fetched {
  proxy : string;
  uptime : number
}.

(** [if ip and port and 'socks5' in protocols and uptime > 50] *)
Definition accepts (i : proxy_info) : bool :=
  PyStr.truthy (info_ip i) && PyStr.truthy (info_port i)
  && existsb (Glob.string_eqb "socks5") (info_protocols i)
  && gt (info_upTime i) fifty.

Definition keep (i : proxy_info) : fetched :=
  Fetched (info_ip i ++ ":" ++ info_port i) (info_upTime i).

(** The [for current_page in range(1, 4)] loop.  [page n] is what the
    request for page [n] leads to: the ['data'] array, or an exception
    (of the request, of [raise_for_status], of the JSON decoder, or of an
    element of the wrong shape). *)
Fixpoint fetch_pages (page : nat → Orchestrator.raises (list proxy_info))
         (limit : nat) (pages : list nat) (all_proxies : list fetched)
  : Orchestrator.raises (list fetched) :=
  match pages with
  | [] => Orchestrator.Return all_proxies
  | current_page :: rest =>
      match page current_page with
      | Orchestrator.Raise msg => Orchestrator.Raise msg
      | Orchestrator.Return [] => Orchestrator.Return all_proxies
      | Orchestrator.Return proxies_data =>
          let all_proxies' :=
            (all_proxies ++ map keep (List.filter accepts proxies_data))%list in
          if (limit <=? length all_proxies')%nat
          then Orchestrator.Return all_proxies'
          else fetch_pages page limit rest all_proxies'
      end
  end.

(** The pages the loop asks for: the first one, and each next one as long
    as the page before it answered, was not empty and left fewer than
    [limit] entries gathered. *)
Fixpoint requested_pages (page : nat → Orchestrator.raises (list proxy_info))
         (limit : nat) (pages : list nat) (all_proxies : list fetched)
  : list nat :=
  match pages with
  | [] => []
  | current_page :: rest =>
      current_page ::
      match page current_page with
      | Orchestrator.Raise _ => []
      | Orchestrator.Return [] => []
      | Orchestrator.Return proxies_data =>
          let all_proxies' :=
            (all_proxies ++ map keep (List.filter accepts proxies_data))%list in
          if (limit <=? length all_proxies')%nat then []
          else requested_pages page limit rest all_proxies'
      end
  end.

(** [sorted(..., key=lambda x: x['uptime'], reverse=True)]: descending,
    and stable (elements with equal keys keep their order). *)
Fixpoint insert_desc (x : fetched) (l : list fetched) : list fetched :=
  match l with
  | [] => [x]
  | y :: l' => if gt (uptime y) (uptime x) then y :: insert_desc x l' else x :: l
  end.

Definition sorted_reverse (l : list fetched) : list fetched :=
  foldr insert_desc [] l.

(** [fetch_fresh_proxies(limit)] for a [limit >= 0]: the list returned and
    the pool afterwards.  Both [except] clauses return [[]] and have left
    the pool alone, the assignment being the last statement of [try]. *)
Definition fetch_fresh_proxies (page : nat → Orchestrator.raises (list proxy_info))
           (limit : nat) (p : pool) : list fetched * pool :=
  match fetch_pages page limit [1; 2; 3] [] with
  | Orchestrator.Raise _ => ([], p)
  | Orchestrator.Return all_proxies =>
      let proxy_list := firstn limit (sorted_reverse all_proxies) in
      (proxy_list, ProxyPool.fetch_fresh_proxies (map proxy proxy_list) p)
  end.

(** [a >= b] on numbers, as a proposition. *)
Definition at_least (a b : fetched) : Prop :=
  QArith_base.Qle (uptime b) (uptime a).

End Socks5Fetch.

(* ===================================================================== *)
(** ** [ytscrp.py]: the address of a channel                              *)
(* ===================================================================== *)

Module ChannelUrl.
Import PyStr.

(** [convert_channel_to_playlist]; [None] stands for an [IndexError] of
    [[-1]] or [[0]]. *)
Definition convert_channel_to_playlist (channel_url : string) : option string :=
  if contains "/playlist?" channel_url || contains "/watch" channel_url
  then Some channel_url
  else if contains "/@" channel_url then
    seg ← last (split "/@" channel_url);
    channel_id ← split "/" seg !! 0;
    Some ("https://www.youtube.com/@" ++ channel_id ++ "/videos")
  else if contains "/channel/" channel_url then
    seg ← last (split "/channel/" channel_url);
    channel_id ← split "/" seg !! 0;
    Some ("https://www.youtube.com/channel/" ++ channel_id ++ "/videos")
  else Some channel_url.

(** The two addresses the function builds. *)
Definition handle_page (channel_id : string) : string :=
  "https://www.youtube.com/@" ++ channel_id ++ "/videos".

Definition channel_page (channel_id : string) : string :=
  "https://www.youtube.com/channel/" ++ channel_id ++ "/videos".

End ChannelUrl.

(* ===================================================================== *)
(** ** [ytscrp.py]: the archive of a task                                 *)
(* ===================================================================== *)

Module Archive.
Import PyStr Orchestrator.

(** [storage_lock], a [threading.Lock]: it is not reentrant. *)
Inductive lock_state : Type := Free | Held.

(** A call returns, with the lock as it leaves it, or blocks for ever. *)
Inductive blocking (A : Type) : Type :=
| Returns (a : A) (l : lock_state)
| Blocks.
Arguments Returns {A} a l.
Arguments Blocks {A}.

(** [with storage_lock: body], entered by a thread that finds the lock in
    state [l]: [Held] means held by this very thread, which then waits for
    itself; the lock is released when the body is left. *)
Definition with_lock {A} (l : lock_state) (body : lock_state → blocking A)
  : blocking A :=
  match l with
  | Held => Blocks
  | Free =>
      match body Held with
      | Returns a _ => Returns a Free
      | Blocks => Blocks
      end
  end.

(** The loop of [create_task_zip_file]: the names written to the archive.
    [file_exists dir name] is [os.path.exists(os.path.join(dir, name))]. *)
Definition archive_members (file_exists : string → string → bool)
           (shared_download_dir : string) (videos : list VideoDownload)
  : list string :=
  map filename
      (List.filter
         (λ v, (bool_decide (status v = Completed) || bool_decide (status v = Skipped))
               && truthy (filename v)
               && file_exists shared_download_dir (filename v))
         videos).

(** [create_task_zip_file]: the members of the archive it writes; the
    [zipfile] calls are taken to succeed. *)
Definition create_task_zip_file (video_downloads : gmap string (list VideoDownload))
           (file_exists : string → string → bool)
           (task_id shared_download_dir : string) (l : lock_state)
  : blocking (list string) :=
  match with_lock l (λ held, Returns (default [] (video_downloads !! task_id)) held) with
  | Blocks => Blocks
  | Returns videos l' =>
      Returns (archive_members file_exists shared_download_dir videos) l'
  end.

(** What [download_zip] answers. *)
Inductive response : Type :=
| FileResponse (path : string)
| NotFound.

Definition zip_path (task_id : string) : string :=
  "downloads/tasks/" ++ task_id ++ ".zip".

(** [download_zip].  [tasks_storage] maps a task to the value of its key
    [download_dir] ([None] when the key is absent); [path_exists] is
    [os.path.exists] before the call.  An archive that was written exists
    afterwards. *)
Definition download_zip (tasks_storage : gmap string (option string))
           (video_downloads : gmap string (list VideoDownload))
           (path_exists : string → bool) (file_exists : string → string → bool)
           (task_id : string) (l : lock_state) : blocking response :=
  if path_exists (zip_path task_id) then Returns (FileResponse (zip_path task_id)) l
  else
    match
      with_lock l (λ held,
        match tasks_storage !! task_id, video_downloads !! task_id with
        | Some (Some download_dir), Some _ =>
            if truthy download_dir then
              match create_task_zip_file video_downloads file_exists
                                         task_id download_dir held with
              | Returns _ held' => Returns true held'
              | Blocks => Blocks
              end
            else Returns false held
        | _, _ => Returns false held
        end)
    with
    | Returns written l' =>
        if written then Returns (FileResponse (zip_path task_id)) l'
        else Returns NotFound l'
    | Blocks => Blocks
    end.

End Archive.

(* ===================================================================== *)
(** ** [ytscrp.py]: the list of items of a channel                        *)
(* ===================================================================== *)

Module Resolver.
Import PyStr DuplicateIndex Orchestrator.

(** The keys read off an entry of the flat listing, or off the listing
    itself: each is absent or [None] ([None] here), or a text. *)
Record flat_entry : Type := FlatEntry {
  entry_url : option string;
  entry_webpage_url : option string;
  entry_id : option string;
  entry_title : option string;
  entry_fulltitle : option string
}.

(** What [extract_info] returns when it is not falsy: its own keys, and
    the value of ['entries'] when present, a falsy entry being [None]. *)
Record listing : Type := Listing {
  own : flat_entry;
  entries : option (list (option flat_entry))
}.

(** [a or b] for a value [a] that is [None] or a text. *)
Definition or_else (a : option string) (b : string) : string :=
  match a with
  | Some s => if truthy s then s else b
  | None => b
  end.

(** [f"{x}"] for such a value. *)
Definition format (a : option string) : string := default "None" a.

Definition watch_url (e : flat_entry) : string :=
  "https://www.youtube.com/watch?v=" ++ format (entry_id e).

Section Hash.
Variable md5_hexdigest : string → string.

(** The dictionary appended for an entry of a listing; [None] when
    [generate_video_id_hash] raises. *)
Definition listed_item (e : flat_entry) : option video_info :=
  let url := or_else (entry_url e) (or_else (entry_webpage_url e) (watch_url e)) in
  let title := or_else (entry_title e) (or_else (entry_fulltitle e) url) in
  video_id_hash ← generate_video_id_hash md5_hexdigest url;
  Some (mkInfo url title video_id_hash).

(** The loop over [info['entries']]. *)
Fixpoint listed_items (es : list (option flat_entry)) : option (list video_info) :=
  match es with
  | [] => Some []
  | None :: es' => listed_items es'
  | Some e :: es' =>
      item ← listed_item e;
      items ← listed_items es';
      Some (item :: items)
  end.

(** The single video case. *)
Definition single_item (e : flat_entry) : option (list video_info) :=
  let url := or_else (entry_webpage_url e) (or_else (entry_url e) (watch_url e)) in
  let title := or_else (entry_title e) url in
  video_id_hash ← generate_video_id_hash md5_hexdigest url;
  if truthy url then Some [mkInfo url title video_id_hash] else Some [].

(** An item of the list that has an address and a title, whose
    identifier is the one of its address, and whose title is the one the
    task shows (cut at 120 characters). *)
Definition well_formed (i : video_info) : Prop :=
  info_url i ≠ "" ∧ info_title i ≠ "" ∧
  generate_video_id_hash md5_hexdigest (info_url i) = Some (info_video_id_hash i) ∧
  title (new_video i) = take 120 (info_title i).

(** [entries[:max_videos]] *)
Definition slice_to (max_videos : Z) (l : list video_info) : list video_info :=
  if (0 <=? max_videos)%Z then firstn (Z.to_nat max_videos) l
  else firstn (length l - Z.to_nat (- max_videos)) l.

(** [get_video_info_detailed]; [answer] is what [ydl.extract_info] leads
    to.  Every exception ends in the handler, which returns [[]]. *)
Definition get_video_info_detailed (answer : raises (option listing))
           (max_videos : Z) : list video_info :=
  match answer with
  | Raise _ => []
  | Return None => []
  | Return (Some info) =>
      let found :=
        match entries info with
        | Some (e :: es) => listed_items (e :: es)
        | _ => single_item (own info)
        end in
      match found with
      | Some items => slice_to max_videos items
      | None => []
      end
  end.

End Hash.

End Resolver.

(* ===================================================================== *)
(** * Properties                                                          *)
(* ===================================================================== *)

(* --------------------------------------------------------------------- *)
(** ** Proxy rotation                                                     *)
(* --------------------------------------------------------------------- *)

Section ProxyPoolFacts.
Import ProxyPool.

Implicit Types (p q : pool) (x proxy : string).

Lemma advance_valid p : valid_proxies (advance p) = valid_proxies p.
Proof. reflexivity. Qed.

Lemma advance_failed p : failed_proxies (advance p) = failed_proxies p.
Proof. reflexivity. Qed.

Lemma advance_in_range p :
  valid_proxies p ≠ [] →
  current_index (advance p) < length (valid_proxies (advance p)).
Proof.
  intros Hne. cbn. apply Nat.mod_upper_bound.
  destruct (valid_proxies p); [congruence | cbn; lia].
Qed.

Lemma mark_all_valid marks p : valid_proxies (mark_all marks p) = valid_proxies p.
Proof.
  revert p. induction marks as [|m marks IH]; intros p; cbn; [done|].
  unfold mark_all in IH. by rewrite IH.
Qed.

Lemma mark_all_index marks p : current_index (mark_all marks p) = current_index p.
Proof.
  revert p. induction marks as [|m marks IH]; intros p; cbn; [done|].
  unfold mark_all in IH. by rewrite IH.
Qed.

Lemma mark_all_failed marks p x :
  x ∈ failed_proxies (mark_all marks p) ↔ x ∈ marks ∨ x ∈ failed_proxies p.
Proof.
  revert p. induction marks as [|m marks IH]; intros p; cbn.
  - set_solver.
  - unfold mark_all in IH. rewrite IH. cbn. set_solver.
Qed.

(** The loop returns only members of the list. *)
Lemma skip_failed_found k p proxy p' :
  skip_failed k p = Found proxy p' →
  proxy ∈ valid_proxies p ∧ (proxy ∉ failed_proxies p) ∧
  valid_proxies p' = valid_proxies p ∧ failed_proxies p' = failed_proxies p ∧
  current_index p' < length (valid_proxies p).
Proof.
  revert p. induction k as [|k IH]; intros p; cbn; [discriminate|].
  destruct (valid_proxies p !! current_index p) as [y|] eqn:Hy; [|discriminate].
  destruct (decide (y ∈ failed_proxies p)) as [Hin|Hout].
  - intros H. apply IH in H. cbn in H. exact H.
  - intros [= <- <-]. repeat split; try done.
    + eapply list_elem_of_lookup_2; eauto.
    + cbn. apply Nat.mod_upper_bound. apply lookup_lt_Some in Hy. lia.
Qed.

(** With the cursor in range the loop never indexes past the end. *)
Lemma skip_failed_in_range k p :
  current_index p < length (valid_proxies p) →
  ∀ p', skip_failed k p ≠ OutOfRange p'.
Proof.
  revert p. induction k as [|k IH]; intros p Hlt p'; cbn; [discriminate|].
  destruct (lookup_lt_is_Some_2 _ _ Hlt) as [y Hy]. rewrite Hy.
  destruct (decide (y ∈ failed_proxies p)); [|discriminate].
  apply IH. apply advance_in_range. intros E. rewrite E in Hlt. cbn in Hlt. lia.
Qed.

(** When the loop runs dry, nothing but the cursor has moved, and the
    cursor has moved by the number of iterations. *)
Lemma skip_failed_exhausted k p p' :
  current_index p < length (valid_proxies p) →
  skip_failed k p = Exhausted p' →
  valid_proxies p' = valid_proxies p ∧ failed_proxies p' = failed_proxies p ∧
  current_index p' = Nat.modulo (current_index p + k) (length (valid_proxies p)).
Proof.
  revert p. induction k as [|k IH]; intros p Hlt; cbn.
  - intros [= <-]. repeat split; try done.
    rewrite Nat.add_0_r, Nat.mod_small; done.
  - destruct (valid_proxies p !! current_index p) as [y|] eqn:Hy; [|discriminate].
    destruct (decide (y ∈ failed_proxies p)); [|discriminate].
    intros H. apply IH in H.
    + cbn in H. destruct H as (Hv & Hf & Hc). repeat split; try done.
      rewrite Hc. rewrite Nat.Div0.add_mod_idemp_l by lia.
      f_equal. lia.
    + apply advance_in_range. intros E. rewrite E in Hlt. cbn in Hlt. lia.
Qed.

(** When every endpoint is marked, the loop runs dry. *)
Lemma skip_failed_all_failed k p :
  current_index p < length (valid_proxies p) →
  (∀ x, x ∈ valid_proxies p → x ∈ failed_proxies p) →
  ∃ p', skip_failed k p = Exhausted p'.
Proof.
  revert p. induction k as [|k IH]; intros p Hlt Hall; cbn; [eauto|].
  destruct (lookup_lt_is_Some_2 _ _ Hlt) as [y Hy]. rewrite Hy.
  destruct (decide (y ∈ failed_proxies p)) as [Hin|Hout].
  - apply IH; [|exact Hall].
    apply advance_in_range. intros E. rewrite E in Hlt. cbn in Hlt. lia.
  - exfalso. apply Hout, Hall. eapply list_elem_of_lookup_2; eauto.
Qed.

(** With the cursor in range, [get_next_proxy] does not raise, keeps the
    cursor in range and leaves the list alone. *)
Lemma get_next_proxy_in_range p :
  cursor_in_range p →
  ∃ r p', get_next_proxy p = Returned r p' ∧
          valid_proxies p' = valid_proxies p ∧ cursor_in_range p'.
Proof.
  intros Hwf. unfold get_next_proxy.
  destruct (valid_proxies p) as [|v vs] eqn:Hv.
  - exists None, p. split; [done|]. split; [done|]. exact Hwf.
  - assert (Hlt : current_index p < length (valid_proxies p)).
    { apply Hwf. rewrite Hv. discriminate. }
    destruct (skip_failed (length (v :: vs)) p) as [y p'|p'|p'] eqn:Hloop.
    + apply skip_failed_found in Hloop as (_ & _ & Hv' & _ & Hc').
      exists (Some y), p'. split; [done|]. split; [congruence|].
      intros _. by rewrite Hv'.
    + apply skip_failed_exhausted in Hloop as (Hv' & Hf' & Hc'); [|exact Hlt].
      cbn [clear_failed valid_proxies current_index]. rewrite Hv', Hv.
      assert (Hlt' : current_index p' < length (v :: vs)).
      { rewrite Hc', Hv. apply Nat.mod_upper_bound. cbn. lia. }
      destruct (lookup_lt_is_Some_2 _ _ Hlt') as [y Hy]. rewrite Hy.
      eexists _, _. split; [reflexivity|]. cbn. rewrite Hv', Hv.
      split; [done|]. unfold cursor_in_range; cbn. rewrite Hv', Hv.
      intros _. apply Nat.mod_upper_bound. cbn. lia.
    + exfalso. eapply skip_failed_in_range; eauto.
Qed.

Lemma mark_proxy_failed_in_range x p :
  cursor_in_range p → cursor_in_range (mark_proxy_failed x p).
Proof. intros H. exact H. Qed.

Lemma get_random_proxy_effect_in_range p :
  cursor_in_range p → cursor_in_range (get_random_proxy_effect p).
Proof.
  intros H. unfold get_random_proxy_effect.
  destruct (valid_proxies p) eqn:Hv; [exact H|].
  destruct (filter _ _); [|exact H].
  unfold cursor_in_range, clear_failed; cbn. exact H.
Qed.

Lemma exec_all_in_range cs :
  forallb rotator_call cs = true →
  ∀ p, cursor_in_range p →
  Forall (λ o, raised o = false ∧ cursor_in_range (pool_after o)) (exec_all cs p).
Proof.
  induction cs as [|c cs IH]; intros Hcs p Hwf; cbn; [constructor|].
  cbn in Hcs. apply andb_prop in Hcs as [Hc Hcs].
  assert (Hstep : raised (exec c p) = false ∧ cursor_in_range (pool_after (exec c p))).
  { destruct c as [l|x| |]; cbn; try discriminate.
    - split; [done|]. by apply mark_proxy_failed_in_range.
    - destruct (get_next_proxy_in_range p Hwf) as (r & p' & -> & _ & Hwf'). by cbn.
    - split; [done|]. by apply get_random_proxy_effect_in_range. }
  constructor; [exact Hstep|]. apply IH; [exact Hcs | apply Hstep].
Qed.

(** A [ProxyRotator] never leaves the range: its list is assigned once,
    with the cursor at zero, and no later call replaces it. *)
Lemma rotator_cursor_in_range proxies cs :
  forallb rotator_call cs = true →
  Forall (λ o, raised o = false ∧ cursor_in_range (pool_after o))
         (exec_all cs (load_proxies proxies new_pool)).
Proof.
  intros Hcs. apply exec_all_in_range; [exact Hcs|].
  unfold cursor_in_range; cbn. destruct proxies; [congruence | cbn; lia].
Qed.

(** Marking every endpoint and asking for the next one: the loop runs dry
    with the cursor back where it started, the failure set is cleared and
    the endpoint under the cursor is returned. *)
Lemma get_next_proxy_all_failed p :
  current_index p < length (valid_proxies p) →
  (∀ x, x ∈ valid_proxies p → x ∈ failed_proxies p) →
  ∃ proxy, valid_proxies p !! current_index p = Some proxy ∧
           get_next_proxy p = Returned (Some proxy) (advance (clear_failed p)).
Proof.
  intros Hlt Hall. unfold get_next_proxy.
  destruct (valid_proxies p) as [|v vs] eqn:Hv; [cbn in Hlt; lia|].
  rewrite <- Hv in *.
  destruct (skip_failed_all_failed (length (valid_proxies p)) p Hlt Hall) as [p' Hloop].
  rewrite Hloop.
  apply skip_failed_exhausted in Hloop as (Hv' & Hf' & Hc'); [|exact Hlt].
  assert (Hc : current_index p' = current_index p).
  { rewrite Hc'. rewrite <- (Nat.mul_1_l (length (valid_proxies p))) at 1.
    rewrite Nat.Div0.mod_add. by apply Nat.mod_small. }
  assert (Hq : clear_failed p' = clear_failed p).
  { unfold clear_failed. by rewrite Hv', Hc. }
  rewrite Hq. cbn [clear_failed valid_proxies current_index].
  destruct (lookup_lt_is_Some_2 _ _ Hlt) as [y Hy].
  exists y. split; [exact Hy|]. rewrite Hy, Hv. reflexivity.
Qed.

(** With the cursor in range and a non-empty list, the call returns a
    member of the list. *)
Lemma get_next_proxy_member p :
  cursor_in_range p → valid_proxies p ≠ [] →
  ∃ proxy p', get_next_proxy p = Returned (Some proxy) p' ∧ proxy ∈ valid_proxies p.
Proof.
  intros Hwf Hne. pose proof (Hwf Hne) as Hlt. unfold get_next_proxy.
  destruct (valid_proxies p) as [|v vs] eqn:Hv; [congruence|].
  rewrite <- Hv in *.
  destruct (skip_failed (length (valid_proxies p)) p) as [y p'|p'|p'] eqn:Hloop.
  - apply skip_failed_found in Hloop as (Hin & _). eauto.
  - apply skip_failed_exhausted in Hloop as (Hv' & Hf' & Hc'); [|exact Hlt].
    cbn [clear_failed valid_proxies current_index]. rewrite Hv'.
    assert (Hlt' : current_index p' < length (valid_proxies p)).
    { rewrite Hc'. apply Nat.mod_upper_bound. lia. }
    destruct (lookup_lt_is_Some_2 _ _ Hlt') as [y Hy]. rewrite Hy, Hv.
    eexists _, _. split; [reflexivity|]. rewrite <- Hv.
    eapply list_elem_of_lookup_2; eauto.
  - exfalso. eapply skip_failed_in_range; eauto.
Qed.

(** With the cursor inside the list, a pool all of whose endpoints have
    been marked failed heals itself: the next [get_next_proxy] clears the
    failure set and returns the endpoint under the cursor. *)
Lemma self_heals_in_range (p : pool) (marks : list string) :
  valid_proxies p ≠ [] →
  cursor_in_range p →
  (∀ x, x ∈ valid_proxies p → x ∈ marks) →
  ∃ proxy p',
    get_next_proxy (mark_all marks p) = Returned (Some proxy) p' ∧
    valid_proxies p !! current_index p = Some proxy ∧
    proxy ∈ valid_proxies p ∧
    failed_proxies p' = ∅ ∧
    valid_proxies p' = valid_proxies p.
Proof.
  intros Hne Hwf Hmarks. pose proof (Hwf Hne) as Hlt.
  destruct (get_next_proxy_all_failed (mark_all marks p)) as (y & Hy & Hget).
  - by rewrite mark_all_valid, mark_all_index.
  - intros x Hx. rewrite mark_all_valid in Hx. apply mark_all_failed. auto.
  - rewrite mark_all_valid, mark_all_index in Hy.
    exists y, (advance (clear_failed (mark_all marks p))).
    split; [exact Hget|]. split; [exact Hy|].
    split; [eapply list_elem_of_lookup_2; eauto|].
    split; [reflexivity|]. cbn. apply mark_all_valid.
Qed.

(** C3 does not hold of the code.  A [SOCKS5ProxyFetcher] starts with
    three endpoints and hands out two of them; a refresh then brings a
    single endpoint and leaves the cursor at 2.  Once [mark_proxy_failed]
    has been called on that endpoint, every endpoint of the pool is marked
    failed; the next [get_next_proxy] does not clear the failure set and
    return an endpoint: the first iteration of its loop indexes a list of
    length 1 at 2 and raises, the pool left as it was.  With the cursor
    inside the list (every state of a [ProxyRotator]) the pool heals
    itself as the claim says. *)
Theorem C3_all_failed_pool_raises_after_refresh :
  let outcomes :=
    exec_all [FetchFresh ["a"; "b"; "c"]; GetNext; GetNext;
              FetchFresh ["x"]; MarkFailed "x"; GetNext] new_pool in
  map raised outcomes = [false; false; false; false; false; true] ∧
  last outcomes = Some (IndexError (mark_all ["x"] (Pool ["x"] ∅ 2))) ∧
  (∀ (p : pool) (marks : list string),
     valid_proxies p ≠ [] → cursor_in_range p →
     (∀ x, x ∈ valid_proxies p → x ∈ marks) →
     ∃ proxy p',
       get_next_proxy (mark_all marks p) = Returned (Some proxy) p' ∧
       valid_proxies p !! current_index p = Some proxy ∧
       proxy ∈ valid_proxies p ∧
       failed_proxies p' = ∅ ∧
       valid_proxies p' = valid_proxies p).
Proof.
  cbn zeta. split; [|split].
  - vm_compute. reflexivity.
  - cbn [exec_all exec pool_after]. unfold fetch_fresh_proxies.
    cbn [new_pool current_index]. reflexivity.
  - intros p marks. apply self_heals_in_range.
Qed.

(** With the cursor inside the list, [get_next_proxy] returns [None]
    exactly when the list is empty, a member of the list otherwise, and it
    always returns. *)
Lemma none_iff_empty_in_range (p : pool) :
  cursor_in_range p →
  ((∃ p', get_next_proxy p = Returned None p') ↔ valid_proxies p = []) ∧
  (valid_proxies p ≠ [] →
     ∃ proxy p', get_next_proxy p = Returned (Some proxy) p' ∧
                 proxy ∈ valid_proxies p) ∧
  (∃ r p', get_next_proxy p = Returned r p').
Proof.
  intros Hwf. split; [|split].
  - split.
    + intros [p' Hnone]. destruct (valid_proxies p) as [|v vs] eqn:Hv; [done|].
      destruct (get_next_proxy_member p Hwf) as (y & q & Hsome & _).
      { rewrite Hv. discriminate. }
      congruence.
    + intros Hempty. exists p. unfold get_next_proxy. by rewrite Hempty.
  - by apply get_next_proxy_member.
  - destruct (get_next_proxy_in_range p Hwf) as (r & p' & Hget & _). eauto.
Qed.

(** C6 does not hold of the code.  In the state a [SOCKS5ProxyFetcher]
    reaches by handing out two of three endpoints and then refreshing to a
    single one, the rotation list is not empty, yet [get_next_proxy]
    returns neither [None] nor a member of the list: it raises
    [IndexError], the refresh having left the cursor past the end.  The
    call never waits: on every pool it returns or raises.  With the cursor
    inside the list (every state of a [ProxyRotator]) it returns [None]
    exactly for the empty list and a member of the list otherwise. *)
Theorem C6_nonempty_pool_raises_after_refresh :
  let p := ProxyCalls.pool_after_all [FetchFresh ["a"; "b"; "c"]; GetNext; GetNext;
                           FetchFresh ["x"]] new_pool in
  valid_proxies p = ["x"] ∧
  get_next_proxy p = IndexError p ∧
  (∀ q : pool,
     cursor_in_range q →
     ((∃ q', get_next_proxy q = Returned None q') ↔ valid_proxies q = []) ∧
     (valid_proxies q ≠ [] →
        ∃ proxy q', get_next_proxy q = Returned (Some proxy) q' ∧
                    proxy ∈ valid_proxies q) ∧
     (∃ r q', get_next_proxy q = Returned r q')).
Proof.
  cbn zeta. split; [|split].
  - reflexivity.
  - vm_compute. reflexivity.
  - apply none_iff_empty_in_range.
Qed.

(** C9. [mark_proxy_failed] is idempotent: marking an endpoint a second
    time leaves the pool exactly as the first call left it, and the
    endpoint is in the failure set afterwards. *)
Theorem C9_mark_proxy_failed_idempotent (p : pool) (proxy : string) :
  mark_proxy_failed proxy (mark_proxy_failed proxy p) = mark_proxy_failed proxy p ∧
  proxy ∈ failed_proxies (mark_proxy_failed proxy p).
Proof.
  split.
  - unfold mark_proxy_failed; cbn. f_equal. set_solver.
  - cbn. set_solver.
Qed.

(** C10 does not hold of the code.  A [SOCKS5ProxyFetcher] starts with
    three endpoints and hands out two of them; a refresh then brings a
    single endpoint.  [fetch_fresh_proxies] leaves the cursor at 2, and the
    next [get_next_proxy] indexes a list of length 1 at 2: it raises, with
    the pool left as the refresh made it. *)
Theorem C10_refresh_to_shorter_list_raises :
  let outcomes :=
    exec_all [FetchFresh ["a"; "b"; "c"]; GetNext; GetNext;
              FetchFresh ["x"]; GetNext] new_pool in
  map raised outcomes = [false; false; false; false; true] ∧
  last outcomes = Some (IndexError (Pool ["x"] ∅ 2)).
Proof. vm_compute. split; reflexivity. Qed.

End ProxyPoolFacts.

(* --------------------------------------------------------------------- *)
(** ** Duplicate lookup and content identifiers                           *)
(* --------------------------------------------------------------------- *)

Section DuplicateIndexFacts.
Import PyStr Glob DuplicateIndex.

(** The token sets of the similarity example share two of four words. *)
Lemma random_vid_overlap :
  size (word_set "Some Random Vid" ∩ word_set "Some Random Video") = 2 ∧
  size (word_set "Some Random Vid" ∪ word_set "Some Random Video") = 4.
Proof. split; vm_compute; reflexivity. Qed.

(** C4, as the specification states it, fails: the lookup for
    ["Some Random Vid"] finds nothing. *)
Lemma C4_similarity_counterexample :
  check_existing_file random_video_dir "Some Random Vid" "unknown-id" false = None.
Proof. vm_compute. reflexivity. Qed.

(** C4 (amended). In a directory holding only ["Some Random Video.webm"],
    the lookup for ["Some Random Vid"] returns no match: its token set
    shares 2 of 4 words with the file's, and 2/4 does not exceed 0.7.  A
    title with the file's own words, ["Some Random Video"], is returned by
    the similarity fallback (no pattern matches it), and
    ["Completely Unrelated"] returns no match. *)
Theorem C4_similarity_fallback :
  check_existing_file random_video_dir "Some Random Vid" "unknown-id" false = None ∧
  similar (word_set "Some Random Vid") (word_set "Some Random Video") = false ∧
  first_match [Entry "Some Random Video.webm" true]
    (flat_map (patterns (sanitize_filename "Some Random Video") "unknown-id")
              (possible_extensions false)) = None ∧
  check_existing_file random_video_dir "Some Random Video" "unknown-id" false
    = Some "Some Random Video.webm" ∧
  check_existing_file random_video_dir "Completely Unrelated" "unknown-id" false = None.
Proof. repeat split; vm_compute; reflexivity. Qed.

(** C5. In a directory holding ["Song Title_abc123def456.mp3"], the lookup
    for title ["Song Title"] and identifier ["abc123def456"] returns that
    name with [audio_only] set, by the first pattern (title, identifier and
    an audio extension), and no match with [audio_only] unset. *)
Theorem C5_exact_match_by_media_type :
  check_existing_file song_dir "Song Title" "abc123def456" true
    = Some "Song Title_abc123def456.mp3" ∧
  glob [Entry "Song Title_abc123def456.mp3" true]
       (sanitize_filename "Song Title" ++ "_" ++ "abc123def456" ++ ".mp3")
    = ["Song Title_abc123def456.mp3"] ∧
  check_existing_file song_dir "Song Title" "abc123def456" false = None.
Proof. repeat split; vm_compute; reflexivity. Qed.

End DuplicateIndexFacts.

Section ContentIdentifierFacts.
Import PyStr DuplicateIndex.

Lemma append_cons (c : ascii) (s t : string) : String c s ++ t = String c (s ++ t).
Proof. reflexivity. Qed.

Lemma append_empty_l (s : string) : "" ++ s = s.
Proof. reflexivity. Qed.

Lemma append_empty_r (s : string) : s ++ "" = s.
Proof.
  induction s as [|c s IH]; [done|]. rewrite append_cons. by rewrite IH.
Qed.

Lemma append_assoc' (a b c : string) : (a ++ b) ++ c = a ++ (b ++ c).
Proof.
  induction a as [|x a IH]; [done|]. rewrite !append_cons. by rewrite IH.
Qed.

Lemma str_app (l1 l2 : list ascii) : str (l1 ++ l2)%list = str l1 ++ str l2.
Proof.
  induction l1 as [|x l1 IH]; [done|]. cbn [app str string_of_list_ascii].
  rewrite append_cons. f_equal. exact IH.
Qed.

Lemma str_rev_cons (c : ascii) (cur : list ascii) (s : string) :
  str (rev (c :: cur)) ++ s = str (rev cur) ++ String c s.
Proof. cbn [rev]. rewrite str_app, append_assoc'. reflexivity. Qed.

Lemma prefix_empty (s : string) : String.prefix "" s = true.
Proof. by destruct s. Qed.

Lemma lacks_eqb (c x : ascii) (s : string) :
  lacks c (String x s) = true → x ≠ c ∧ lacks c s = true.
Proof.
  simpl. intros H. apply andb_prop in H as [Hx Hs]. split; [|done].
  intros ->. by rewrite Ascii.eqb_refl in Hx.
Qed.

(** A separator holding a character that [s] lacks does not start [s]. *)
Lemma prefix_lacks (c : ascii) (sep s : string) :
  lacks c s = true → lacks c sep = false → String.prefix sep s = false.
Proof.
  revert s. induction sep as [|a sep IH]; intros s Hs Hsep; [discriminate|].
  destruct s as [|b s]; [done|]. simpl.
  destruct (ascii_dec a b) as [->|]; [|done].
  apply lacks_eqb in Hs as [Hb Hs]. apply IH; [done|].
  simpl in Hsep. destruct (Ascii.eqb_spec b c); [done|]. exact Hsep.
Qed.

(** Nor does it start a text made of such an [s], a character [d] foreign
    to the separator, and anything else. *)
Lemma prefix_blocked (c d : ascii) (sep t rest : string) :
  lacks c t = true → lacks c sep = false → lacks d sep = true →
  String.prefix sep (t ++ String d rest) = false.
Proof.
  revert t. induction sep as [|a sep IH]; intros t Ht Hc Hd; [discriminate|].
  apply lacks_eqb in Hd as [Had Hd].
  destruct t as [|b t]; rewrite ?append_empty_l, ?append_cons; simpl.
  - destruct (ascii_dec a d); [done|reflexivity].
  - destruct (ascii_dec a b) as [->|]; [|done].
    apply lacks_eqb in Ht as [Hb Ht]. apply IH; [done| |done].
    simpl in Hc. destruct (Ascii.eqb_spec b c); [done|]. exact Hc.
Qed.

(** Passing over the rest of a separator. *)
Lemma split_from_skip (sep x s : string) (cur : list ascii) :
  split_from sep (String.length x) cur (x ++ s) = split_from sep 0 cur s.
Proof.
  induction x as [|c x IH]; [done|]. rewrite append_cons. simpl. exact IH.
Qed.

(** The first piece starts with what has been read so far. *)
Lemma split_from_head (sep s : string) (cur : list ascii) :
  ∃ tl, split_from sep 0 cur s !! 0 = Some (str (rev cur) ++ tl).
Proof.
  revert cur. induction s as [|c s IH]; intros cur; cbn [split_from].
  - exists "". by rewrite append_empty_r.
  - destruct (String.prefix sep (String c s)).
    + exists "". by rewrite append_empty_r.
    + destruct (IH (c :: cur)) as [tl Htl]. exists (String c tl).
      rewrite Htl. f_equal. apply str_rev_cons.
Qed.

(** No separator in sight: one piece. *)
Lemma split_from_none (c : ascii) (sep s : string) (cur : list ascii) :
  lacks c s = true → lacks c sep = false →
  split_from sep 0 cur s = [str (rev cur) ++ s].
Proof.
  intros Hs Hsep. revert cur Hs. induction s as [|x s IH]; intros cur Hs.
  - simpl. by rewrite append_empty_r.
  - cbn [split_from]. rewrite (prefix_lacks c) by done.
    apply lacks_eqb in Hs as [_ Hs]. rewrite IH by done.
    f_equal. apply str_rev_cons.
Qed.

(** The first piece runs at least up to a foreign character [d] that
    follows a text without [c]. *)
Lemma split_from_head_blocked (c d : ascii) (sep id rest : string) (cur : list ascii) :
  lacks c sep = false → lacks d sep = true → lacks c id = true →
  ∃ tl, split_from sep 0 cur (id ++ String d rest) !! 0
        = Some (str (rev cur) ++ id ++ String d tl).
Proof.
  intros Hc Hd. revert cur. induction id as [|x id IH]; intros cur Hid.
  - rewrite append_empty_l. cbn [split_from].
    pose proof (prefix_blocked c d sep "" rest eq_refl Hc Hd) as Hp.
    rewrite append_empty_l in Hp. rewrite Hp.
    destruct (split_from_head sep rest (d :: cur)) as [tl Htl]. exists tl.
    rewrite Htl. f_equal. apply str_rev_cons.
  - rewrite append_cons. cbn [split_from]. rewrite <- append_cons.
    rewrite (prefix_blocked c d sep (String x id) rest) by done.
    apply lacks_eqb in Hid as [_ Hid].
    destruct (IH (x :: cur) Hid) as [tl Htl]. exists tl.
    rewrite Htl, append_cons. f_equal. apply str_rev_cons.
Qed.

(** Cutting at a single character [d]: the first piece is the text before
    the first [d]. *)
Lemma split_from_head_char (d : ascii) (id rest : string) (cur : list ascii) :
  lacks d id = true →
  split_from (String d "") 0 cur (id ++ String d rest) !! 0
  = Some (str (rev cur) ++ id).
Proof.
  revert cur. induction id as [|x id IH]; intros cur Hid.
  - rewrite append_empty_l. cbn [split_from String.prefix].
    destruct (ascii_dec d d); [|done]. rewrite prefix_empty.
    by rewrite append_empty_r.
  - apply lacks_eqb in Hid as [Hx Hid]. rewrite append_cons.
    cbn [split_from String.prefix].
    destruct (ascii_dec d x) as [->|]; [done|].
    rewrite IH by done. f_equal. apply str_rev_cons.
Qed.

Lemma contains_lacks (c : ascii) (sep s : string) :
  lacks c s = true → lacks c sep = false → contains sep s = false.
Proof.
  intros Hs Hsep. induction s as [|x s IH].
  - simpl. destruct sep; [discriminate | reflexivity].
  - cbn [contains]. rewrite (prefix_lacks c) by done.
    apply lacks_eqb in Hs as [_ Hs]. by apply IH.
Qed.

(** Reading the literal head of a URL character by character. *)
Ltac read_literal :=
  rewrite ?append_cons, ?append_empty_l;
  cbn [contains split split_from String.prefix String.length Nat.sub orb
       ascii_dec Ascii.ascii_rec Ascii.ascii_rect Bool.bool_dec
       bool_rec bool_rect sumbool_rec sumbool_rect
       eq_rec_r eq_rec eq_rect eq_sym f_equal rev app str string_of_list_ascii];
  rewrite ?prefix_empty; cbn [orb].

Lemma lookup_second {A} (x : A) (l : list A) : (x :: l) !! 1 = l !! 0.
Proof. reflexivity. Qed.

Lemma lookup_first {A} (x : A) (l : list A) : (x :: l) !! 0 = Some x.
Proof. reflexivity. Qed.

Ltac bind_some :=
  rewrite ?lookup_second, ?lookup_first;
  cbn [mbind option_bind rev str string_of_list_ascii];
  rewrite ?append_empty_l.

Lemma video_id_watch_params (id params : string) :
  plain_id id →
  video_id_of ("https://www.youtube.com/watch?v=" ++ id ++ "&" ++ params)
  = Some (Some id).
Proof.
  intros (Hne & Hamp & Hq & Hsl). unfold video_id_of. read_literal.
  destruct (split_from_head_blocked "?" "&" "watch?v=" id params [])
    as [tl Htl]; [done..|].
  rewrite lookup_second, Htl. bind_some.
  unfold split. rewrite split_from_head_char by done. bind_some. reflexivity.
Qed.

Lemma video_id_watch (id : string) :
  plain_id id →
  video_id_of ("https://www.youtube.com/watch?v=" ++ id) = Some (Some id).
Proof.
  intros (Hne & Hamp & Hq & Hsl). unfold video_id_of. read_literal.
  rewrite (split_from_none "?") by done. bind_some.
  unfold split. rewrite (split_from_none "&") by done. bind_some. reflexivity.
Qed.

Lemma video_id_short (id : string) :
  plain_id id →
  video_id_of ("https://youtu.be/" ++ id) = Some (Some id).
Proof.
  intros (Hne & Hamp & Hq & Hsl). unfold video_id_of. read_literal.
  rewrite (contains_lacks "?") by done. read_literal.
  rewrite (split_from_none "/") by done. bind_some.
  unfold split. rewrite (split_from_none "?") by done. bind_some. reflexivity.
Qed.

(** Whenever the test on the URL succeeds, the separator occurs, so the
    [split] has a second piece: no branch raises. *)
Lemma split_from_second (sep s : string) (cur : list ascii) :
  sep ≠ "" → contains sep s = true → is_Some (split_from sep 0 cur s !! 1).
Proof.
  intros Hsep. revert cur. induction s as [|c s IH]; intros cur Hc.
  - cbn in Hc. destruct sep; [done | discriminate].
  - cbn [contains] in Hc. cbn [split_from].
    destruct (String.prefix sep (String c s)) eqn:Hp.
    + rewrite lookup_second.
      generalize (String.length sep - 1). intros k. clear.
      revert k. generalize (@nil ascii) as cur.
      induction s as [|x s IH]; intros cur k; [cbn; eauto|].
      destruct k as [|k]; cbn [split_from]; [|apply IH].
      destruct (String.prefix sep (String x s)); [cbn; eauto|].
      destruct (split_from_head sep s (x :: cur)) as [tl ->]. eauto.
    + cbn [orb] in Hc. by apply IH.
Qed.

Lemma split_second (sep s : string) :
  sep ≠ "" → contains sep s = true → is_Some (split sep s !! 1).
Proof. apply split_from_second. Qed.

Lemma split_first (sep s : string) : is_Some (split sep s !! 0).
Proof. destruct (split_from_head sep s []) as [tl H]. unfold split. rewrite H. eauto. Qed.

Lemma contains_here (sep s : string) :
  String.prefix sep s = true → contains sep s = true.
Proof. intros H. destruct s; cbn [contains]; rewrite H; reflexivity. Qed.

Lemma contains_later (sep : string) (c : ascii) (s : string) :
  contains sep s = true → contains sep (String c s) = true.
Proof. intros H. cbn [contains]. rewrite H. apply orb_true_r. Qed.

Lemma prefix_app_contains (a b s : string) :
  String.prefix (a ++ b) s = true → contains b s = true.
Proof.
  revert s. induction a as [|x a IH]; intros s.
  - rewrite append_empty_l. apply contains_here.
  - rewrite append_cons. destruct s as [|y s]; [discriminate|].
    cbn [String.prefix]. destruct (ascii_dec x y); [|discriminate].
    intros H. apply contains_later, IH, H.
Qed.

(** A text that holds [a ++ b] holds [b]. *)
Lemma contains_tail (a b s : string) :
  contains (a ++ b) s = true → contains b s = true.
Proof.
  induction s as [|c s IH]; cbn [contains].
  - apply prefix_app_contains.
  - intros H. apply orb_prop in H as [H|H].
    + by apply prefix_app_contains in H.
    + apply contains_later, IH, H.
Qed.

Lemma video_id_of_total (url : string) : is_Some (video_id_of url).
Proof.
  unfold video_id_of.
  destruct (contains "youtube.com/watch?v=" url) eqn:H1;
    [|destruct (contains "youtu.be/" url) eqn:H2;
      [|destruct (contains "/video/" url) eqn:H3; [|eauto]]].
  - apply (contains_tail "youtube.com/" "watch?v=") in H1.
    destruct (split_second "watch?v=" url ltac:(done) H1) as [seg ->].
    cbn [mbind option_bind].
    destruct (split_first "&" seg) as [first ->]. cbn. eauto.
  - destruct (split_second "youtu.be/" url ltac:(done) H2) as [seg ->].
    cbn [mbind option_bind].
    destruct (split_first "?" seg) as [first ->]. cbn. eauto.
  - destruct (split_second "/video/" url ltac:(done) H3) as [seg ->].
    cbn [mbind option_bind].
    destruct (split_first "/" seg) as [first ->]. cbn. eauto.
Qed.

Lemma generate_of_segment (md5_hexdigest : string → string) (url id : string) :
  video_id_of url = Some (Some id) → id ≠ "" →
  generate_video_id_hash md5_hexdigest url = Some (take 12 (md5_hexdigest id)).
Proof.
  intros Hid Hne. unfold generate_video_id_hash. rewrite Hid.
  cbn [mbind option_bind]. destruct id; [done | reflexivity].
Qed.

(** C8. [generate_video_id_hash] is a function of the reference that
    always returns (no [split] index is out of range).  When one of the
    three branches parses a non-empty segment, the identifier is the first
    12 characters of the MD5 digest of that segment, whatever the rest of
    the URL; otherwise it is the first 12 characters of the digest of the
    whole reference.  In particular a [youtube.com/watch?v=ID] URL, with or
    without further query parameters, and the [youtu.be/ID] URL of the same
    id get the same identifier, for every id free of [&], [?] and [/]. *)
Theorem C8_content_identifier (md5_hexdigest : string → string) :
  let id_hash := generate_video_id_hash md5_hexdigest in
  (∀ url, ∃ h, id_hash url = Some h) ∧
  (∀ url1 url2, url1 = url2 → id_hash url1 = id_hash url2) ∧
  (∀ url id, video_id_of url = Some (Some id) → id ≠ "" →
     id_hash url = Some (take 12 (md5_hexdigest id))) ∧
  (∀ url1 url2 id, video_id_of url1 = Some (Some id) →
     video_id_of url2 = Some (Some id) → id ≠ "" →
     id_hash url1 = id_hash url2) ∧
  (∀ url, video_id_of url = Some None ∨ video_id_of url = Some (Some "") →
     id_hash url = Some (take 12 (md5_hexdigest url))) ∧
  (∀ id params, plain_id id →
     id_hash ("https://www.youtube.com/watch?v=" ++ id ++ "&" ++ params)
       = Some (take 12 (md5_hexdigest id)) ∧
     id_hash ("https://www.youtube.com/watch?v=" ++ id)
       = Some (take 12 (md5_hexdigest id)) ∧
     id_hash ("https://youtu.be/" ++ id)
       = Some (take 12 (md5_hexdigest id))) ∧
  id_hash "https://www.youtube.com/watch?v=dQw4w9WgXcQ&t=10s"
    = id_hash "https://youtu.be/dQw4w9WgXcQ".
Proof.
  intros id_hash. subst id_hash. repeat apply conj.
  - intros url. unfold generate_video_id_hash.
    destruct (video_id_of_total url) as [[id|] ->]; cbn [mbind option_bind].
    + destruct (truthy id); eauto.
    + eauto.
  - by intros url1 url2 ->.
  - apply generate_of_segment.
  - intros url1 url2 id H1 H2 Hne.
    by rewrite (generate_of_segment _ url1 id), (generate_of_segment _ url2 id).
  - intros url [H|H]; unfold generate_video_id_hash; rewrite H; reflexivity.
  - intros id params Hid. pose proof Hid as (Hne & _). repeat split.
    + apply generate_of_segment; [by apply video_id_watch_params | done].
    + apply generate_of_segment; [by apply video_id_watch | done].
    + apply generate_of_segment; [by apply video_id_short | done].
  - vm_compute. reflexivity.
Qed.

End ContentIdentifierFacts.

(* --------------------------------------------------------------------- *)
(** ** Tasks, items and workers                                           *)
(* --------------------------------------------------------------------- *)

Section OrchestratorFacts.
Import PyStr Orchestrator.
Local Open Scope nat_scope.

Implicit Types (cfg : config) (st : state) (v : VideoDownload)
         (vs : list VideoDownload) (pc : worker_pc) (s : item_status).

(** *** Counting *)

Lemma count_status_cons s v vs :
  count_status s (v :: vs)
  = (if bool_decide (status v = s) then 1 else 0) + count_status s vs.
Proof. unfold count_status. cbn. by destruct (bool_decide (status v = s)). Qed.

Lemma count_status_nil s : count_status s [] = 0.
Proof. reflexivity. Qed.

(** The three terminal counts never exceed the number of items. *)
Lemma terminal_counts_le vs :
  count_status Completed vs + count_status Failed vs + count_status Skipped vs
  ≤ length vs.
Proof.
  induction vs as [|v vs IH]; [cbn; lia|].
  rewrite !count_status_cons. cbn [length].
  repeat case_bool_decide; try congruence; lia.
Qed.

(** They add up to it when every item is terminal. *)
Lemma terminal_counts_eq vs :
  Forall (λ v, terminal (status v) = true) vs →
  count_status Completed vs + count_status Failed vs + count_status Skipped vs
  = length vs.
Proof.
  induction 1 as [|v vs Hv _ IH]; [reflexivity|].
  rewrite !count_status_cons. cbn [length].
  repeat case_bool_decide; try congruence; try lia.
  destruct (status v); done.
Qed.

(** Replacing an item moves a count by that item only. *)
Lemma count_status_insert s vs i v v' :
  vs !! i = Some v →
  count_status s (<[i := v']> vs) + (if bool_decide (status v = s) then 1 else 0)
  = count_status s vs + (if bool_decide (status v' = s) then 1 else 0).
Proof.
  revert i. induction vs as [|x vs IH]; intros i Hi; [done|].
  destruct i as [|i]; cbn in Hi.
  - injection Hi as ->. cbn [insert list_insert]. rewrite !count_status_cons. lia.
  - cbn [insert list_insert]. rewrite !count_status_cons.
    rewrite <- !Nat.add_assoc. f_equal. by apply IH.
Qed.

Lemma count_status_insert_other s vs i v v' :
  vs !! i = Some v → status v ≠ s → status v' ≠ s →
  count_status s (<[i := v']> vs) = count_status s vs.
Proof.
  intros Hi Hv Hv'. pose proof (count_status_insert s vs i v v' Hi) as H.
  rewrite !bool_decide_eq_false_2 in H by done. lia.
Qed.

Lemma count_status_insert_same s vs i v v' :
  vs !! i = Some v → status v' = status v →
  count_status s (<[i := v']> vs) = count_status s vs.
Proof.
  intros Hi Hv. pose proof (count_status_insert s vs i v v' Hi) as H.
  rewrite Hv in H. lia.
Qed.

Lemma count_status_new_videos s infos :
  s ≠ Pending → count_status s (map new_video infos) = 0.
Proof.
  intros Hs. induction infos as [|x infos IH]; [reflexivity|].
  cbn [map]. rewrite count_status_cons, IH. cbn.
  rewrite bool_decide_eq_false_2; [done | congruence].
Qed.

(** *** One worker *)

Lemma progress_hook_status downloaded total v :
  status (progress_hook downloaded total v) = status v.
Proof.
  unfold progress_hook.
  destruct (number_truthy downloaded), (number_truthy total); reflexivity.
Qed.

Lemma progress_hook_error downloaded total v :
  error (progress_hook downloaded total v) = error v.
Proof.
  unfold progress_hook.
  destruct (number_truthy downloaded), (number_truthy total); reflexivity.
Qed.

Lemma progress_hook_outcome downloaded total v :
  outcome (progress_hook downloaded total v) = outcome v.
Proof. unfold outcome. by rewrite progress_hook_status, progress_hook_error. Qed.

(** Case analysis of one block, in the order of the source. *)
Ltac block_cases H :=
  unfold worker_block in H;
  repeat match type of H with
         | context [match ?x with _ => _ end] => destruct x eqn:?
         end;
  try discriminate H; injection H as <- <- <-.

(** A worker that has not returned has not failed its item; one that has
    returned left it in a terminal status. *)
Lemma local_reach_status skip info e pc v :
  local_reach skip info e pc v →
  match pc with
  | WStart => status v = Pending
  | WChecking => status v = Checking
  | WDownloading => status v = Downloading
  | WRaised _ => status v ≠ Failed
  | WDone _ => terminal (status v) = true
  end.
Proof.
  induction 1 as [|pc v pc' v' k _ IH Hb|pc v d t _ IH].
  - reflexivity.
  - block_cases Hb; cbn; try done; try (rewrite IH; done).
  - by rewrite progress_hook_status.
Qed.

(** A block that does not reassign [failure_count] leaves the number of
    failed items alone. *)
Lemma worker_block_keeps_failed skip info e pc v pc' v' k :
  worker_block skip info e pc v = Some (pc', v', k) →
  k ≠ SetFailure → status v ≠ Failed → status v' ≠ Failed.
Proof. intros Hb Hk Hv. block_cases Hb; cbn; done. Qed.

(** The worker of an item whose duplicate check is off or misses and
    whose fetch raises [msg]: it reaches the handler from [downloading]
    only, and leaves the item [failed] with [msg]. *)
Lemma local_reach_fetch_raises skip info e msg pc v :
  skip = false ∨ duplicate_check e = Return None →
  fetch e = Raise msg →
  local_reach skip info e pc v →
  match pc with
  | WStart => status v = Pending
  | WChecking => status v = Checking
  | WDownloading => status v = Downloading
  | WRaised m => m = msg ∧ status v = Downloading
  | WDone _ => outcome v = (Failed, msg)
  end.
Proof.
  intros Hmiss Hfetch.
  induction 1 as [|pc v pc' v' k _ IH Hb|pc v d t _ IH].
  - reflexivity.
  - destruct pc; cbn in Hb.
    + by injection Hb as <- <- <-.
    + destruct Hmiss as [->|Hd]; [|rewrite Hd in Hb; destruct skip];
        by injection Hb as <- <- <-.
    + rewrite Hfetch in Hb. by injection Hb as <- <- <-.
    + destruct IH as [-> _]. by injection Hb as <- <- <-.
    + discriminate.
  - destruct pc; rewrite ?progress_hook_status, ?progress_hook_outcome; exact IH.
Qed.

(** The worker of an item whose duplicate check is off or misses and
    whose fetch writes a file: it never reaches the handler and leaves the
    item [completed], with no error text. *)
Lemma local_reach_fetch_succeeds skip info e f size pc v :
  skip = false ∨ duplicate_check e = Return None →
  fetch e = Return (Some f) → truthy f = true → written_size e = Return size →
  local_reach skip info e pc v →
  match pc with
  | WStart => outcome v = (Pending, "")
  | WChecking => outcome v = (Checking, "")
  | WDownloading => outcome v = (Downloading, "")
  | WRaised _ => False
  | WDone _ => outcome v = (Completed, "")
  end.
Proof.
  intros Hmiss Hfetch Hf Hsize.
  induction 1 as [|pc v pc' v' k _ IH Hb|pc v d t _ IH].
  - reflexivity.
  - destruct pc; cbn in Hb.
    + injection Hb as <- <- <-. unfold outcome in *. cbn. congruence.
    + destruct Hmiss as [->|Hd]; [|rewrite Hd in Hb; destruct skip];
        by injection Hb as <- <- <-.
    + rewrite Hfetch, Hf, Hsize in Hb. unfold outcome in *.
      destruct size; injection Hb as <- <- <-; cbn; congruence.
    + done.
    + discriminate.
  - destruct pc; rewrite ?progress_hook_outcome; exact IH.
Qed.

(** The worker of an item whose duplicate check raises [msg], with the
    check enabled: it goes from [checking] to the handler and leaves the
    item [failed] with [msg]; it never marks the item [downloading]. *)
Lemma local_reach_duplicate_check_raises info e msg pc v :
  duplicate_check e = Raise msg →
  local_reach true info e pc v →
  match pc with
  | WStart => status v = Pending
  | WChecking => status v = Checking
  | WDownloading => False
  | WRaised m => m = msg ∧ status v = Checking
  | WDone _ => outcome v = (Failed, msg)
  end.
Proof.
  intros Hdup.
  induction 1 as [|pc v pc' v' k _ IH Hb|pc v d t _ IH].
  - reflexivity.
  - destruct pc; cbn in Hb.
    + by injection Hb as <- <- <-.
    + rewrite Hdup in Hb. by injection Hb as <- <- <-.
    + done.
    + destruct IH as [-> _]. by injection Hb as <- <- <-.
    + discriminate.
  - destruct pc; rewrite ?progress_hook_status, ?progress_hook_outcome; exact IH.
Qed.

(** *** The invariant *)

Local Arguments count_status : simpl never.
Local Arguments count_success : simpl never.
Local Arguments new_video : simpl never.

Lemma pc_of_lookup st i pc : workers st !! i = Some pc → pc_of st i = pc.
Proof. unfold pc_of. by intros ->. Qed.

Lemma pc_of_no_workers st i : workers st = [] → pc_of st i = WStart.
Proof. unfold pc_of. by intros ->. Qed.

Lemma lookup_map {A B} (f : A → B) (l : list A) i :
  map f l !! i = f <$> l !! i.
Proof.
  revert i. induction l as [|x l IH]; intros [|i]; cbn; try done.
Qed.

Lemma lookup_all_start {A} (l : list A) i :
  default WStart (map (λ _, WStart) l !! i) = WStart.
Proof. rewrite lookup_map. by destruct (l !! i). Qed.

Lemma initial_invariant cfg : invariant cfg (initial_state cfg).
Proof.
  split; cbn; try done; auto.
Qed.

Lemma step_invariant cfg a st st' :
  invariant cfg st → step cfg a st = Some st' → invariant cfg st'.
Proof.
  intros [Hl Hv Hw Ho Hc Hx Hf] Hstep.
  destruct st as [t vs ws o]. cbn in *.
  destruct a as [| | | |i|idx d tot| | |msg]; cbn in Hstep.
  - (* AFetching *)
    destruct o; try discriminate. injection Hstep as <-.
    split; cbn; try done.
  - (* AResolve *)
    destruct o; try discriminate. destruct Ho as [-> ->].
    destruct (resolved cfg) as [|info0 infos] eqn:Hres.
    + injection Hstep as <-. split; cbn; try done; auto.
    + injection Hstep as <-. rewrite <- Hres in *. split; cbn [task videos workers orch].
      * intros i info v Hi Hvi. unfold pc_of; cbn.
        change (new_video info0 :: map new_video infos)
          with (map new_video (info0 :: infos)) in Hvi.
        rewrite <- Hres, lookup_map, Hi in Hvi. injection Hvi as <-. constructor.
      * right. rewrite Hres. cbn. by rewrite length_map.
      * by left.
      * rewrite Hres. cbn. by rewrite length_map.
      * cbn. intros Ht. by destruct (Hc Ht).
      * cbn. intros Ht. by destruct (Hx Ht).
      * left. by apply (count_status_new_videos Failed (info0 :: infos)).
  - (* ADownloading *)
    destruct o; try discriminate. injection Hstep as <-.
    split; cbn; try done.
  - (* ASubmit *)
    destruct o; try discriminate. injection Hstep as <-.
    destruct Ho as [-> Hlen]. split; cbn.
    + intros i info v Hi Hvi. unfold pc_of; cbn. rewrite lookup_all_start.
      specialize (Hl i info v Hi Hvi). by rewrite pc_of_no_workers in Hl.
    + done.
    + right. by rewrite length_map.
    + by rewrite length_map.
    + intros Ht. by destruct (Hc Ht).
    + intros Ht. by destruct (Hx Ht).
    + done.
  - (* AWorker *)
    destruct (ws !! i) as [pc|] eqn:Hpc; [|discriminate]. cbn in Hstep.
    destruct (vs !! i) as [v|] eqn:Hvi; [|discriminate]. cbn in Hstep.
    destruct (resolved cfg !! i) as [info|] eqn:Hinfo; [|discriminate]. cbn in Hstep.
    destruct (worker_block (skip_duplicates cfg) info (env cfg i) pc v)
      as [[[pc' v'] k]|] eqn:Hb; [|discriminate].
    cbn in Hstep. injection Hstep as <-.
    pose proof (Hl i info v Hinfo Hvi) as Hreach.
    rewrite (pc_of_lookup _ i pc) in Hreach by done.
    pose proof (lookup_lt_Some _ _ _ Hpc) as Hipc.
    pose proof (lookup_lt_Some _ _ _ Hvi) as Hivs.
    split; cbn.
    + intros j info' w Hj Hw'. unfold pc_of; cbn.
      destruct (decide (i = j)) as [<-|Hne].
      * rewrite list_lookup_insert_eq in Hw' by done. injection Hw' as <-.
        rewrite list_lookup_insert_eq by done. cbn.
        assert (info' = info) as -> by congruence.
        eapply reach_block; eauto.
      * rewrite list_lookup_insert_ne in Hw' by done.
        rewrite list_lookup_insert_ne by done. by apply Hl.
    + rewrite length_insert. destruct Hv as [->|Hv]; [done | by right].
    + rewrite !length_insert. destruct Hw as [->|Hw]; [done | by right].
    + rewrite !length_insert. destruct o; try done;
        destruct Ho as [Ho1 Ho2]; subst; done.
    + destruct k; cbn; intros Ht; destruct (Hc Ht) as (_ & _ & Hdone & _ & _);
        rewrite forallb_forall in Hdone;
        specialize (Hdone pc ltac:(apply list_elem_of_In; eapply list_elem_of_lookup_2; eauto));
        destruct pc; done.
    + destruct k; cbn; exact Hx.
    + assert (Hnf : status v ≠ Failed).
      { apply local_reach_status in Hreach.
        destruct pc; cbn in Hb; try discriminate; first [congruence | done]. }
      destruct k; cbn.
      * rewrite (count_status_insert_other Failed vs i v v'); try done.
        eapply worker_block_keeps_failed; eauto.
      * rewrite (count_status_insert_other Failed vs i v v'); try done.
        eapply worker_block_keeps_failed; eauto.
      * by right.
  - (* AHook *)
    destruct (existsb is_fetching ws); [|discriminate].
    destruct (vs !! idx) as [v|] eqn:Hvi; [|discriminate].
    cbn in Hstep. injection Hstep as <-.
    pose proof (lookup_lt_Some _ _ _ Hvi) as Hivs.
    split; cbn.
    + intros j info' w Hj Hw'. unfold pc_of; cbn.
      destruct (decide (idx = j)) as [<-|Hne].
      * rewrite list_lookup_insert_eq in Hw' by done. injection Hw' as <-.
        apply reach_hook. by apply Hl.
      * rewrite list_lookup_insert_ne in Hw' by done. by apply Hl.
    + rewrite length_insert. destruct Hv as [->|Hv]; [done | by right].
    + rewrite !length_insert. done.
    + rewrite !length_insert. destruct o; try done;
        destruct Ho as [Ho1 Ho2]; subst; done.
    + rewrite length_insert. done.
    + done.
    + rewrite (count_status_insert_same Failed vs idx v); try done.
      apply progress_hook_status.
  - (* ASnapshot *)
    injection Hstep as <-. split; cbn; try done. by right.
  - (* AFinish *)
    destruct o; try discriminate.
    destruct (forallb is_done ws) eqn:Hdone; [|discriminate].
    injection Hstep as <-. destruct Ho as [Ho1 Ho2].
    split; cbn; try done.
    intros _. repeat split; try done; congruence.
  - (* ARaise *)
    destruct o; try discriminate; injection Hstep as <-;
      split; cbn; try done.
Qed.

Lemma run_invariant cfg acts st st' :
  invariant cfg st → run cfg acts st = Some st' → invariant cfg st'.
Proof.
  revert st. induction acts as [|a acts IH]; intros st Hinv Hrun; cbn in Hrun.
  - by injection Hrun as <-.
  - destruct (step cfg a st) as [st1|] eqn:Hstep; [|discriminate].
    cbn in Hrun. eapply IH; [|exact Hrun]. eapply step_invariant; eauto.
Qed.

Lemma reachable_invariant cfg st : reachable cfg st → invariant cfg st.
Proof. intros [acts Hrun]. eapply run_invariant; [apply initial_invariant | eauto]. Qed.

(** Once every worker has returned, every item is terminal. *)
Lemma wave_finished_terminal cfg st :
  invariant cfg st → wave_finished st →
  Forall (λ v, terminal (status v) = true) (videos st).
Proof.
  intros [Hl Hv _ _ _ _ _] [Hlen Hdone]. apply Forall_lookup. intros i v Hvi.
  pose proof (lookup_lt_Some _ _ _ Hvi) as Hi.
  destruct Hv as [Hv|Hv]; [rewrite Hv in Hvi; done|].
  destruct (lookup_lt_is_Some_2 (resolved cfg) i) as [info Hinfo]; [lia|].
  destruct (lookup_lt_is_Some_2 (workers st) i) as [pc Hpc]; [lia|].
  specialize (Hl i info v Hinfo Hvi). rewrite (pc_of_lookup _ _ pc) in Hl by done.
  apply local_reach_status in Hl.
  rewrite forallb_forall in Hdone.
  specialize (Hdone pc ltac:(apply list_elem_of_In; eapply list_elem_of_lookup_2; eauto)).
  destruct pc; done.
Qed.

Lemma count_success_split vs :
  count_success vs = count_status Completed vs + count_status Skipped vs.
Proof.
  induction vs as [|v vs IH]; [reflexivity|].
  rewrite !count_status_cons. unfold count_success in *. cbn [List.filter].
  repeat case_bool_decide; cbn; try congruence; lia.
Qed.

(** C1. In every state a task can reach, and so in every snapshot taken of
    it, the items with status [completed], [failed] and [skipped] number at
    most the items of the task; the counters a snapshot publishes are these
    numbers; and once the task is [completed], or [failed] with its worker
    wave finished, they add up to the number of items.  A [completed] task
    has its wave finished, and its [total_videos] is the number of items. *)
Theorem C1_terminal_counts_bounded_by_total cfg st :
  reachable cfg st →
  let vs := videos st in
  let done := count_status Completed vs + count_status Failed vs
              + count_status Skipped vs in
  done ≤ length vs ∧
  (let t := send_video_progress_update vs (task st) in
   success_count t = Some (count_status Completed vs + count_status Skipped vs) ∧
   failure_count t = Some (count_status Failed vs) ∧
   skipped_count t = Some (count_status Skipped vs)) ∧
  (task_status (task st) = TaskCompleted →
   wave_finished st ∧ done = length vs ∧
   total_videos (task st) = Z.of_nat (length vs)) ∧
  (task_status (task st) = TaskFailed → wave_finished st → done = length vs).
Proof.
  intros Hreach vs done. apply reachable_invariant in Hreach as Hinv.
  split; [apply terminal_counts_le|]. split.
  { cbn. by rewrite count_success_split. }
  split.
  - intros Ht. destruct (inv_completed _ _ Hinv Ht) as (_ & Hlen & Hdone & Htot & _).
    assert (Hwave : wave_finished st) by done.
    split; [done|]. split; [|done].
    apply terminal_counts_eq. by eapply wave_finished_terminal.
  - intros _ Hwave. apply terminal_counts_eq. by eapply wave_finished_terminal.
Qed.

(** A [failed] task shows the requested number of items in
    [total_videos], whatever the number of items resolved. *)
Lemma failed_task_total_videos cfg st :
  reachable cfg st → task_status (task st) = TaskFailed →
  total_videos (task st) = max_videos cfg.
Proof.
  intros Hreach Ht. apply reachable_invariant in Hreach.
  by destruct (inv_failed _ _ Hreach Ht).
Qed.

(** A task of three items, ten requested, whose archive cannot be written
    after the wave: it is [failed], its three items are terminal, and its
    [total_videos] is back at ten. *)
Example failed_after_the_wave :
  let st := final_state (second_fetch_fails "HTTP Error 403") archive_fails in
  task_status (task st) = TaskFailed ∧
  map outcome (videos st)
    = [(Completed, ""); (Failed, "HTTP Error 403"); (Completed, "")] ∧
  forallb is_done (workers st) = true ∧
  total_videos (task st) = 10%Z.
Proof. vm_compute. repeat split; reflexivity. Qed.

Lemma C1_terminal_counts_bounded_by_total_witness :
  let st := final_state (second_fetch_fails "HTTP Error 403") interleaved in
  let vs := videos st in
  let done := count_status Completed vs + count_status Failed vs
              + count_status Skipped vs in
  done ≤ length vs ∧
  (let t := send_video_progress_update vs (task st) in
   success_count t = Some (count_status Completed vs + count_status Skipped vs) ∧
   failure_count t = Some (count_status Failed vs) ∧
   skipped_count t = Some (count_status Skipped vs)) ∧
  (task_status (task st) = TaskCompleted →
   wave_finished st ∧ done = length vs ∧
   total_videos (task st) = Z.of_nat (length vs)) ∧
  (task_status (task st) = TaskFailed → wave_finished st → done = length vs).
Proof.
  apply (C1_terminal_counts_bounded_by_total (second_fetch_fails "HTTP Error 403")).
  exists interleaved. vm_compute. reflexivity.
Defined.

(** *** A task that no exception interrupts *)

Lemma step_ends_completed cfg a st st' :
  resolved cfg ≠ [] → is_raise a = false →
  (orch st = OEnd → task_status (task st) = TaskCompleted) →
  step cfg a st = Some st' →
  orch st' = OEnd → task_status (task st') = TaskCompleted.
Proof.
  intros Hres Ha HQ Hstep. destruct st as [t vs ws o]. cbn in *.
  destruct a as [| | | |i|idx d tot| | |msg]; cbn in Hstep; try discriminate.
  - destruct o; try discriminate. by injection Hstep as <-.
  - destruct o; try discriminate. destruct (resolved cfg); [done|].
    by injection Hstep as <-.
  - destruct o; try discriminate. by injection Hstep as <-.
  - destruct o; try discriminate. by injection Hstep as <-.
  - destruct (ws !! i); [|discriminate]. cbn in Hstep.
    destruct (vs !! i); [|discriminate]. cbn in Hstep.
    destruct (resolved cfg !! i); [|discriminate]. cbn in Hstep.
    destruct (worker_block _ _ _ _ _) as [[[pc' v'] k]|]; [|discriminate].
    cbn in Hstep. injection Hstep as <-. cbn. intros Ho.
    specialize (HQ Ho). by destruct k.
  - destruct (existsb is_fetching ws); [|discriminate].
    destruct (vs !! idx); [|discriminate]. cbn in Hstep.
    by injection Hstep as <-.
  - by injection Hstep as <-.
  - destruct o; try discriminate. destruct (forallb is_done ws); [|discriminate].
    by injection Hstep as <-.
Qed.

Lemma run_ends_completed cfg acts st st' :
  resolved cfg ≠ [] → forallb (λ a, negb (is_raise a)) acts = true →
  (orch st = OEnd → task_status (task st) = TaskCompleted) →
  run cfg acts st = Some st' →
  orch st' = OEnd → task_status (task st') = TaskCompleted.
Proof.
  intros Hres. revert st. induction acts as [|a acts IH]; intros st Ha HQ Hrun.
  - cbn in Hrun. by injection Hrun as <-.
  - cbn in Ha. apply andb_prop in Ha as [Ha Hacts]. cbn in Hrun.
    destruct (step cfg a st) as [st1|] eqn:Hstep; [|discriminate]. cbn in Hrun.
    apply (IH st1); [done| |done].
    eapply step_ends_completed; eauto. by destruct (is_raise a).
Qed.

(** The items of a finished wave, one by one. *)
Lemma finished_item cfg st i v :
  invariant cfg st → wave_finished st → videos st !! i = Some v →
  ∃ info b, resolved cfg !! i = Some info ∧
            local_reach (skip_duplicates cfg) info (env cfg i) (WDone b) v.
Proof.
  intros [Hl Hv _ _ _ _ _] [Hlen Hdone] Hvi.
  pose proof (lookup_lt_Some _ _ _ Hvi) as Hi.
  destruct Hv as [Hv|Hv]; [rewrite Hv in Hvi; done|].
  destruct (lookup_lt_is_Some_2 (resolved cfg) i) as [info Hinfo]; [lia|].
  destruct (lookup_lt_is_Some_2 (workers st) i) as [pc Hpc]; [lia|].
  specialize (Hl i info v Hinfo Hvi). rewrite (pc_of_lookup _ _ pc) in Hl by done.
  rewrite forallb_forall in Hdone.
  specialize (Hdone pc ltac:(apply list_elem_of_In; eapply list_elem_of_lookup_2; eauto)).
  destruct pc; try done. eauto.
Qed.

(** Three resolved items, none on disk, the fetch of the second raising
    [msg] and the other two writing their files: what the task shows when
    [process_download_enhanced] is over, no other exception having
    interrupted it. *)
Lemma one_failed_item_outcome cfg msg acts st :
  length (resolved cfg) = 3 →
  fetch (env cfg 1) = Raise msg →
  fetch_succeeds cfg 0 → fetch_succeeds cfg 2 →
  (∀ i, i < 3 → duplicate_miss cfg i) →
  forallb (λ a, negb (is_raise a)) acts = true →
  run cfg acts (initial_state cfg) = Some st →
  orch st = OEnd →
  map outcome (videos st) = [(Completed, ""); (Failed, msg); (Completed, "")] ∧
  task_status (task st) = TaskCompleted ∧
  failure_count (task st) = Some 1.
Proof.
  intros Hlen Hf1 (f0 & z0 & Hf0 & Ht0 & Hz0) (f2 & z2 & Hf2 & Ht2 & Hz2)
         Hmiss Hacts Hrun Hend.
  assert (Hres : resolved cfg ≠ []) by (intros E; by rewrite E in Hlen).
  assert (Hinv : invariant cfg st)
    by (eapply run_invariant; [apply initial_invariant | exact Hrun]).
  assert (Hdone : task_status (task st) = TaskCompleted).
  { eapply run_ends_completed; eauto. cbn. discriminate. }
  destruct (inv_completed _ _ Hinv Hdone) as (_ & Hlw & Hall & _ & Hlv).
  assert (Hwave : wave_finished st) by done.
  rewrite Hlen in Hlv.
  destruct (videos st) as [|v0 [|v1 [|v2 [|]]]] eqn:Hvs; try discriminate.
  destruct (finished_item cfg st 0 v0 Hinv Hwave) as (i0 & b0 & _ & H0);
    [by rewrite Hvs|].
  destruct (finished_item cfg st 1 v1 Hinv Hwave) as (i1 & b1 & _ & H1);
    [by rewrite Hvs|].
  destruct (finished_item cfg st 2 v2 Hinv Hwave) as (i2 & b2 & _ & H2);
    [by rewrite Hvs|].
  apply (local_reach_fetch_succeeds _ _ _ f0 z0) in H0; [|apply Hmiss; lia|done..].
  apply (local_reach_fetch_raises _ _ _ msg) in H1; [|apply Hmiss; lia|done].
  apply (local_reach_fetch_succeeds _ _ _ f2 z2) in H2; [|apply Hmiss; lia|done..].
  split; [cbn; congruence|]. split; [done|].
  assert (Hcount : count_status Failed [v0; v1; v2] = 1).
  { unfold outcome in *. rewrite !count_status_cons, count_status_nil.
    injection H0 as -> _. injection H1 as -> _. injection H2 as -> _.
    reflexivity. }
  destruct (inv_failure_count _ _ Hinv) as [Hz|Hfc]; rewrite Hvs, Hcount in *;
    [discriminate | exact Hfc].
Qed.

(** A worker that has not returned has a next block to run. *)
Lemma worker_block_enabled skip info e pc v :
  is_done pc = false → is_Some (worker_block skip info e pc v).
Proof.
  intros Hpc. destruct pc; try discriminate; cbn; eauto.
  - destruct skip; eauto. destruct (duplicate_check e) as [[f|]|]; eauto.
    destruct (truthy f); eauto. destruct (existing_size e); eauto.
  - destruct (fetch e) as [[f|]|]; eauto.
    destruct (truthy f); eauto. destruct (written_size e) as [[z|]|]; eauto.
Qed.

(** C7, as the specification states it, fails: with duplicate checking on
    and a check that raises, the item of a one-item task goes from
    [checking] to [failed], carrying the message of the error, and is never
    [downloading]. *)
Lemma C7_duplicate_check_error_counterexample :
  observe (duplicate_check_fails "Permission denied") single_item
          (initial_state (duplicate_check_fails "Permission denied"))
  = [ []; [(Pending, "")]; [(Pending, "")]; [(Pending, "")];
      [(Checking, "")]; [(Checking, "")];
      [(Failed, "Permission denied")]; [(Failed, "Permission denied")] ].
Proof. vm_compute. reflexivity. Qed.

(** C7 (amended). For every item of a task with duplicate checking on, if
    the duplicate check raises an error, the error takes the same path as
    any other exception of the worker: the item is never marked
    [downloading] (nor [completed] or [skipped]), its worker always has a
    next block to run until it returns, and once it has returned the item
    is [failed] with the message of the error as its error text. *)
Theorem C7_duplicate_check_error_fails_the_item cfg msg i st v :
  skip_duplicates cfg = true →
  duplicate_check (env cfg i) = Raise msg →
  reachable cfg st →
  videos st !! i = Some v →
  (status v = Pending ∨ status v = Checking ∨ outcome v = (Failed, msg)) ∧
  (is_done (pc_of st i) = true → outcome v = (Failed, msg)) ∧
  (is_done (pc_of st i) = false →
   ∃ info, resolved cfg !! i = Some info ∧
           is_Some (worker_block (skip_duplicates cfg) info (env cfg i)
                                 (pc_of st i) v)).
Proof.
  intros Hskip Hdup Hreach Hvi. apply reachable_invariant in Hreach as Hinv.
  pose proof (lookup_lt_Some _ _ _ Hvi) as Hi.
  destruct (inv_videos _ _ Hinv) as [Hv|Hv]; [rewrite Hv in Hvi; done|].
  destruct (lookup_lt_is_Some_2 (resolved cfg) i) as [info Hinfo]; [lia|].
  pose proof (inv_local _ _ Hinv i info v Hinfo Hvi) as Hl.
  rewrite Hskip in Hl.
  apply (local_reach_duplicate_check_raises _ _ msg) in Hl; [|done].
  split; [|split].
  - destruct (pc_of st i); intuition.
  - destruct (pc_of st i); try discriminate. done.
  - intros Hnd. exists info. split; [done|]. by apply worker_block_enabled.
Qed.

Lemma C7_duplicate_check_error_fails_the_item_witness :
  let cfg := duplicate_check_fails "Permission denied" in
  let st := final_state cfg single_item in
  let v := mkVideo "https://www.youtube.com/watch?v=aaaaaaaaaaa" "First" Failed
                   0 0 "" "Permission denied" "d57f21e6a273" "" in
  (status v = Pending ∨ status v = Checking
   ∨ outcome v = (Failed, "Permission denied")) ∧
  (is_done (pc_of st 0) = true → outcome v = (Failed, "Permission denied")) ∧
  (is_done (pc_of st 0) = false →
   ∃ info, resolved cfg !! 0 = Some info ∧
           is_Some (worker_block (skip_duplicates cfg) info (env cfg 0)
                                 (pc_of st 0) v)).
Proof.
  apply (C7_duplicate_check_error_fails_the_item
           (duplicate_check_fails "Permission denied") "Permission denied" 0).
  - reflexivity.
  - reflexivity.
  - exists single_item. vm_compute. reflexivity.
  - vm_compute. reflexivity.
Defined.

End OrchestratorFacts.

(* --------------------------------------------------------------------- *)
(** ** Proxy rotation: order, safety and the other calls                  *)
(* --------------------------------------------------------------------- *)

Section ProxyCallsFacts.
Import ProxyPool ProxyCalls.
Local Open Scope nat_scope.

Implicit Types (p q : pool) (x proxy : string) (l : list string).

Lemma length_rotation p :
  current_index p ≤ length (valid_proxies p) →
  length (rotation p) = length (valid_proxies p).
Proof.
  intros H. unfold rotation. rewrite length_app, length_drop, length_take. lia.
Qed.

(** Reading the rotation at [j] is reading the list at the cursor moved
    on by [j], wrapping round. *)
Lemma lookup_rotation p j :
  current_index p < length (valid_proxies p) →
  j < length (valid_proxies p) →
  rotation p !! j
  = valid_proxies p !! Nat.modulo (current_index p + j) (length (valid_proxies p)).
Proof.
  intros Hc Hj. unfold rotation.
  set (l := valid_proxies p) in *. set (c := current_index p) in *.
  destruct (decide (c + j < length l)) as [Hlt|Hge].
  - rewrite lookup_app_l by (rewrite length_drop; lia).
    rewrite lookup_drop. by rewrite Nat.mod_small.
  - rewrite lookup_app_r by (rewrite length_drop; lia).
    rewrite length_drop, lookup_take_lt by lia.
    assert (Hm : Nat.modulo (c + j) (length l) = c + j - length l).
    { transitivity (Nat.modulo ((c + j - length l) + 1 * length l) (length l));
        [f_equal; lia|].
      rewrite Nat.Div0.mod_add. apply Nat.mod_small. lia. }
    rewrite Hm. f_equal. lia.
Qed.

(** The loop passes over failed endpoints and stops at the first one that
    is not, [j] places after the cursor. *)
Lemma skip_failed_at_offset j : ∀ k p x,
  current_index p < length (valid_proxies p) →
  j < k →
  valid_proxies p !! Nat.modulo (current_index p + j) (length (valid_proxies p))
    = Some x →
  x ∉ failed_proxies p →
  (∀ i y, i < j →
     valid_proxies p !! Nat.modulo (current_index p + i) (length (valid_proxies p))
       = Some y → y ∈ failed_proxies p) →
  skip_failed k p
  = Found x (Pool (valid_proxies p) (failed_proxies p)
                  (Nat.modulo (current_index p + j + 1) (length (valid_proxies p)))).
Proof.
  induction j as [|j IH]; intros k p x Hc Hk Hx Hnf Hskip.
  - destruct k as [|k]; [lia|]. cbn [skip_failed].
    rewrite Nat.add_0_r, Nat.mod_small in Hx by done. rewrite Hx.
    rewrite decide_False by done. unfold advance. by rewrite Nat.add_0_r.
  - destruct k as [|k]; [lia|]. cbn [skip_failed].
    destruct (lookup_lt_is_Some_2 _ _ Hc) as [y Hy]. rewrite Hy.
    assert (Hyf : y ∈ failed_proxies p).
    { apply (Hskip 0); [lia|]. by rewrite Nat.add_0_r, Nat.mod_small. }
    rewrite decide_True by done.
    assert (Hn : length (valid_proxies p) ≠ 0) by lia.
    rewrite (IH k (advance p) x); cbn [advance valid_proxies failed_proxies current_index].
    + f_equal. f_equal. rewrite <- Nat.add_assoc, Nat.Div0.add_mod_idemp_l.
      f_equal. lia.
    + by apply Nat.mod_upper_bound.
    + lia.
    + rewrite Nat.Div0.add_mod_idemp_l. rewrite <- Hx. f_equal. f_equal. lia.
    + done.
    + intros i z Hi Hz. apply (Hskip (S i)); [lia|].
      rewrite Nat.Div0.add_mod_idemp_l in Hz. rewrite <- Hz. f_equal. f_equal. lia.
Qed.

(** With the cursor at or past the end of a non-empty list, the first
    iteration of the loop indexes past the end. *)
Lemma get_next_proxy_past_end p :
  valid_proxies p ≠ [] → length (valid_proxies p) ≤ current_index p →
  get_next_proxy p = IndexError p.
Proof.
  intros Hne Hge. unfold get_next_proxy.
  destruct (valid_proxies p) as [|v vs] eqn:Hv; [done|].
  rewrite <- Hv in Hge. cbn [length skip_failed].
  rewrite (lookup_ge_None_2 (valid_proxies p)); [done|].
  rewrite Hv in *. cbn [length] in *. lia.
Qed.

(** X1. What [get_next_proxy] does when the endpoint [j] places after the
    cursor (in list order, wrapping round) is not marked failed and all
    the ones before it are.  With the cursor inside the list, as in every
    state of a [ProxyRotator], that endpoint is returned, the failure set
    is left alone and the cursor moves to the place after it.  With the
    cursor at or past the end, as in a [SOCKS5ProxyFetcher] after a refresh
    to a shorter list, the call raises [IndexError] and leaves the pool
    untouched. *)
Theorem X1_next_proxy_skips_failed (p : pool) (j : nat) (x : string) :
  rotation p !! j = Some x →
  x ∉ failed_proxies p →
  (∀ i y, i < j → rotation p !! i = Some y → y ∈ failed_proxies p) →
  (current_index p < length (valid_proxies p) →
   get_next_proxy p
   = Returned (Some x)
       (Pool (valid_proxies p) (failed_proxies p)
             (Nat.modulo (current_index p + j + 1) (length (valid_proxies p))))) ∧
  (length (valid_proxies p) ≤ current_index p →
   get_next_proxy p = IndexError p).
Proof.
  intros Hx Hnf Hskip. split.
  - intros Hc.
    assert (Hj : j < length (valid_proxies p)).
    { apply lookup_lt_Some in Hx. rewrite length_rotation in Hx; lia. }
    unfold get_next_proxy.
    destruct (valid_proxies p) as [|v vs] eqn:Hv; [cbn in Hc; lia|].
    rewrite <- Hv in *.
    rewrite (skip_failed_at_offset j _ p x); try done.
    + by rewrite <- lookup_rotation.
    + intros i y Hi Hy. apply (Hskip i); [done|].
      rewrite lookup_rotation; [done..|lia].
  - intros Hge. apply get_next_proxy_past_end; [|done].
    intros Hnil. unfold rotation in Hx. rewrite Hnil in Hx.
    by rewrite drop_nil, take_nil in Hx.
Qed.

Lemma X1_next_proxy_skips_failed_witness :
  (current_index (Pool ["a"; "b"; "c"] {["c"; "a"]} 2) < 3 →
   get_next_proxy (Pool ["a"; "b"; "c"] {["c"; "a"]} 2)
   = Returned (Some "b") (Pool ["a"; "b"; "c"] {["c"; "a"]} 2)) ∧
  (3 ≤ current_index (Pool ["a"; "b"; "c"] {["c"; "a"]} 2) →
   get_next_proxy (Pool ["a"; "b"; "c"] {["c"; "a"]} 2)
   = IndexError (Pool ["a"; "b"; "c"] {["c"; "a"]} 2)).
Proof.
  refine (X1_next_proxy_skips_failed (Pool ["a"; "b"; "c"] {["c"; "a"]} 2) 2 "b"
            _ _ _).
  - reflexivity.
  - vm_compute. set_solver.
  - intros i y Hi Hy. destruct i as [|[|i]]; [| |lia];
      vm_compute in Hy; injection Hy as <-; set_solver.
Defined.

(** With the endpoint under the cursor not failed, it is returned and the
    cursor moves on by one. *)
Lemma get_next_proxy_healthy p x :
  valid_proxies p !! current_index p = Some x → x ∉ failed_proxies p →
  get_next_proxy p = Returned (Some x) (advance p).
Proof.
  intros Hx Hnf. pose proof (lookup_lt_Some _ _ _ Hx) as Hc.
  unfold get_next_proxy.
  destruct (valid_proxies p) as [|v vs] eqn:Hv; [cbn in Hc; lia|].
  rewrite <- Hv in Hx. cbn [length skip_failed]. rewrite Hx.
  by rewrite decide_False.
Qed.

Lemma length_exec_all cs p : length (exec_all cs p) = length cs.
Proof.
  revert p. induction cs as [|c cs IH]; intros p; cbn; [done | by rewrite IH].
Qed.

(** Calls in a row on a pool without failed endpoints. *)
Lemma exec_all_healthy k : ∀ p i,
  current_index p < length (valid_proxies p) →
  (∀ x, x ∈ valid_proxies p → x ∉ failed_proxies p) →
  i < k →
  exec_all (replicate k GetNext) p !! i
  = Some (Returned
            (valid_proxies p
               !! Nat.modulo (current_index p + i) (length (valid_proxies p)))
            (Pool (valid_proxies p) (failed_proxies p)
                  (Nat.modulo (current_index p + i + 1) (length (valid_proxies p))))).
Proof.
  induction k as [|k IH]; intros p i Hc Hok Hi; [lia|].
  destruct (lookup_lt_is_Some_2 _ _ Hc) as [x Hx].
  assert (Hnf : x ∉ failed_proxies p)
    by (apply Hok; eapply list_elem_of_lookup_2; eauto).
  cbn [replicate exec_all exec]. rewrite (get_next_proxy_healthy p x) by done.
  destruct i as [|i]; cbn [lookup list_lookup pool_after].
  - rewrite Nat.add_0_r, Nat.mod_small, Hx by done. reflexivity.
  - change (exec_all (replicate k GetNext) (advance p) !! i = Some
      (Returned
         (valid_proxies p
            !! Nat.modulo (current_index p + S i) (length (valid_proxies p)))
         (Pool (valid_proxies p) (failed_proxies p)
               (Nat.modulo (current_index p + S i + 1) (length (valid_proxies p)))))).
    rewrite IH; cbn [advance valid_proxies failed_proxies current_index].
    + rewrite <- Nat.add_assoc, !Nat.Div0.add_mod_idemp_l.
      replace (current_index p + 1 + i) with (current_index p + S i) by lia.
      replace (current_index p + 1 + (i + 1)) with (current_index p + S i + 1) by lia.
      reflexivity.
    + apply Nat.mod_upper_bound. lia.
    + done.
    + lia.
Qed.

Lemma pool_after_all_healthy k : ∀ p,
  current_index p < length (valid_proxies p) →
  (∀ x, x ∈ valid_proxies p → x ∉ failed_proxies p) →
  pool_after_all (replicate k GetNext) p
  = Pool (valid_proxies p) (failed_proxies p)
         (Nat.modulo (current_index p + k) (length (valid_proxies p))).
Proof.
  induction k as [|k IH]; intros p Hc Hok.
  - cbn. rewrite Nat.add_0_r, Nat.mod_small by done. by destruct p.
  - destruct (lookup_lt_is_Some_2 _ _ Hc) as [x Hx].
    assert (Hnf : x ∉ failed_proxies p)
      by (apply Hok; eapply list_elem_of_lookup_2; eauto).
    cbn [replicate pool_after_all exec].
    rewrite (get_next_proxy_healthy p x) by done. cbn [pool_after].
    rewrite IH; cbn [advance valid_proxies failed_proxies current_index].
    + rewrite Nat.Div0.add_mod_idemp_l.
      replace (current_index p + 1 + k) with (current_index p + S k) by lia.
      reflexivity.
    + apply Nat.mod_upper_bound. lia.
    + done.
Qed.

(** Calls in a row with the cursor past the end: each raises and leaves
    the pool as it is. *)
Lemma exec_all_past_end k : ∀ p i,
  valid_proxies p ≠ [] → length (valid_proxies p) ≤ current_index p →
  i < k → exec_all (replicate k GetNext) p !! i = Some (IndexError p).
Proof.
  induction k as [|k IH]; intros p i Hne Hge Hi; [lia|].
  cbn [replicate exec_all exec]. rewrite get_next_proxy_past_end by done.
  destruct i as [|i]; [done|]. cbn [pool_after].
  change ((IndexError p :: exec_all (replicate k GetNext) p) !! S i)
    with (exec_all (replicate k GetNext) p !! i).
  apply IH; [done..|lia].
Qed.

(** X2. Calls in a row on a pool none of whose endpoints is marked failed.
    With the cursor inside the list, as in every state of a
    [ProxyRotator], they are a round robin: the [i]-th call returns the
    endpoint [i] places after the cursor, wrapping round; as many calls as
    there are endpoints hand out the whole list once, in list order from
    the cursor, and leave the pool exactly as it was.  With the cursor at
    or past the end of a non-empty list, as in a [SOCKS5ProxyFetcher] after
    a refresh to a shorter list, every call raises [IndexError] and leaves
    the pool untouched. *)
Theorem X2_round_robin_order (p : pool) :
  (∀ x, x ∈ valid_proxies p → x ∉ failed_proxies p) →
  (current_index p < length (valid_proxies p) →
   (∀ k i, i < k →
      exec_all (replicate k GetNext) p !! i
      = Some (Returned
                (valid_proxies p
                   !! Nat.modulo (current_index p + i) (length (valid_proxies p)))
                (Pool (valid_proxies p) (failed_proxies p)
                      (Nat.modulo (current_index p + i + 1)
                                  (length (valid_proxies p)))))) ∧
   map returned (exec_all (replicate (length (valid_proxies p)) GetNext) p)
     = map (λ x, Some (Some x)) (rotation p) ∧
   pool_after_all (replicate (length (valid_proxies p)) GetNext) p = p) ∧
  (valid_proxies p ≠ [] → length (valid_proxies p) ≤ current_index p →
   ∀ k i, i < k → exec_all (replicate k GetNext) p !! i = Some (IndexError p)).
Proof.
  intros Hok. split.
  - intros Hc. split; [|split].
    + intros k i Hi. by apply exec_all_healthy.
    + apply list_eq. intros i. rewrite !lookup_map.
      destruct (decide (i < length (valid_proxies p))) as [Hi|Hi].
      * rewrite (exec_all_healthy _ p i) by done. cbn.
        rewrite lookup_rotation by done.
        destruct (lookup_lt_is_Some_2 (valid_proxies p)
                    (Nat.modulo (current_index p + i) (length (valid_proxies p))))
          as [x ->]; [apply Nat.mod_upper_bound; lia | reflexivity].
      * rewrite !lookup_ge_None_2; [done| |].
        -- rewrite length_rotation; lia.
        -- rewrite length_exec_all, length_replicate. lia.
    + rewrite pool_after_all_healthy by done.
      rewrite <- (Nat.mul_1_l (length (valid_proxies p))) at 1.
      rewrite Nat.Div0.mod_add, Nat.mod_small by done. by destruct p.
  - intros Hne Hge k i Hi. by apply exec_all_past_end.
Qed.

Lemma X2_round_robin_order_witness :
  let p := Pool ["a"; "b"; "c"] ∅ 1 in
  (current_index p < length (valid_proxies p) →
   (∀ k i, i < k →
      exec_all (replicate k GetNext) p !! i
      = Some (Returned
                (valid_proxies p
                   !! Nat.modulo (current_index p + i) (length (valid_proxies p)))
                (Pool (valid_proxies p) (failed_proxies p)
                      (Nat.modulo (current_index p + i + 1)
                                  (length (valid_proxies p)))))) ∧
   map returned (exec_all (replicate (length (valid_proxies p)) GetNext) p)
     = map (λ x, Some (Some x)) (rotation p) ∧
   pool_after_all (replicate (length (valid_proxies p)) GetNext) p = p) ∧
  (valid_proxies p ≠ [] → length (valid_proxies p) ≤ current_index p →
   ∀ k i, i < k → exec_all (replicate k GetNext) p !! i = Some (IndexError p)).
Proof.
  refine (X2_round_robin_order (Pool ["a"; "b"; "c"] ∅ 1) _).
  intros x _. set_solver.
Defined.

Lemma get_random_proxy_effect_valid p :
  valid_proxies (get_random_proxy_effect p) = valid_proxies p ∧
  current_index (get_random_proxy_effect p) = current_index p.
Proof.
  unfold get_random_proxy_effect. destruct (valid_proxies p) eqn:Hv; [by rewrite Hv|].
  destruct (filter _ _); cbn; by rewrite ?Hv.
Qed.

(** One call of a rotator on a pool whose cursor is in range. *)
Lemma exec_rotator_call c p :
  rotator_call c = true → cursor_in_range p →
  raised (exec c p) = false ∧
  valid_proxies (pool_after (exec c p)) = valid_proxies p ∧
  cursor_in_range (pool_after (exec c p)).
Proof.
  intros Hc Hwf. destruct c as [l|x| |]; cbn in *; try discriminate.
  - done.
  - destruct (get_next_proxy_in_range p Hwf) as (r & p' & -> & Hv & Hwf'). done.
  - destruct (get_random_proxy_effect_valid p) as [Hv Hi].
    split; [done|]. split; [done|].
    unfold cursor_in_range. by rewrite Hv, Hi.
Qed.

Lemma exec_all_rotator_calls cs : ∀ p,
  forallb rotator_call cs = true → cursor_in_range p →
  Forall (λ o, raised o = false ∧
               valid_proxies (pool_after o) = valid_proxies p ∧
               cursor_in_range (pool_after o))
         (exec_all cs p).
Proof.
  induction cs as [|c cs IH]; intros p Hcs Hwf; cbn; [constructor|].
  cbn in Hcs. apply andb_prop in Hcs as [Hc Hcs].
  destruct (exec_rotator_call c p Hc Hwf) as (Hr & Hv & Hwf').
  constructor; [done|].
  eapply Forall_impl; [apply (IH _ Hcs Hwf')|].
  intros o (Ho1 & Ho2 & Ho3). split; [done|]. split; [congruence | done].
Qed.

Lemma init_proxy_rotator_in_range lines : cursor_in_range (init_proxy_rotator lines).
Proof.
  unfold cursor_in_range. destruct lines as [ls|]; cbn; [|done].
  destruct (read_proxy_lines ls); [done | cbn; lia].
Qed.

(** X3. A [ProxyRotator] is safe: whatever file it was loaded from and
    whatever sequence of [mark_proxy_failed], [get_next_proxy] and
    [get_random_proxy] calls follows, no call raises, the list of endpoints
    stays the one loaded, and the cursor stays inside it. *)
Theorem X3_rotator_never_raises (lines : option (list string)) (cs : list call) :
  forallb rotator_call cs = true →
  Forall (λ o, raised o = false ∧
               valid_proxies (pool_after o)
                 = valid_proxies (init_proxy_rotator lines) ∧
               cursor_in_range (pool_after o))
         (exec_all cs (init_proxy_rotator lines)).
Proof.
  intros Hcs. apply exec_all_rotator_calls; [done|].
  apply init_proxy_rotator_in_range.
Qed.

Lemma X3_rotator_never_raises_witness :
  Forall (λ o, raised o = false ∧
               valid_proxies (pool_after o)
                 = valid_proxies (init_proxy_rotator (Some ["1.2.3.4:80"; ""; " 5.6.7.8:81 "])) ∧
               cursor_in_range (pool_after o))
         (exec_all [GetNext; MarkFailed "1.2.3.4:80"; GetNext; GetRandom; GetNext]
                   (init_proxy_rotator (Some ["1.2.3.4:80"; ""; " 5.6.7.8:81 "]))).
Proof.
  apply (X3_rotator_never_raises (Some ["1.2.3.4:80"; ""; " 5.6.7.8:81 "])
           [GetNext; MarkFailed "1.2.3.4:80"; GetNext; GetRandom; GetNext]).
  reflexivity.
Defined.

(** A call other than a refresh leaves an out-of-range cursor and its
    list as they are. *)
Lemma exec_out_of_range c p :
  rotator_call c = true →
  valid_proxies p ≠ [] → length (valid_proxies p) ≤ current_index p →
  valid_proxies (pool_after (exec c p)) = valid_proxies p ∧
  current_index (pool_after (exec c p)) = current_index p ∧
  (c = GetNext → exec c p = IndexError p).
Proof.
  intros Hc Hne Hge. destruct c as [l|x| |]; cbn in *; try discriminate.
  - done.
  - assert (Hget : get_next_proxy p = IndexError p).
    { unfold get_next_proxy. destruct (valid_proxies p) as [|v vs] eqn:Hv; [done|].
      rewrite <- Hv in Hge. cbn [length skip_failed].
      rewrite (lookup_ge_None_2 (valid_proxies p)); [done|].
      rewrite Hv in *. cbn [length] in *. lia. }
    rewrite Hget. done.
  - destruct (get_random_proxy_effect_valid p) as [Hv Hi]. done.
Qed.

(** X4. [get_next_proxy] raises [IndexError] exactly when the list is not
    empty and the cursor is at or past its end, and then it leaves the pool
    untouched.  Such a pool does not heal by itself: after any calls other
    than a refresh every [get_next_proxy] still raises; a refresh that
    brings a list longer than the cursor makes the call return again. *)
Theorem X4_index_error_exactly_when_cursor_past_end (p : pool) :
  (∀ p', get_next_proxy p = IndexError p' ↔
         p' = p ∧ valid_proxies p ≠ [] ∧
         length (valid_proxies p) ≤ current_index p) ∧
  (valid_proxies p ≠ [] → length (valid_proxies p) ≤ current_index p →
   ∀ cs i, forallb rotator_call cs = true → cs !! i = Some GetNext →
           ∃ q, exec_all cs p !! i = Some (IndexError q)) ∧
  (∀ proxy_list, current_index p < length proxy_list →
                 raised (get_next_proxy (fetch_fresh_proxies proxy_list p)) = false).
Proof.
  split; [|split].
  - intros p'. split.
    + intros Hget.
      destruct (decide (valid_proxies p = [])) as [He|Hne].
      { unfold get_next_proxy in Hget. by rewrite He in Hget. }
      destruct (decide (current_index p < length (valid_proxies p))) as [Hlt|Hge].
      { destruct (get_next_proxy_in_range p) as (r & q & Hq & _);
          [by intros _ | congruence]. }
      destruct (exec_out_of_range GetNext p) as (_ & _ & Hraise); [done..|lia|].
      cbn in Hraise. rewrite Hraise in Hget by done. injection Hget as <-.
      split; [done|]. split; [done | lia].
    + intros (-> & Hne & Hge).
      destruct (exec_out_of_range GetNext p) as (_ & _ & Hraise); [done..|].
      by apply Hraise.
  - intros Hne Hge cs. revert p Hne Hge.
    induction cs as [|c cs IH]; intros p Hne Hge i Hcs Hi; [done|].
    cbn in Hcs. apply andb_prop in Hcs as [Hc Hcs].
    destruct (exec_out_of_range c p Hc Hne Hge) as (Hv & Hx & Hraise).
    destruct i as [|i]; cbn in *.
    + injection Hi as ->. exists p. by rewrite Hraise.
    + apply IH; try done; congruence.
  - intros l Hlt.
    destruct (get_next_proxy_in_range (fetch_fresh_proxies l p)) as (r & q & -> & _);
      [by intros _ | done].
Qed.

(** X5. [get_random_proxy], for a generator that answers a length with a
    number below it: on an empty list it returns [None]; otherwise it
    returns an endpoint of the list, one that is not marked failed as long
    as such an endpoint exists (and then the pool is untouched); when every
    endpoint is marked failed it clears the failure set and draws from the
    whole list.  It never moves the cursor or changes the list. *)
Theorem X5_random_proxy_avoids_failed (randbelow : nat → nat) (p : pool) :
  (∀ n, 0 < n → randbelow n < n) →
  (valid_proxies p = [] → get_random_proxy randbelow p = Returned None p) ∧
  (valid_proxies p ≠ [] →
   ∃ x q, get_random_proxy randbelow p = Returned (Some x) q ∧
          x ∈ valid_proxies p ∧
          valid_proxies q = valid_proxies p ∧
          current_index q = current_index p ∧
          q = get_random_proxy_effect p ∧
          (available p ≠ [] → (x ∉ failed_proxies p) ∧ q = p) ∧
          (available p = [] → q = clear_failed p)).
Proof.
  intros Hrand. split.
  - intros He. unfold get_random_proxy. by rewrite He.
  - intros Hne. unfold get_random_proxy, get_random_proxy_effect.
    destruct (valid_proxies p) as [|v vs] eqn:Hv; [done|].
    unfold available. rewrite Hv.
    destruct (filter (λ x, x ∉ failed_proxies p) (v :: vs)) as [|a av] eqn:Hav.
    + destruct (lookup_lt_is_Some_2 (v :: vs) (randbelow (length (v :: vs))))
        as [x Hx]; [apply Hrand; cbn; lia|].
      rewrite Hx. exists x, (clear_failed p).
      split; [done|]. split; [eapply list_elem_of_lookup_2; eauto|].
      cbn. rewrite Hv. done.
    + destruct (lookup_lt_is_Some_2 (a :: av) (randbelow (length (a :: av))))
        as [x Hx]; [apply Hrand; cbn; lia|].
      rewrite Hx. exists x, p.
      assert (Hin : x ∈ filter (λ x, x ∉ failed_proxies p) (v :: vs)).
      { rewrite Hav. eapply list_elem_of_lookup_2; eauto. }
      apply list_elem_of_filter in Hin as [Hnf Hin].
      split; [done|]. split; [done|]. rewrite Hv. done.
Qed.

Lemma X5_random_proxy_avoids_failed_witness :
  let p := Pool ["a"; "b"; "c"] {["a"]} 2 in
  (valid_proxies p = [] → get_random_proxy (λ _, 0) p = Returned None p) ∧
  (valid_proxies p ≠ [] →
   ∃ x q, get_random_proxy (λ _, 0) p = Returned (Some x) q ∧
          x ∈ valid_proxies p ∧
          valid_proxies q = valid_proxies p ∧
          current_index q = current_index p ∧
          q = get_random_proxy_effect p ∧
          (available p ≠ [] → (x ∉ failed_proxies p) ∧ q = p) ∧
          (available p = [] → q = clear_failed p)).
Proof.
  apply (X5_random_proxy_avoids_failed (λ _, 0) (Pool ["a"; "b"; "c"] {["a"]} 2)).
  intros n Hn. exact Hn.
Defined.

(** X6. The [available_proxies] number of [get_stats] is the length of
    the list minus the size of the failure set.  For a list without
    repeated endpoints that is the number of endpoints not marked failed,
    less one for every failure mark on a string that is not in the list:
    the count is exact when only endpoints of the list were marked, and too
    low (possibly negative) otherwise. *)
Theorem X6_stats_available_count (p : pool) :
  NoDup (valid_proxies p) →
  available_proxies (get_stats p)
  = (Z.of_nat (length (available p))
     - Z.of_nat (size (failed_proxies p ∖ list_to_set (valid_proxies p))))%Z ∧
  ((∀ x, x ∈ failed_proxies p → x ∈ valid_proxies p) →
   available_proxies (get_stats p) = Z.of_nat (length (available p))).
Proof.
  intros Hnd. set (l := valid_proxies p). set (F := failed_proxies p).
  assert (Hlen : length l
                 = length (filter (λ x, x ∈ F) l) + length (available p)).
  { rewrite <- length_app. unfold available. fold l F.
    apply Permutation_length. symmetry. apply (filter_app_complement (λ x, x ∈ F)). }
  assert (Hin : size (F ∩ list_to_set l) = length (filter (λ x, x ∈ F) l)).
  { rewrite <- (size_list_to_set (C := gset string)) by (by apply NoDup_filter).
    f_equal. apply set_eq. intros x.
    rewrite elem_of_intersection, !elem_of_list_to_set, list_elem_of_filter. done. }
  assert (HF : size F = size (F ∩ list_to_set l) + size (F ∖ list_to_set l)).
  { rewrite <- size_union by set_solver. f_equal. apply set_eq. intros x.
    rewrite elem_of_union, elem_of_intersection, elem_of_difference.
    destruct (decide (x ∈ (list_to_set l : gset string))); naive_solver. }
  assert (Hmain : available_proxies (get_stats p)
    = (Z.of_nat (length (available p)) - Z.of_nat (size (F ∖ list_to_set l)))%Z).
  { cbn. fold l F. lia. }
  split; [exact Hmain|].
  intros Hsub. rewrite Hmain.
  assert (HE : F ∖ list_to_set l = (∅ : gset string)).
  { apply set_eq. intros x. rewrite elem_of_difference, elem_of_list_to_set.
    split; [intros [H1 H2]; by apply Hsub in H1 | set_solver]. }
  rewrite HE, size_empty. lia.
Qed.

Lemma X6_stats_available_count_witness :
  let p := Pool ["a"; "b"; "c"] {["a"; "zzz"]} 0 in
  available_proxies (get_stats p)
  = (Z.of_nat (length (available p))
     - Z.of_nat (size (failed_proxies p ∖ list_to_set (valid_proxies p))))%Z ∧
  ((∀ x, x ∈ failed_proxies p → x ∈ valid_proxies p) →
   available_proxies (get_stats p) = Z.of_nat (length (available p))).
Proof.
  apply (X6_stats_available_count (Pool ["a"; "b"; "c"] {["a"; "zzz"]} 0)).
  simpl. repeat constructor; set_solver.
Defined.

End ProxyCallsFacts.

(* --------------------------------------------------------------------- *)
(** ** File names                                                         *)
(* --------------------------------------------------------------------- *)

Section FileNameFacts.
Import PyStr PyStrShapes Glob DuplicateIndex.
Local Open Scope nat_scope.
Local Open Scope list_scope.

Implicit Types (l m : list ascii) (c : ascii) (f : ascii → bool).

Lemma chars_str l : chars (str l) = l.
Proof. apply list_ascii_of_string_of_list_ascii. Qed.

Lemma str_chars (s : string) : str (chars s) = s.
Proof. apply string_of_list_ascii_of_string. Qed.

Lemma length_chars (s : string) : length (chars s) = String.length s.
Proof. unfold chars. induction s as [|c s IH]; cbn; [done | by rewrite IH]. Qed.

Lemma drop_while_starts_clean f l : starts_clean f (drop_while f l).
Proof.
  induction l as [|c l IH]; cbn; [done|]. destruct (f c) eqn:Hc; [done|]. exact Hc.
Qed.

Lemma drop_while_clean f l : starts_clean f l → drop_while f l = l.
Proof. destruct l as [|c l]; cbn; [done|]. by intros ->. Qed.

Lemma drop_while_app_keep f l c m :
  f c = false → drop_while f (l ++ c :: m) = drop_while f l ++ c :: m.
Proof.
  intros Hc. induction l as [|x l IH]; cbn; [by rewrite Hc|].
  destruct (f x); [exact IH | reflexivity].
Qed.

Lemma drop_while_incl f l x : x ∈ drop_while f l → x ∈ l.
Proof.
  induction l as [|c l IH]; cbn; [done|].
  destruct (f c); [|done]. intros H. right. by apply IH.
Qed.

Lemma length_drop_while f l : length (drop_while f l) ≤ length l.
Proof.
  induction l as [|c l IH]; cbn; [done|]. destruct (f c); cbn; lia.
Qed.

Lemma strip_chars (s : string) : chars (strip s) = stripped_chars (chars s).
Proof. unfold strip. apply chars_str. Qed.

Lemma strip_chars_str l : chars (strip (str l)) = stripped_chars l.
Proof. by rewrite strip_chars, chars_str. Qed.

Lemma stripped_chars_clean l :
  starts_clean is_space (stripped_chars l) ∧
  starts_clean is_space (rev (stripped_chars l)).
Proof.
  unfold stripped_chars. split.
  - pose proof (drop_while_starts_clean is_space l) as Hm.
    destruct (drop_while is_space l) as [|c m]; [done|]. cbn in Hm.
    cbn [rev]. rewrite drop_while_app_keep by done.
    rewrite rev_app_distr. cbn. exact Hm.
  - rewrite rev_involutive. apply drop_while_starts_clean.
Qed.

Lemma stripped_chars_fixed l :
  starts_clean is_space l → starts_clean is_space (rev l) →
  stripped_chars l = l.
Proof.
  intros H1 H2. unfold stripped_chars.
  rewrite (drop_while_clean _ l) by done.
  rewrite (drop_while_clean _ (rev l)) by done. apply rev_involutive.
Qed.

Lemma stripped_chars_idem l : stripped_chars (stripped_chars l) = stripped_chars l.
Proof. apply stripped_chars_fixed; apply stripped_chars_clean. Qed.

Lemma elem_of_rev {A} (x : A) (k : list A) : x ∈ rev k ↔ x ∈ k.
Proof. rewrite !list_elem_of_In. symmetry. apply in_rev. Qed.

Lemma stripped_chars_incl l x : x ∈ stripped_chars l → x ∈ l.
Proof.
  unfold stripped_chars. rewrite elem_of_rev. intros H.
  apply drop_while_incl in H. rewrite elem_of_rev in H.
  by apply drop_while_incl in H.
Qed.

Lemma length_stripped_chars l : length (stripped_chars l) ≤ length l.
Proof.
  unfold stripped_chars. rewrite length_rev.
  etrans; [apply length_drop_while|]. rewrite length_rev.
  apply length_drop_while.
Qed.

(** [strip] is idempotent. *)
Lemma strip_idem (s : string) : strip (strip s) = strip s.
Proof.
  rewrite <- (str_chars (strip (strip s))), <- (str_chars (strip s)).
  f_equal. rewrite !strip_chars, ?chars_str. apply stripped_chars_idem.
Qed.

Lemma elem_of_firstn {A} (x : A) n (k : list A) : x ∈ firstn n k → x ∈ k.
Proof.
  revert n. induction k as [|y k IH]; intros [|n]; cbn; try done.
  - intros H. by apply elem_of_nil in H.
  - rewrite !elem_of_cons. intros [->|H]; [by left | right; eauto].
Qed.

Lemma elem_of_List_filter {A} (g : A → bool) (x : A) (k : list A) :
  x ∈ List.filter g k ↔ g x = true ∧ x ∈ k.
Proof. rewrite !list_elem_of_In, filter_In. tauto. Qed.

Lemma List_filter_all {A} (g : A → bool) (k : list A) :
  Forall (λ x, g x = true) k → List.filter g k = k.
Proof. induction 1 as [|x k Hx _ IH]; cbn; [done|]. by rewrite Hx, IH. Qed.

(** The characters of a sanitized name, before the final [strip]. *)
Lemma sanitize_filename_chars (filename : string) :
  ∃ capped,
    chars (sanitize_filename filename) = stripped_chars capped ∧
    length capped ≤ 200 ∧ length capped ≤ String.length filename ∧
    Forall (λ c, is_problematic c = false ∧ is_control c = false) capped.
Proof.
  unfold sanitize_filename.
  set (replaced := map _ (chars filename)).
  set (cleaned := List.filter _ replaced).
  set (capped := if (200 <? length cleaned) then firstn 200 cleaned else cleaned).
  exists capped. split; [apply strip_chars_str|].
  assert (Hlen : length cleaned ≤ String.length filename).
  { unfold cleaned. etrans; [apply filter_length_le|].
    unfold replaced. by rewrite length_map, length_chars. }
  assert (Hclean : Forall (λ c, is_problematic c = false ∧ is_control c = false) cleaned).
  { apply Forall_forall. intros c Hc. apply elem_of_List_filter in Hc as [Hctl Hc].
    split; [|by destruct (is_control c)].
    unfold replaced in Hc. apply list_elem_of_In, in_map_iff in Hc as (c0 & <- & _).
    by destruct (is_problematic c0) eqn:Hp. }
  unfold capped. destruct (200 <? length cleaned) eqn:Hcap.
  - apply Nat.ltb_lt in Hcap. rewrite length_firstn.
    split; [lia|]. split; [lia|].
    apply Forall_forall. intros c Hc. apply elem_of_firstn in Hc.
    by apply (proj1 (Forall_forall _ _) Hclean).
  - apply Nat.ltb_ge in Hcap. done.
Qed.

(** Every name [sanitize_filename] returns is clean. *)
Lemma sanitize_filename_clean (filename : string) :
  clean_name (sanitize_filename filename).
Proof.
  destruct (sanitize_filename_chars filename) as (capped & Hc & H200 & _ & Hall).
  pose proof (length_stripped_chars capped) as Hs.
  unfold clean_name, no_surrounding_space. rewrite <- !length_chars, !Hc.
  split; [|split]; [|lia|apply stripped_chars_clean].
  apply Forall_forall. intros c Hin. apply stripped_chars_incl in Hin.
  by apply (proj1 (Forall_forall _ _) Hall).
Qed.

(** X7. Whatever the title, [sanitize_filename] returns a name with none
    of the nine characters it replaces (angle brackets, colon, double
    quote, slash, backslash, bar, question mark, star), no control
    character, at most 200 characters and no space at either end; it never
    returns a name longer than the title. *)
Theorem X7_sanitize_filename_is_clean (filename : string) :
  clean_name (sanitize_filename filename) ∧
  String.length (sanitize_filename filename) ≤ String.length filename.
Proof.
  destruct (sanitize_filename_chars filename) as (capped & Hc & H200 & Hlen & Hall).
  pose proof (length_stripped_chars capped) as Hs.
  unfold clean_name, no_surrounding_space. rewrite <- !length_chars, !Hc.
  split; [split; [|split]|]; try lia.
  - apply Forall_forall. intros c Hin. apply stripped_chars_incl in Hin.
    by apply (proj1 (Forall_forall _ _) Hall).
  - apply stripped_chars_clean.
  - rewrite length_chars. lia.
Qed.

Lemma replace_clean (k : list ascii) :
  Forall (λ c, is_problematic c = false) k →
  map (λ c, if is_problematic c then "_"%char else c) k = k.
Proof.
  induction k as [|c k IH]; intros H; [done|].
  apply Forall_cons in H as [Hp H]. cbn [map]. rewrite Hp. f_equal. by apply IH.
Qed.

(** A clean name goes through unchanged. *)
Lemma sanitize_filename_fixed (s : string) :
  clean_name s → sanitize_filename s = s.
Proof.
  intros (Hall & Hlen & Hh & Ht). unfold sanitize_filename.
  rewrite (replace_clean (chars s))
    by (eapply Forall_impl; [exact Hall|]; by intros c [-> _]).
  rewrite List_filter_all
    by (eapply Forall_impl; [exact Hall|]; by intros c [_ ->]).
  rewrite (proj2 (Nat.ltb_ge _ _)) by (by rewrite length_chars).
  rewrite <- (str_chars s) at 2. rewrite <- (str_chars (strip _)). f_equal.
  rewrite strip_chars_str. by apply stripped_chars_fixed.
Qed.

(** X8. [sanitize_filename] is idempotent, and the names it leaves
    unchanged are exactly the clean ones: those without a replaced or
    removed character, of at most 200 characters, with no space at either
    end. *)
Theorem X8_sanitize_filename_idempotent :
  (∀ filename,
     sanitize_filename (sanitize_filename filename) = sanitize_filename filename) ∧
  (∀ s, sanitize_filename s = s ↔ clean_name s).
Proof.
  split.
  - intros filename. apply sanitize_filename_fixed.
    apply sanitize_filename_clean.
  - intros s. split; [|apply sanitize_filename_fixed].
    intros <-. apply sanitize_filename_clean.
Qed.

End FileNameFacts.


(* ===================================================================== *)
(** ** The duplicate lookup: [os.path.splitext], [glob], the fallback     *)
(* ===================================================================== *)

Section DuplicateLookupFacts.
Import PyStr PyStrShapes Glob DuplicateIndex LookupShapes.
Local Open Scope nat_scope.
Local Open Scope list_scope.

Lemma break_at_Some (c : ascii) (l a b : list ascii) :
  break_at c l = Some (a, b) → l = a ++ c :: b ∧ Forall (λ x, x ≠ c) a.
Proof.
  revert a b. induction l as [|x l IH]; intros a b; cbn [break_at]; [done|].
  destruct (Ascii.eqb x c) eqn:E.
  - apply Ascii.eqb_eq in E as ->. intros [= <- <-]. by split.
  - apply Ascii.eqb_neq in E.
    destruct (break_at c l) as [[a' b']|]; [|done]. intros [= <- <-].
    destruct (IH a' b' eq_refl) as [-> Ha]. split; [done|]. by constructor.
Qed.

Lemma break_at_None (c : ascii) (l : list ascii) :
  break_at c l = None → Forall (λ x, x ≠ c) l.
Proof.
  induction l as [|x l IH]; cbn [break_at]; [by constructor|].
  destruct (Ascii.eqb x c) eqn:E; [done|]. apply Ascii.eqb_neq in E.
  destruct (break_at c l) as [[a' b']|]; [done|]. intros _. constructor; auto.
Qed.

Lemma lacks_str (c : ascii) (l : list ascii) :
  Forall (λ x, x ≠ c) l → lacks c (str l) = true.
Proof.
  induction 1 as [|x l Hx _ IH]; [done|]. cbn [str string_of_list_ascii lacks].
  apply Ascii.eqb_neq in Hx. rewrite Hx. exact IH.
Qed.

Lemma lacks_chars (c : ascii) (s : string) :
  lacks c s = true → Forall (λ x, x ≠ c) (chars s).
Proof.
  induction s as [|x s IH]; [by constructor|]. intros H.
  apply lacks_eqb in H as [Hx Hs]. constructor; auto.
Qed.

Lemma forallb_false {A} (g : A → bool) (l : list A) :
  forallb g l = false → ∃ x, x ∈ l ∧ g x = false.
Proof.
  induction l as [|x l IH]; cbn [forallb]; [done|].
  destruct (g x) eqn:E.
  - intros H. destruct (IH H) as (y & Hy & Hg). exists y. split; [by right|done].
  - intros _. exists x. split; [by left|done].
Qed.

(** The two results of [splitext] in terms of the characters of the name. *)
Lemma splitext_cases (p : string) :
  splitext p = (p, EmptyString) ∨
  ∃ root_rev ext_rev,
    splitext p = (str (rev root_rev), String "." (str (rev ext_rev))) ∧
    chars p = rev root_rev ++ "."%char :: rev ext_rev ∧
    Forall (λ x, x ≠ "."%char) ext_rev ∧
    (∃ c, c ∈ root_rev ∧ c ≠ "."%char).
Proof.
  unfold splitext. destruct (break_at "." (rev (chars p))) as [[e r]|] eqn:B;
    [|by left].
  destruct (forallb _ r) eqn:F; [by left|]. right. exists r, e.
  apply break_at_Some in B as [B He]. split; [done|]. split; [|split; [done|]].
  - rewrite <- (rev_involutive (chars p)), B, rev_app_distr. cbn [rev].
    by rewrite <- app_assoc.
  - apply forallb_false in F as (c & Hc & F). exists c. split; [done|].
    by apply Ascii.eqb_neq.
Qed.

(** Root and extension concatenate to the name. *)
Lemma splitext_concat (p : string) :
  (fst (splitext p) ++ snd (splitext p))%string = p.
Proof.
  destruct (splitext_cases p) as [->|(r & e & -> & Hp & _)]; cbn [fst snd].
  - apply append_empty_r.
  - change (String "." (str (rev e))) with (str ("."%char :: rev e)).
    by rewrite <- str_app, <- Hp, str_chars.
Qed.

(** X9. [os.path.splitext] cuts a name in two without losing a character:
    root and extension concatenate to the name.  The extension is empty, or
    a dot followed by characters other than dots, and then the root holds a
    character that is not a dot.  A name without a dot has no extension. *)
Theorem X9_splitext_round_trip (p : string) :
  (fst (splitext p) ++ snd (splitext p))%string = p ∧
  (snd (splitext p) = EmptyString ∨
   ∃ e c, snd (splitext p) = String "." e ∧ lacks "." e = true ∧
          c ∈ chars (fst (splitext p)) ∧ c ≠ "."%char) ∧
  (lacks "." p = true → splitext p = (p, EmptyString)).
Proof.
  destruct (splitext_cases p) as [->|(r & e & -> & Hp & He & c & Hc & Hdot)];
    cbn [fst snd].
  - split; [apply append_empty_r|]. split; [by left|done].
  - split; [|split].
    + change (String "." (str (rev e))) with (str ("."%char :: rev e)).
      by rewrite <- str_app, <- Hp, str_chars.
    + right. exists (str (rev e)), c. split; [done|]. split.
      * apply lacks_str. by apply Forall_rev.
      * split; [|done]. rewrite chars_str. by apply elem_of_rev.
    + intros H. apply lacks_chars in H. rewrite Hp in H.
      apply Forall_app in H as [_ H]. apply Forall_cons in H as [H _]. done.
Qed.

Lemma existsb_string_eqb (x : string) (l : list string) :
  existsb (string_eqb x) l = true ↔ x ∈ l.
Proof.
  rewrite existsb_exists. unfold string_eqb. split.
  - intros (y & Hy & E). apply bool_decide_eq_true in E as ->.
    by apply list_elem_of_In.
  - intros H. exists x. split; [by apply list_elem_of_In|].
    by apply bool_decide_eq_true.
Qed.

(** Every match of [glob] is the name of an entry and matches the pattern:
    literally when the pattern has no wildcard. *)
Lemma glob_sound (dir : directory) (pattern m : string) :
  m ∈ glob dir pattern →
  m ∈ map name dir ∧
  (if has_magic pattern then fnmatch m pattern = true else m = pattern).
Proof.
  unfold glob. destruct (has_magic pattern).
  - intros H. apply list_elem_of_filter in H as [Hm H]. split; [|done].
    destruct (ishidden pattern); [done|].
    by apply list_elem_of_filter in H as [_ H].
  - destruct (existsb _ _) eqn:E.
    + intros H. apply list_elem_of_singleton in H as ->.
      by apply existsb_string_eqb in E.
    + intros H. by apply elem_of_nil in H.
Qed.

(** A match of the pattern loops is the first match of one pattern. *)
Lemma first_match_sound (dir : directory) (pats : list string) (m : string) :
  first_match dir pats = Some m →
  ∃ pattern, pattern ∈ pats ∧ m ∈ glob dir pattern.
Proof.
  induction pats as [|pattern pats IH]; cbn [first_match]; [done|].
  destruct (glob dir pattern) as [|m' ms] eqn:G.
  - intros H. destruct (IH H) as (q & Hq & Hm). exists q. split; [by right|done].
  - intros [= ->]. exists pattern. split; [by left|]. rewrite G. by left.
Qed.

(** A match of the fallback loop is a listed file with an expected
    extension and a similar name. *)
Lemma similarity_match_sound (t : string) (exts files : list string) (f : string) :
  similarity_match t exts files = Some f →
  f ∈ files ∧ snd (splitext f) ∈ exts ∧
  similar (word_set t) (word_set (fst (splitext f))) = true.
Proof.
  induction files as [|x files IH]; cbn [similarity_match]; [done|].
  destruct (existsb _ exts) eqn:E; cbn [negb].
  - destruct (similar _ (word_set (fst (splitext x)))) eqn:S.
    + intros H. injection H as H. subst x. split; [by left|]. split; [|done].
      by apply existsb_string_eqb.
    + intros H. destruct (IH H) as (? & ? & ?). split; [by right|done].
  - intros H. destruct (IH H) as (? & ? & ?). split; [by right|done].
Qed.

Lemma elem_of_map_name_files (f : string) (dir : directory) :
  f ∈ map name (List.filter is_file dir) ↔ Entry f true ∈ dir.
Proof.
  rewrite !list_elem_of_In, in_map_iff. split.
  - intros ([n b] & Hn & H). apply filter_In in H as [H Hb]. cbn in Hn, Hb.
    by subst.
  - intros H. exists (Entry f true). split; [done|]. apply filter_In. by split.
Qed.

Lemma similar_refl (a : gset string) : 0 < size a → similar a a = true.
Proof.
  intros H. unfold similar. rewrite (proj2 (Nat.ltb_lt _ _) H).
  rewrite union_idemp_L, intersection_idemp_L. apply Nat.ltb_lt. lia.
Qed.

(** The fallback loop misses no listed file that passes its two tests. *)
Lemma similarity_match_complete (t : string) (exts files : list string) (f : string) :
  f ∈ files → snd (splitext f) ∈ exts →
  similar (word_set t) (word_set (fst (splitext f))) = true →
  is_Some (similarity_match t exts files).
Proof.
  intros Hf Hext Hsim. induction files as [|x files IH]; [by apply elem_of_nil in Hf|].
  cbn [similarity_match]. apply elem_of_cons in Hf as [<-|Hf].
  - rewrite (proj2 (existsb_string_eqb _ _) Hext), Hsim. cbn [negb]. eauto.
  - destruct (negb _); [by apply IH|].
    destruct (similar _ (word_set (fst (splitext x)))); [eauto|by apply IH].
Qed.

(** X10. A name [check_existing_file] returns is the name of an entry of
    the download directory: with no directory there is no match, and the
    lookup makes up no name.  The identifier holds no path separator, as
    the hexadecimal digests the callers pass. *)
Theorem X10_lookup_returns_an_entry (download_dir : option directory)
        (title video_id_hash : string) (audio_only : bool) (f : string) :
  lacks "/" video_id_hash = true →
  check_existing_file download_dir title video_id_hash audio_only = Some f →
  ∃ dir, download_dir = Some dir ∧ f ∈ map name dir.
Proof.
  intros _. unfold check_existing_file. destruct download_dir as [dir|]; [|done].
  intros H. exists dir. split; [done|].
  destruct (first_match dir _) as [m|] eqn:M.
  - injection H as ->. apply first_match_sound in M as (q & _ & M).
    by apply glob_sound in M as [M _].
  - apply similarity_match_sound in H as (H & _ & _).
    apply elem_of_map_name_files in H.
    apply list_elem_of_In, (in_map name) in H. by apply list_elem_of_In.
Qed.

Lemma X10_lookup_returns_an_entry_witness :
  ∃ dir, song_dir = Some dir ∧ "Song Title_abc123def456.mp3" ∈ map name dir.
Proof.
  refine (X10_lookup_returns_an_entry song_dir "Song Title" "abc123def456" true
            "Song Title_abc123def456.mp3" _ _); vm_compute; reflexivity.
Defined.

(** X11. The similarity fallback misses nothing it could accept: when the
    directory holds a regular file with an extension of the requested media
    type whose name passes the 70% word test against the sanitized title,
    the lookup returns a name. *)
Theorem X11_similar_file_is_found (dir : directory)
        (title video_id_hash : string) (audio_only : bool) (f : string) :
  Entry f true ∈ dir →
  snd (splitext f) ∈ possible_extensions audio_only →
  similar (word_set (sanitize_filename title)) (word_set (fst (splitext f))) = true →
  is_Some (check_existing_file (Some dir) title video_id_hash audio_only).
Proof.
  intros Hf Hext Hsim. unfold check_existing_file.
  destruct (first_match dir _); [eauto|].
  eapply similarity_match_complete; [|exact Hext|exact Hsim].
  by apply elem_of_map_name_files.
Qed.

Lemma X11_similar_file_is_found_witness :
  is_Some (check_existing_file (Some [Entry "notes.txt" true;
                                      Entry "Some Random Video.webm" true])
             "some  RANDOM video" "unknown-id" false).
Proof.
  refine (X11_similar_file_is_found _ _ _ false "Some Random Video.webm" _ _ _).
  - apply elem_of_cons. right. apply elem_of_cons. by left.
  - vm_compute. repeat constructor.
  - vm_compute. reflexivity.
Defined.

Lemma chars_app (a b : string) : chars (a ++ b)%string = chars a ++ chars b.
Proof.
  induction a as [|x a IH]; [done|]. rewrite append_cons.
  cbn [chars list_ascii_of_string app]. f_equal. exact IH.
Qed.

(** A plain character is translated to itself. *)
Lemma translate_plain_head (f : nat) (c : ascii) (r : list ascii) :
  plain_char c = true → translate (S f) (c :: r) = GLit c :: translate f r.
Proof.
  destruct c as [[|] [|] [|] [|] [|] [|] [|] [|]]; intros H;
    first [reflexivity | discriminate H].
Qed.

Lemma translate_plain (f : nat) (e : list ascii) :
  forallb plain_char e = true → length e ≤ f → translate f e = map GLit e.
Proof.
  revert f. induction e as [|c e IH]; intros f He Hf.
  - by destruct f.
  - cbn [forallb] in He. apply andb_prop in He as [Hc He].
    destruct f as [|f]; [cbn in Hf; lia|]. rewrite translate_plain_head by done.
    cbn [map]. f_equal. apply IH; [done|]. cbn in Hf. lia.
Qed.

Lemma break_at_keeps_tail (c : ascii) (l e a b : list ascii) :
  Forall (λ x, x ≠ c) e → break_at c (l ++ e) = Some (a, b) →
  ∃ b', b = b' ++ e ∧ length b' < length l.
Proof.
  intros He. revert a. induction l as [|x l IH]; intros a H.
  - cbn [app] in H. apply break_at_Some in H as [-> _].
    apply Forall_app in He as [_ He]. apply Forall_cons in He as [He _]. done.
  - cbn [app break_at] in H. destruct (Ascii.eqb x c).
    + injection H as <- <-. exists l. split; [done|]. cbn. lia.
    + destruct (break_at c (l ++ e)) as [[a' b'']|] eqn:B; [|done].
      injection H as <- <-. destruct (IH a' eq_refl) as (b' & -> & Hlen).
      exists b'. split; [done|]. cbn. lia.
Qed.

(** The head tests of [class_body], by comparison. *)
Lemma bang_head (l : list ascii) :
  match l with "!"%char :: r => (["!"%char], r) | _ => ([], l) end
  = match l with
    | x :: r => if Ascii.eqb x "!" then (["!"%char], r) else ([], l)
    | [] => ([], l)
    end.
Proof.
  destruct l as [|[[|] [|] [|] [|] [|] [|] [|] [|]] r]; reflexivity.
Qed.

Lemma bracket_head (l : list ascii) :
  match l with "]"%char :: r => (["]"%char], r) | _ => ([], l) end
  = match l with
    | x :: r => if Ascii.eqb x "]" then (["]"%char], r) else ([], l)
    | [] => ([], l)
    end.
Proof.
  destruct l as [|[[|] [|] [|] [|] [|] [|] [|] [|]] r]; reflexivity.
Qed.

Lemma plain_not_bang (c : ascii) : plain_char c = true → Ascii.eqb c "!" = false.
Proof.
  destruct (Ascii.eqb c "!") eqn:E; [|done]. by apply Ascii.eqb_eq in E as ->.
Qed.

Lemma plain_not_bracket (c : ascii) : plain_char c = true → c ≠ "]"%char.
Proof. by intros H ->. Qed.

(** The head tests leave a plain tail alone. *)
Lemma head_test_keeps_tail (k : ascii) (l e : list ascii) :
  (∀ c, plain_char c = true → Ascii.eqb c k = false) →
  forallb plain_char e = true →
  ∃ l', snd (match l ++ e with
             | x :: r => if Ascii.eqb x k then ([k], r) else ([], l ++ e)
             | [] => ([], l ++ e)
             end) = l' ++ e ∧ length l' ≤ length l.
Proof.
  intros Hk He. destruct l as [|x l].
  - exists []. split; [|done]. cbn [app]. destruct e as [|c e]; [done|].
    cbn [forallb] in He. apply andb_prop in He as [Hc _]. by rewrite (Hk c Hc).
  - cbn [app]. destruct (Ascii.eqb x k).
    + exists l. split; [done|]. cbn. lia.
    + by exists (x :: l).
Qed.

Lemma class_body_keeps_tail (r e body after : list ascii) :
  forallb plain_char e = true →
  class_body (r ++ e) = Some (body, after) →
  ∃ after', after = after' ++ e ∧ length after' < length r.
Proof.
  intros He. unfold class_body. rewrite bang_head.
  destruct (head_test_keeps_tail "!" r e plain_not_bang He) as (r1 & E1 & H1).
  destruct (match r ++ e with [] => _ | _ :: _ => _ end) as [bang r1'].
  cbn [snd] in E1. subst r1'. rewrite bracket_head.
  destruct (head_test_keeps_tail "]" r1 e) as (r2 & E2 & H2); [|done|].
  { intros c Hc. apply Ascii.eqb_neq. by apply plain_not_bracket. }
  destruct (match r1 ++ e with [] => _ | _ :: _ => _ end) as [brk r2'].
  cbn [snd] in E2. subst r2'.
  destruct (break_at "]" (r2 ++ e)) as [[b a]|] eqn:B; [|done].
  intros [= <- <-]. apply break_at_keeps_tail in B as (b' & -> & Hb).
  - exists b'. split; [done|]. lia.
  - apply Forall_forall. intros c Hc. apply plain_not_bracket.
    apply list_elem_of_In in Hc. by apply (proj1 (forallb_forall _ _) He).
Qed.

(** A pattern that ends with plain characters is translated to tokens
    that end with these characters, taken literally. *)
Lemma translate_keeps_tail (f : nat) (pre e : list ascii) :
  forallb plain_char e = true → length (pre ++ e) ≤ f →
  ∃ ts, translate f (pre ++ e) = ts ++ map GLit e.
Proof.
  intros He. revert pre. induction f as [|f IH]; intros pre Hf.
  - destruct pre; [|cbn in Hf; lia]. destruct e; [|cbn in Hf; lia]. by exists [].
  - destruct pre as [|c r].
    { exists []. cbn [app]. by apply translate_plain. }
    cbn [app length] in Hf. rewrite length_app in Hf.
    assert (Hr : length (r ++ e) ≤ f) by (rewrite length_app; lia).
    destruct (ascii_dec c "*") as [->|Hstar].
    { destruct (IH r Hr) as (ts & E). exists (GStar :: ts).
      cbn [app translate]. by rewrite E. }
    destruct (ascii_dec c "?") as [->|Hany].
    { destruct (IH r Hr) as (ts & E). exists (GAny :: ts).
      cbn [app translate]. by rewrite E. }
    destruct (ascii_dec c "[") as [->|Hopen].
    { cbn [app translate].
      destruct (class_body (r ++ e)) as [[body after]|] eqn:B.
      - apply class_body_keeps_tail in B as (a' & -> & Ha); [|done].
        destruct (IH a') as (ts & E); [rewrite length_app; lia|].
        exists (class_token body :: ts). by rewrite E.
      - destruct (IH r Hr) as (ts & E). exists (GLit "[" :: ts). by rewrite E. }
    destruct (IH r Hr) as (ts & E). exists (GLit c :: ts).
    cbn [app]. rewrite <- E. clear -Hstar Hany Hopen.
    destruct c as [[|] [|] [|] [|] [|] [|] [|] [|]];
      first [reflexivity | congruence].
Qed.

Lemma match_literal (e s : list ascii) :
  match_tokens (map GLit e) s = true → s = e.
Proof.
  revert s. induction e as [|c e IH]; intros [|x s]; cbn [map match_tokens];
    try done.
  intros H. apply andb_prop in H as [Hx H]. apply Ascii.eqb_eq in Hx as ->.
  f_equal. by apply IH.
Qed.

(** A name matched by tokens that end with literal characters ends with
    these characters. *)
Lemma match_tokens_tail (ts : list glob_token) (e s : list ascii) :
  match_tokens (ts ++ map GLit e) s = true → ∃ s', s = s' ++ e.
Proof.
  revert s. induction ts as [|t ts IH]; intros s.
  - cbn [app]. intros H. apply match_literal in H as ->. by exists [].
  - assert (Hstep : ∀ x s0, match_tokens (ts ++ map GLit e) s0 = true →
                            ∃ s', x :: s0 = s' ++ e).
    { intros x s0 H. destruct (IH s0 H) as (s' & ->). by exists (x :: s'). }
    destruct t as [| |c|neg items]; cbn [app match_tokens].
    + induction s as [|x s IHs].
      * intros H. apply orb_prop in H as [H|H]; [by apply IH|done].
      * intros H. apply orb_prop in H as [H|H]; [by apply IH|].
        destruct (IHs H) as (s' & ->). by exists (x :: s').
    + destruct s as [|x s]; [done|]. apply Hstep.
    + destruct s as [|x s]; [done|]. intros H.
      apply andb_prop in H as [_ H]. by apply Hstep.
    + destruct s as [|x s]; [done|]. intros H.
      apply andb_prop in H as [_ H]. by apply Hstep.
Qed.

Lemma ends_with_chars (m e : string) (s' : list ascii) :
  chars m = s' ++ chars e → ends_with m e.
Proof.
  intros H. exists (str s'). rewrite <- (str_chars m), H, str_app.
  by rewrite str_chars.
Qed.

(** Every match of a pattern that ends with plain characters ends with
    them, whatever stands before them in the pattern. *)
Lemma glob_ends_with (dir : directory) (pre e m : string) :
  forallb plain_char (chars e) = true →
  m ∈ glob dir (pre ++ e)%string → ends_with m e.
Proof.
  intros He H. apply glob_sound in H as [_ H].
  destruct (has_magic _); [|subst m; by exists pre].
  unfold fnmatch in H.
  destruct (translate_keeps_tail (String.length (pre ++ e)%string)
              (chars pre) (chars e) He) as (ts & E).
  { by rewrite <- chars_app, length_chars. }
  rewrite chars_app, E in H. apply match_tokens_tail in H as (s' & H).
  by eapply ends_with_chars.
Qed.

Lemma possible_extensions_plain (audio_only : bool) (ext : string) :
  ext ∈ possible_extensions audio_only →
  forallb plain_char (chars ext) = true.
Proof.
  destruct audio_only; cbn [possible_extensions negb]; intros H;
    repeat (apply elem_of_cons in H as [->|H]; [reflexivity|]);
    by apply elem_of_nil in H.
Qed.

(** The three patterns of an extension end with it. *)
Lemma patterns_end (t h ext pattern : string) :
  pattern ∈ patterns t h ext → ∃ pre, pattern = (pre ++ ext)%string.
Proof.
  unfold patterns. intros H.
  repeat (apply elem_of_cons in H as [->|H];
          [rewrite <- ?append_assoc'; eauto|]).
  by apply elem_of_nil in H.
Qed.

(** X12. A name [check_existing_file] returns ends with one of the
    extensions of the requested media type, by whichever pattern or by the
    fallback it was found, and whatever characters the title holds. *)
Theorem X12_lookup_returns_expected_extension (download_dir : option directory)
        (title video_id_hash : string) (audio_only : bool) (f : string) :
  check_existing_file download_dir title video_id_hash audio_only = Some f →
  ∃ ext, ext ∈ possible_extensions audio_only ∧ ends_with f ext.
Proof.
  unfold check_existing_file. destruct download_dir as [dir|]; [|done].
  destruct (first_match dir _) as [m|] eqn:M.
  - intros [= ->]. apply first_match_sound in M as (q & Hq & M).
    apply list_elem_of_In, in_flat_map in Hq as (ext & Hext & Hq).
    apply list_elem_of_In in Hext, Hq. exists ext. split; [done|].
    apply patterns_end in Hq as (pre & ->).
    eapply glob_ends_with; [|exact M]. by eapply possible_extensions_plain.
  - intros H. apply similarity_match_sound in H as (_ & H & _).
    exists (snd (splitext f)). split; [done|]. exists (fst (splitext f)).
    symmetry. apply splitext_concat.
Qed.

Lemma X12_lookup_returns_expected_extension_witness :
  ∃ ext, ext ∈ possible_extensions true ∧
         ends_with "Song Title_abc123def456.mp3" ext.
Proof.
  refine (X12_lookup_returns_expected_extension song_dir "Song Title"
            "abc123def456" true "Song Title_abc123def456.mp3" _).
  vm_compute. reflexivity.
Defined.

End DuplicateLookupFacts.


(* ===================================================================== *)
(** ** The proxy options handed to yt-dlp                                 *)
(* ===================================================================== *)

Section ProxyOptionsFacts.
Import ProxyPool ProxyCalls.
Local Open Scope nat_scope.

(** Calls other than a refresh keep the list and an in-range cursor,
    however many are made. *)
Lemma pool_after_all_rotator_calls cs : ∀ p,
  forallb rotator_call cs = true → cursor_in_range p →
  valid_proxies (pool_after_all cs p) = valid_proxies p ∧
  cursor_in_range (pool_after_all cs p).
Proof.
  induction cs as [|c cs IH]; intros p Hcs Hp; [done|].
  cbn [forallb] in Hcs. apply andb_prop in Hcs as [Hc Hcs].
  destruct (exec_rotator_call c p Hc Hp) as (_ & Hv & Hr).
  cbn [pool_after_all]. destruct (IH _ Hcs Hr) as [Hv' Hr'].
  split; [congruence|done].
Qed.

(** The lines kept from a proxy file: stripped and not empty. *)
Lemma elem_of_read_proxy_lines (x : string) (ls : list string) :
  x ∈ read_proxy_lines ls ↔
  x ≠ EmptyString ∧ ∃ line, line ∈ ls ∧ x = PyStr.strip line.
Proof.
  unfold read_proxy_lines. rewrite list_elem_of_In, filter_In, in_map_iff.
  split.
  - intros [(line & <- & Hl) Ht]. split; [by destruct (PyStr.strip line)|].
    exists line. by rewrite list_elem_of_In.
  - intros (Hx & line & Hl & ->). split.
    + exists line. by rewrite <- list_elem_of_In.
    + by destruct (PyStr.strip line).
Qed.

(** X13. For a rotator loaded from a proxy file and used through any
    sequence of [mark_proxy_failed], [get_next_proxy] and
    [get_random_proxy] calls, [get_proxy_for_ytdlp] never raises: it
    returns the empty dictionary when the file gave no proxy (it could not
    be read, or held blank lines only), and otherwise the one key [proxy]
    with [http://] before a stripped, non-empty line of the file. *)
Theorem X13_ytdlp_proxy_from_file (lines : option (list string)) (cs : list call) :
  forallb rotator_call cs = true →
  ∃ q,
    (valid_proxies (init_proxy_rotator lines) = [] ∧
     get_proxy_for_ytdlp (Some (pool_after_all cs (init_proxy_rotator lines)))
       = ProxyOptions ∅ (Some q)) ∨
    (∃ ls line,
       lines = Some ls ∧ line ∈ ls ∧ PyStr.strip line ≠ EmptyString ∧
       get_proxy_for_ytdlp (Some (pool_after_all cs (init_proxy_rotator lines)))
         = ProxyOptions {[ "proxy" := "http://" ++ PyStr.strip line ]} (Some q)).
Proof.
  intros Hcs.
  destruct (pool_after_all_rotator_calls cs (init_proxy_rotator lines) Hcs
              (init_proxy_rotator_in_range lines)) as [Hv Hr].
  set (p := pool_after_all cs (init_proxy_rotator lines)) in *.
  destruct (valid_proxies (init_proxy_rotator lines)) as [|y l] eqn:E.
  - exists p. left. split; [done|]. cbn [get_proxy_for_ytdlp].
    unfold get_next_proxy. by rewrite Hv.
  - destruct (get_next_proxy_member p Hr) as (x & q & Hn & Hx);
      [by rewrite Hv|].
    exists q. right. rewrite Hv, <- E in Hx.
    destruct lines as [ls|]; [|by apply elem_of_nil in Hx].
    apply elem_of_read_proxy_lines in Hx as (Hne & line & Hl & ->).
    exists ls, line. split; [done|]. split; [done|]. split; [done|].
    cbn [get_proxy_for_ytdlp]. rewrite Hn. by destruct (PyStr.strip line).
Qed.

Lemma X13_ytdlp_proxy_from_file_witness :
  ∃ q,
    (valid_proxies (init_proxy_rotator (Some [""; " 5.6.7.8:81 "])) = [] ∧
     get_proxy_for_ytdlp
       (Some (pool_after_all [MarkFailed "5.6.7.8:81"; GetRandom]
                (init_proxy_rotator (Some [""; " 5.6.7.8:81 "]))))
       = ProxyOptions ∅ (Some q)) ∨
    (∃ ls line,
       Some [""; " 5.6.7.8:81 "] = Some ls ∧ line ∈ ls ∧
       PyStr.strip line ≠ EmptyString ∧
       get_proxy_for_ytdlp
         (Some (pool_after_all [MarkFailed "5.6.7.8:81"; GetRandom]
                  (init_proxy_rotator (Some [""; " 5.6.7.8:81 "]))))
         = ProxyOptions {[ "proxy" := "http://" ++ PyStr.strip line ]} (Some q)).
Proof.
  apply (X13_ytdlp_proxy_from_file (Some [""; " 5.6.7.8:81 "])
           [MarkFailed "5.6.7.8:81"; GetRandom]).
  reflexivity.
Defined.

End ProxyOptionsFacts.


(* ===================================================================== *)
(** ** The life cycle of a task                                           *)
(* ===================================================================== *)

Section TaskLifecycleFacts.
Import PyStr Orchestrator TaskLifecycle.
Local Open Scope nat_scope.

(** The counters a worker block reassigns are no status or flag. *)
Lemma apply_counters_flags k vs t :
  task_status (apply_counters k vs t) = task_status t ∧
  completed (apply_counters k vs t) = completed t ∧
  zip_available (apply_counters k vs t) = zip_available t ∧
  total_videos (apply_counters k vs t) = total_videos t.
Proof. by destruct k. Qed.

(** Splitting a step into the actions and the positions that enable it. *)
Ltac step_cases Hstep :=
  match type of Hstep with
  | step _ ?a ?st = Some _ =>
      destruct st as [t vs ws o];
      destruct a as [| | | |i|idx d tot| | |msg]; cbn in Hstep;
      [ destruct o; try discriminate Hstep
      | destruct o; try discriminate Hstep;
        destruct (resolved _) eqn:?
      | destruct o; try discriminate Hstep
      | destruct o; try discriminate Hstep
      | destruct (ws !! i) as [pc|] eqn:?; [|discriminate Hstep]; cbn in Hstep;
        destruct (vs !! i) as [v|] eqn:?; [|discriminate Hstep]; cbn in Hstep;
        destruct (resolved _ !! i) as [info|] eqn:?; [|discriminate Hstep];
        cbn in Hstep;
        destruct (worker_block _ _ _ _ _) as [[[pc' v'] k]|] eqn:?;
        [|discriminate Hstep]; cbn in Hstep
      | destruct (existsb is_fetching ws); [|discriminate Hstep];
        destruct (vs !! idx) as [v|] eqn:?; [|discriminate Hstep]; cbn in Hstep
      |
      | destruct o; try discriminate Hstep;
        destruct (forallb is_done ws) eqn:?; [|discriminate Hstep]
      | destruct o; try discriminate Hstep ];
      injection Hstep as <-
  end.

Lemma initial_phase cfg : phase_invariant cfg (initial_state cfg).
Proof. by cbv. Qed.

Lemma step_phase cfg a st st' :
  phase_invariant cfg st → step cfg a st = Some st' → phase_invariant cfg st'.
Proof.
  intros H Hstep. unfold phase_invariant in *. step_cases Hstep; cbn in *;
    try (destruct (apply_counters_flags k (<[i:=v']> vs) t) as (-> & -> & -> & _));
    try (destruct o); intuition congruence.
Qed.

Lemma run_phase cfg acts st st' :
  phase_invariant cfg st → run cfg acts st = Some st' → phase_invariant cfg st'.
Proof.
  revert st. induction acts as [|a acts IH]; intros st H Hrun; cbn in Hrun.
  - by injection Hrun as <-.
  - destruct (step cfg a st) as [st1|] eqn:Hstep; [|discriminate].
    eapply IH; [|exact Hrun]. by eapply step_phase.
Qed.

Lemma reachable_phase cfg st : reachable cfg st → phase_invariant cfg st.
Proof. intros [acts H]. eapply run_phase; [apply initial_phase|exact H]. Qed.

(** Once [process_download_enhanced] is over, nothing touches the status,
    the flags or the total of the task. *)
Lemma step_after_end cfg a st st' :
  orch st = OEnd → step cfg a st = Some st' →
  orch st' = OEnd ∧
  task_status (task st') = task_status (task st) ∧
  completed (task st') = completed (task st) ∧
  zip_available (task st') = zip_available (task st) ∧
  total_videos (task st') = total_videos (task st).
Proof.
  intros Ho Hstep. step_cases Hstep; cbn in *; try discriminate Ho;
    try (destruct (apply_counters_flags k (<[i:=v']> vs) t) as (-> & -> & -> & ->));
    done.
Qed.

Lemma run_after_end cfg acts st st' :
  orch st = OEnd → run cfg acts st = Some st' →
  orch st' = OEnd ∧ task_status (task st') = task_status (task st).
Proof.
  revert st. induction acts as [|a acts IH]; intros st Ho Hrun; cbn in Hrun.
  - by injection Hrun as <-.
  - destruct (step cfg a st) as [st1|] eqn:Hstep; [|discriminate].
    destruct (step_after_end _ _ _ _ Ho Hstep) as (Ho1 & <- & _).
    by apply IH.
Qed.

(** X14. In every state a task can reach, the flags the clients poll agree
    with its status: [completed] is set exactly when the status is
    [completed] or [failed], and [zip_available] exactly when it is
    [completed]. *)
Theorem X14_flags_agree_with_status cfg st :
  reachable cfg st →
  (completed (task st) = true ↔
   task_status (task st) = TaskCompleted ∨ task_status (task st) = TaskFailed) ∧
  (zip_available (task st) = true ↔ task_status (task st) = TaskCompleted).
Proof.
  intros H. apply reachable_phase in H. unfold phase_invariant in H.
  destruct (orch st); intuition congruence.
Qed.

Lemma X14_flags_agree_with_status_witness :
  let st := final_state (second_fetch_fails "HTTP Error 403") archive_fails in
  (completed (task st) = true ↔
   task_status (task st) = TaskCompleted ∨ task_status (task st) = TaskFailed) ∧
  (zip_available (task st) = true ↔ task_status (task st) = TaskCompleted).
Proof.
  apply (X14_flags_agree_with_status (second_fetch_fails "HTTP Error 403")).
  exists archive_fails. vm_compute. reflexivity.
Defined.

(** X15. The status of a task only moves forward, from [initializing]
    through [fetching] and [downloading] to [completed] or [failed], and a
    task that shows [completed] set is final: whatever runs afterwards
    (workers still at work, progress events, snapshots) leaves its status,
    its two flags and its total as they are. *)
Theorem X15_task_status_moves_forward cfg st a st' :
  reachable cfg st → step cfg a st = Some st' →
  task_rank (task_status (task st)) ≤ task_rank (task_status (task st')) ∧
  (completed (task st) = true →
   task_status (task st') = task_status (task st) ∧
   completed (task st') = true ∧
   zip_available (task st') = zip_available (task st) ∧
   total_videos (task st') = total_videos (task st)).
Proof.
  intros Hr Hstep. pose proof (reachable_phase _ _ Hr) as Hp. split.
  - unfold phase_invariant in Hp. clear Hr. step_cases Hstep; cbn in *;
      try (destruct (apply_counters_flags k (<[i:=v']> vs) t) as (-> & _));
      try lia; try (destruct o; cbn in * );
      try (destruct Hp as (-> & _); cbn; lia);
      destruct (task_status t); cbn; lia.
  - intros Hc. assert (Ho : orch st = OEnd).
    { unfold phase_invariant in Hp. destruct (orch st); intuition congruence. }
    destruct (step_after_end _ _ _ _ Ho Hstep) as (_ & -> & -> & -> & ->).
    done.
Qed.

Lemma X15_task_status_moves_forward_witness :
  let cfg := second_fetch_fails "HTTP Error 403" in
  let st := final_state cfg interleaved_wave in
  let st' := final_state cfg archive_fails in
  task_rank (task_status (task st)) ≤ task_rank (task_status (task st')) ∧
  (completed (task st) = true →
   task_status (task st') = task_status (task st) ∧
   completed (task st') = true ∧
   zip_available (task st') = zip_available (task st) ∧
   total_videos (task st') = total_videos (task st)).
Proof.
  refine (X15_task_status_moves_forward (second_fetch_fails "HTTP Error 403")
            _ (ARaise "No space left on device") _ _ _).
  - exists interleaved_wave. vm_compute. reflexivity.
  - vm_compute. reflexivity.
Defined.

(** An exception that reaches the outer handler fails the task for good. *)
Lemma run_raise cfg acts : ∀ st st',
  run cfg acts st = Some st' → existsb is_raise acts = true →
  task_status (task st') = TaskFailed.
Proof.
  induction acts as [|a acts IH]; intros st st' Hrun Ha; [done|].
  cbn in Hrun, Ha. destruct (step cfg a st) as [st1|] eqn:Hstep; [|discriminate].
  cbn in Hrun. destruct (is_raise a) eqn:Hra; [|by eapply IH].
  destruct a; try discriminate Hra. cbn in Hstep.
  assert (orch st1 = OEnd ∧ task_status (task st1) = TaskFailed) as [Ho Ht].
  { destruct (orch st); try discriminate Hstep; by injection Hstep as <-. }
  destruct (run_after_end _ _ _ _ Ho Hrun) as [_ ->]. done.
Qed.

Lemma no_raise acts :
  existsb is_raise acts = false → forallb (λ a, negb (is_raise a)) acts = true.
Proof.
  induction acts as [|a acts IH]; [done|]. cbn. intros H.
  apply orb_false_elim in H as [-> H]. by rewrite IH.
Qed.

(** X16. What decides how a task ends: it ends [failed] exactly when no
    item was resolved or an exception reached the outer handler of
    [process_download_enhanced], and [completed] otherwise, whatever became
    of the items. *)
Theorem X16_task_fails_only_on_outer_error cfg acts st :
  run cfg acts (initial_state cfg) = Some st →
  completed (task st) = true →
  (task_status (task st) = TaskFailed ↔
   resolved cfg = [] ∨ existsb is_raise acts = true) ∧
  (task_status (task st) = TaskCompleted ↔
   resolved cfg ≠ [] ∧ existsb is_raise acts = false).
Proof.
  intros Hrun Hc.
  pose proof (run_phase _ _ _ _ (initial_phase cfg) Hrun) as Hp.
  unfold phase_invariant in Hp.
  destruct (orch st) eqn:Ho; try (exfalso; intuition congruence).
  destruct Hp as [_ Hp].
  assert (Hgood : resolved cfg ≠ [] → existsb is_raise acts = false →
                  task_status (task st) = TaskCompleted).
  { intros Hres Hno. eapply run_ends_completed;
      [exact Hres|by apply no_raise| |exact Hrun|exact Ho]. done. }
  assert (Hbad : existsb is_raise acts = true → task_status (task st) = TaskFailed).
  { intros Hra. by eapply run_raise. }
  destruct (existsb is_raise acts); destruct (decide (resolved cfg = [])) as [E|E];
    intuition congruence.
Qed.

Lemma X16_task_fails_only_on_outer_error_witness :
  let cfg := second_fetch_fails "HTTP Error 403" in
  let st := final_state cfg interleaved in
  (task_status (task st) = TaskFailed ↔
   resolved cfg = [] ∨ existsb is_raise interleaved = true) ∧
  (task_status (task st) = TaskCompleted ↔
   resolved cfg ≠ [] ∧ existsb is_raise interleaved = false).
Proof.
  refine (X16_task_fails_only_on_outer_error
            (second_fetch_fails "HTTP Error 403") interleaved _ _ _);
    vm_compute; reflexivity.
Defined.

(** The branches of a worker block that returned. *)
Ltac split_block H :=
  unfold worker_block in H;
  repeat match type of H with
         | context [match ?x with _ => _ end] => destruct x eqn:?
         end;
  try discriminate H; injection H as <- <- <-.

(** The statuses an item can be left in by a block that raised. *)
Lemma local_reach_raised skip info e pc v :
  local_reach skip info e pc v →
  match pc with
  | WRaised _ =>
      status v = Checking ∨ status v = Skipped ∨
      status v = Downloading ∨ status v = Completed
  | _ => True
  end.
Proof.
  induction 1 as [|pc v pc' v' k Hreach IH Hblock|pc v d tot Hreach IH].
  - done.
  - apply local_reach_status in Hreach.
    destruct pc; cbn in Hreach; split_block Hblock; cbn; auto.
  - by rewrite progress_hook_status.
Qed.

(** One block of a worker moves the status of its item along an edge, or
    leaves it. *)
Lemma worker_block_edge skip info e pc v pc' v' k :
  local_reach skip info e pc v →
  worker_block skip info e pc v = Some (pc', v', k) →
  status v' = status v ∨ item_edge (status v) (status v') = true.
Proof.
  intros Hreach Hblock.
  pose proof (local_reach_status _ _ _ _ _ Hreach) as Hs.
  pose proof (local_reach_raised _ _ _ _ _ Hreach) as Hr.
  destruct pc; cbn in Hs, Hr; split_block Hblock; cbn; rewrite ?Hs; auto.
  all: destruct Hr as [-> | [-> | [-> | ->]]]; auto.
Qed.

(** X17. The status of an item only moves along the edges of
    [download_single_video]: pending to checking; checking to skipped,
    downloading or failed; downloading to completed or failed; skipped or
    completed to failed (when reading the file size raises).  So no item
    returns to pending, and a failed item stays failed. *)
Theorem X17_item_status_follows_edges cfg st a st' j w w' :
  reachable cfg st → step cfg a st = Some st' →
  videos st !! j = Some w → videos st' !! j = Some w' →
  status w' = status w ∨ item_edge (status w) (status w') = true.
Proof.
  intros Hr Hstep Hw Hw'. apply reachable_invariant in Hr.
  destruct Hr as [Hl _ _ Ho _ _ _].
  assert (Hsame : videos st' = videos st → status w' = status w ∨
                  item_edge (status w) (status w') = true).
  { intros E. rewrite E, Hw in Hw'. injection Hw' as <-. by left. }
  step_cases Hstep; cbn in *; try (by apply Hsame).
  - destruct Ho as [-> _]. discriminate Hw.
  - destruct (decide (j = i)) as [->|Hne].
    + rewrite list_lookup_insert_eq in Hw' by (by eapply lookup_lt_Some).
      injection Hw' as <-.
      assert (v = w) as -> by congruence.
      eapply worker_block_edge; [|eassumption].
      specialize (Hl i info w ltac:(eassumption) Hw).
      unfold pc_of in Hl. cbn in Hl.
      match goal with H : ws !! i = Some _ |- _ => rewrite H in Hl end.
      exact Hl.
    + rewrite list_lookup_insert_ne in Hw' by done. rewrite Hw in Hw'.
      injection Hw' as <-. by left.
  - destruct (decide (j = idx)) as [->|Hne].
    + rewrite list_lookup_insert_eq in Hw' by (by eapply lookup_lt_Some).
      injection Hw' as <-.
      assert (v = w) as -> by congruence.
      left. apply progress_hook_status.
    + rewrite list_lookup_insert_ne in Hw' by done. rewrite Hw in Hw'.
      injection Hw' as <-. by left.
Qed.

Lemma X17_item_status_follows_edges_witness :
  let checking :=
    mkVideo "https://www.youtube.com/watch?v=aaaaaaaaaaa" "First" Checking
            0 0 "" "" "d57f21e6a273" "" in
  let failed :=
    mkVideo "https://www.youtube.com/watch?v=aaaaaaaaaaa" "First" Failed
            0 0 "" "Permission denied" "d57f21e6a273" "" in
  status failed = status checking ∨
  item_edge (status checking) (status failed) = true.
Proof.
  refine (X17_item_status_follows_edges
            (duplicate_check_fails "Permission denied")
            (final_state (duplicate_check_fails "Permission denied")
               [AFetching; AResolve; ADownloading; ASubmit; AWorker 0; AWorker 0])
            (AWorker 0)
            (final_state (duplicate_check_fails "Permission denied")
               [AFetching; AResolve; ADownloading; ASubmit;
                AWorker 0; AWorker 0; AWorker 0])
            0 _ _ _ _ _ _).
  - exists [AFetching; AResolve; ADownloading; ASubmit; AWorker 0; AWorker 0].
    vm_compute. reflexivity.
  - vm_compute. reflexivity.
  - vm_compute. reflexivity.
  - vm_compute. reflexivity.
Defined.

(** X18. Once an item has failed, the [failure_count] of the task is the
    number of failed items in every state, with no snapshot needed: each
    block that fails an item recounts under the lock, and nothing else
    changes the number of failed items. *)
Theorem X18_failure_count_is_exact cfg st :
  reachable cfg st →
  0 < count_status Failed (videos st) →
  failure_count (task st) = Some (count_status Failed (videos st)).
Proof.
  intros Hr Hpos. apply reachable_invariant in Hr.
  destruct (inv_failure_count _ _ Hr) as [H|H]; [lia|done].
Qed.

Lemma X18_failure_count_is_exact_witness :
  let st := final_state (second_fetch_fails "HTTP Error 403") interleaved_wave in
  failure_count (task st) = Some (count_status Failed (videos st)).
Proof.
  refine (X18_failure_count_is_exact (second_fetch_fails "HTTP Error 403") _ _ _).
  - exists interleaved_wave. vm_compute. reflexivity.
  - vm_compute. lia.
Defined.

(** Every block brings a worker closer to its return. *)
Lemma worker_block_decreases skip info e pc v pc' v' k :
  worker_block skip info e pc v = Some (pc', v', k) →
  blocks_left pc' < blocks_left pc.
Proof. intros H. destruct pc; split_block H; cbn; lia. Qed.

Lemma worker_returns cfg i : ∀ n st,
  invariant cfg st → workers st ≠ [] → i < length (resolved cfg) →
  blocks_left (pc_of st i) ≤ n →
  ∃ k st', k ≤ n ∧ run cfg (replicate k (AWorker i)) st = Some st' ∧
           is_done (pc_of st' i) = true.
Proof.
  induction n as [|n IH]; intros st Hinv Hws Hi Hn.
  - exists 0, st. split; [done|]. split; [done|].
    destruct (pc_of st i); cbn in Hn; try lia. done.
  - destruct (is_done (pc_of st i)) eqn:Hdone.
    { exists 0, st. split; [lia|]. by split. }
    destruct (inv_workers _ _ Hinv) as [?|[Hlw Hlv]]; [done|].
    destruct (lookup_lt_is_Some_2 (workers st) i) as [pc Hpc]; [lia|].
    destruct (lookup_lt_is_Some_2 (videos st) i) as [v Hv]; [lia|].
    destruct (lookup_lt_is_Some_2 (resolved cfg) i) as [info Hinfo]; [lia|].
    rewrite (pc_of_lookup _ _ _ Hpc) in Hdone, Hn.
    destruct (worker_block_enabled (skip_duplicates cfg) info (env cfg i) pc v Hdone)
      as [[[pc' v'] kk] Hblock].
    pose proof (worker_block_decreases _ _ _ _ _ _ _ _ Hblock) as Hless.
    set (st1 := mkState (apply_counters kk (<[i:=v']> (videos st)) (task st))
                        (<[i:=v']> (videos st)) (<[i:=pc']> (workers st)) (orch st)).
    assert (Hstep : step cfg (AWorker i) st = Some st1).
    { cbn. rewrite Hpc. cbn. rewrite Hv. cbn. rewrite Hinfo. cbn.
      rewrite Hblock. reflexivity. }
    assert (Hpc1 : pc_of st1 i = pc').
    { apply pc_of_lookup. cbn. apply list_lookup_insert_eq.
      by eapply lookup_lt_Some. }
    destruct (IH st1) as (k & st' & Hk & Hrun & Hd).
    + by eapply step_invariant.
    + cbn. intros E. apply (f_equal length) in E.
      rewrite length_insert in E. cbn in E. lia.
    + done.
    + rewrite Hpc1. lia.
    + exists (S k), st'. split; [lia|]. split; [|done].
      cbn [replicate run]. rewrite Hstep. exact Hrun.
Qed.

(** X19. No worker hangs on the program's own account: once the items are
    submitted, the worker of each item returns after at most four more of
    its blocks (checking, downloading, the result, the handler), which are
    always enabled until it has returned; the external calls are taken to
    answer. *)
Theorem X19_every_worker_returns cfg st i :
  reachable cfg st → workers st ≠ [] → i < length (resolved cfg) →
  ∃ k st', k ≤ 4 ∧ run cfg (replicate k (AWorker i)) st = Some st' ∧
           is_done (pc_of st' i) = true.
Proof.
  intros Hr Hws Hi. apply worker_returns; [by apply reachable_invariant|done..|].
  by destruct (pc_of st i); cbn; lia.
Qed.

Lemma X19_every_worker_returns_witness :
  let cfg := second_fetch_fails "HTTP Error 403" in
  let st := final_state cfg [AFetching; AResolve; ADownloading; ASubmit; AWorker 1] in
  ∃ k st', k ≤ 4 ∧ run cfg (replicate k (AWorker 1)) st = Some st' ∧
           is_done (pc_of st' 1) = true.
Proof.
  refine (X19_every_worker_returns (second_fetch_fails "HTTP Error 403") _ 1 _ _ _).
  - exists [AFetching; AResolve; ADownloading; ASubmit; AWorker 1].
    vm_compute. reflexivity.
  - vm_compute. discriminate.
  - vm_compute. lia.
Defined.

Lemma count_success_le vs : count_success vs ≤ length vs.
Proof. unfold count_success. apply filter_length_le. Qed.

Lemma step_progress cfg a st st' :
  invariant cfg st → progress_invariant cfg st → step cfg a st = Some st' →
  progress_invariant cfg st'.
Proof.
  intros Hinv [Hp Ht] Hstep. pose proof (inv_orch _ _ Hinv) as Ho.
  unfold progress_invariant. step_cases Hstep; cbn in *;
    rewrite ?length_insert; auto using count_success_le with lia.
  - destruct Ho as [-> _]. cbn in Hp. split; [cbn; lia|]. by right.
  - destruct k; cbn; rewrite ?length_insert; split; auto.
    rewrite <- (length_insert vs i v'). apply count_success_le.
  - split; [apply filter_length_le|by right].
Qed.

Lemma run_progress cfg acts : ∀ st st',
  invariant cfg st → progress_invariant cfg st → run cfg acts st = Some st' →
  progress_invariant cfg st'.
Proof.
  induction acts as [|a acts IH]; intros st st' Hinv Hp Hrun; cbn in Hrun.
  - by injection Hrun as <-.
  - destruct (step cfg a st) as [st1|] eqn:Hstep; [|discriminate].
    eapply (IH st1); [by eapply step_invariant|by eapply step_progress|done].
Qed.

(** X28. The progress of a task never passes its total: in every state a
    task can reach, [progress] is at most the number of registered items
    and at most [total_videos], provided the list of items is no longer
    than the limit of the request (as it is for the list
    [get_video_info_detailed] returns for a limit that is not negative). *)
Theorem X28_progress_within_total cfg st :
  reachable cfg st →
  (Z.of_nat (length (resolved cfg)) ≤ max_videos cfg)%Z →
  progress (task st) ≤ length (videos st) ∧
  (Z.of_nat (progress (task st)) ≤ total_videos (task st))%Z.
Proof.
  intros Hr Hmax. pose proof (reachable_invariant _ _ Hr) as Hinv.
  destruct Hr as [acts Hrun].
  destruct (run_progress cfg acts _ _ (initial_invariant cfg)
              ltac:(split; cbn; auto) Hrun) as [Hp Ht].
  split; [done|]. destruct (inv_videos _ _ Hinv) as [Hv|Hv].
  - rewrite Hv in Hp. cbn in Hp. destruct Ht as [-> | ->]; lia.
  - destruct Ht as [-> | ->]; lia.
Qed.

Lemma X28_progress_within_total_witness :
  let st := final_state (second_fetch_fails "HTTP Error 403") interleaved in
  progress (task st) ≤ length (videos st) ∧
  (Z.of_nat (progress (task st)) ≤ total_videos (task st))%Z.
Proof.
  refine (X28_progress_within_total (second_fetch_fails "HTTP Error 403") _ _ _).
  - exists interleaved. vm_compute. reflexivity.
  - vm_compute. discriminate.
Defined.

Lemma run_app cfg (a b : list action) : ∀ st st',
  run cfg a st = Some st' → run cfg (a ++ b) st = run cfg b st'.
Proof.
  induction a as [|x a IH]; intros st st' H; cbn in H.
  - by injection H as <-.
  - cbn [app run]. destruct (step cfg x st) as [st1|]; [|discriminate].
    cbn in *. by apply IH.
Qed.

Lemma quiet_app (a b : list action) :
  forallb (λ x, negb (is_raise x)) a = true →
  forallb (λ x, negb (is_raise x)) b = true →
  forallb (λ x, negb (is_raise x)) (a ++ b) = true.
Proof. intros Ha Hb. rewrite forallb_app. by rewrite Ha, Hb. Qed.

Lemma quiet_workers k i :
  forallb (λ x, negb (is_raise x)) (replicate k (AWorker i)) = true.
Proof. induction k as [|k IH]; [done|]. cbn. exact IH. Qed.

(** The blocks of one worker leave the other workers and the position of
    [process_download_enhanced] as they are. *)
Lemma run_worker_others cfg i k : ∀ st st',
  run cfg (replicate k (AWorker i)) st = Some st' →
  orch st' = orch st ∧ length (workers st') = length (workers st) ∧
  ∀ j, j ≠ i → workers st' !! j = workers st !! j.
Proof.
  induction k as [|k IH]; intros st st' Hrun; cbn [replicate run] in Hrun.
  - by injection Hrun as <-.
  - destruct (step cfg (AWorker i) st) as [st1|] eqn:Hstep; [|discriminate].
    cbn in Hrun. destruct (IH _ _ Hrun) as (Ho & Hl & Hw).
    assert (orch st1 = orch st ∧ workers st1 = <[i := default WStart (workers st1 !! i)]> (workers st))
      as [Ho1 Hw1].
    { cbn in Hstep.
      destruct (workers st !! i) as [pc|] eqn:Hpc; [|discriminate]. cbn in Hstep.
      destruct (videos st !! i); [|discriminate]. cbn in Hstep.
      destruct (resolved cfg !! i); [|discriminate]. cbn in Hstep.
      destruct (worker_block _ _ _ _ _) as [[[pc' v'] kk]|]; [|discriminate].
      cbn in Hstep. injection Hstep as <-. cbn. split; [done|].
      rewrite list_lookup_insert_eq by (by eapply lookup_lt_Some). done. }
    rewrite Ho, Hl, Ho1, Hw1, length_insert. split; [done|]. split; [done|].
    intros j Hj. rewrite Hw by done. rewrite Hw1.
    by rewrite list_lookup_insert_ne.
Qed.

(** The workers of the first [m] items can all be brought to their
    return. *)
Lemma workers_return cfg : ∀ m st,
  invariant cfg st → length (workers st) = length (resolved cfg) →
  m ≤ length (resolved cfg) →
  ∃ acts st',
    forallb (λ x, negb (is_raise x)) acts = true ∧
    run cfg acts st = Some st' ∧ orch st' = orch st ∧
    length (workers st') = length (workers st) ∧
    ∀ j, j < m → is_done (pc_of st' j) = true.
Proof.
  induction m as [|m IH]; intros st Hinv Hlen Hm.
  - exists [], st. repeat split; try done. intros j Hj. lia.
  - destruct (IH st Hinv Hlen) as (acts & st1 & Hq & Hrun & Ho & Hl & Hdone); [lia|].
    assert (Hinv1 : invariant cfg st1) by (by eapply run_invariant).
    destruct (worker_returns cfg m 4 st1) as (k & st2 & _ & Hrun2 & Hd2);
      [done| |lia| |].
    { intros E. rewrite E in Hl. cbn in Hl. lia. }
    { destruct (pc_of st1 m); cbn; lia. }
    destruct (run_worker_others _ _ _ _ _ Hrun2) as (Ho2 & Hl2 & Hw2).
    exists (acts ++ replicate k (AWorker m))%list, st2.
    split; [apply quiet_app; [done|apply quiet_workers]|].
    split; [by rewrite (run_app _ _ _ _ _ Hrun)|].
    split; [congruence|]. split; [congruence|].
    intros j Hj. destruct (decide (j = m)) as [->|Hne]; [done|].
    unfold pc_of. rewrite Hw2 by done. apply Hdone. lia.
Qed.

Lemma all_done (ws : list worker_pc) :
  (∀ j, j < length ws → is_done (default WStart (ws !! j)) = true) →
  forallb is_done ws = true.
Proof.
  intros H. apply forallb_forall. intros pc Hpc.
  apply list_elem_of_In, list_elem_of_lookup in Hpc as [j Hj].
  specialize (H j (lookup_lt_Some _ _ _ Hj)). by rewrite Hj in H.
Qed.

(** From the wave on, the task can be brought to its end: the workers
    return one after the other and the final update follows. *)
Lemma wave_to_end cfg st :
  invariant cfg st → orch st = OWave →
  ∃ acts st',
    forallb (λ x, negb (is_raise x)) acts = true ∧
    run cfg acts st = Some st' ∧ orch st' = OEnd.
Proof.
  intros Hinv Ho. pose proof (inv_orch _ _ Hinv) as Hlen. rewrite Ho in Hlen.
  destruct Hlen as [Hlw _].
  destruct (workers_return cfg (length (resolved cfg)) st Hinv Hlw)
    as (acts & st1 & Hq & Hrun & Ho1 & Hl1 & Hdone); [done|].
  assert (Hstep : ∃ st2, step cfg AFinish st1 = Some st2 ∧ orch st2 = OEnd).
  { cbn. rewrite Ho1, Ho. rewrite all_done; [by eexists|].
    intros j Hj. apply Hdone. lia. }
  destruct Hstep as (st2 & Hstep & Ho2).
  exists (acts ++ [AFinish])%list, st2. split; [by apply quiet_app|].
  split; [|done]. rewrite (run_app _ _ _ _ _ Hrun). cbn [run]. by rewrite Hstep.
Qed.

(** Whatever has run so far, the task can be brought to its end without
    an exception reaching the outer handler. *)
Lemma run_to_end cfg st :
  invariant cfg st →
  ∃ acts st',
    forallb (λ x, negb (is_raise x)) acts = true ∧
    run cfg acts st = Some st' ∧ orch st' = OEnd.
Proof.
  intros Hinv.
  assert (Hnext : ∀ st0 a st1,
            is_raise a = false → step cfg a st0 = Some st1 →
            (orch st1 = OEnd ∨
             ∃ acts st', forallb (λ x, negb (is_raise x)) acts = true ∧
                         run cfg acts st1 = Some st' ∧ orch st' = OEnd) →
            ∃ acts st', forallb (λ x, negb (is_raise x)) acts = true ∧
                        run cfg acts st0 = Some st' ∧ orch st' = OEnd).
  { intros st0 a st1 Ha Hstep [Hend|(acts & st' & Hq & Hrun & Hend)].
    - exists [a], st1. cbn. rewrite Ha, Hstep. done.
    - exists (a :: acts), st'. cbn. rewrite Ha, Hstep. done. }
  assert (Hwave : ∀ st1, invariant cfg st1 → orch st1 = OWave →
            orch st1 = OEnd ∨
            ∃ acts st', forallb (λ x, negb (is_raise x)) acts = true ∧
                        run cfg acts st1 = Some st' ∧ orch st' = OEnd).
  { intros st1 H1 Ho1. right. by apply wave_to_end. }
  assert (Hsubmit : ∀ st1, invariant cfg st1 → orch st1 = ODownloading →
            ∃ acts st', forallb (λ x, negb (is_raise x)) acts = true ∧
                        run cfg acts st1 = Some st' ∧ orch st' = OEnd).
  { intros st1 H1 Ho1.
    assert (∃ st2, step cfg ASubmit st1 = Some st2 ∧ orch st2 = OWave)
      as (st2 & Hs & Ho2) by (cbn; rewrite Ho1; by eexists).
    eapply (Hnext st1 ASubmit st2); [done|done|].
    apply Hwave; [by eapply step_invariant|done]. }
  assert (Hdown : ∀ st1, invariant cfg st1 → orch st1 = ORegistered →
            ∃ acts st', forallb (λ x, negb (is_raise x)) acts = true ∧
                        run cfg acts st1 = Some st' ∧ orch st' = OEnd).
  { intros st1 H1 Ho1.
    assert (∃ st2, step cfg ADownloading st1 = Some st2 ∧ orch st2 = ODownloading)
      as (st2 & Hs & Ho2) by (cbn; rewrite Ho1; by eexists).
    eapply (Hnext st1 ADownloading st2); [done|done|]. right.
    apply Hsubmit; [by eapply step_invariant|done]. }
  assert (Hres : ∀ st1, invariant cfg st1 → orch st1 = OFetching →
            ∃ acts st', forallb (λ x, negb (is_raise x)) acts = true ∧
                        run cfg acts st1 = Some st' ∧ orch st' = OEnd).
  { intros st1 H1 Ho1.
    assert (∃ st2, step cfg AResolve st1 = Some st2 ∧
                   (orch st2 = OEnd ∨ orch st2 = ORegistered))
      as (st2 & Hs & Ho2).
    { cbn. rewrite Ho1. destruct (resolved cfg); eexists; split; eauto. }
    eapply (Hnext st1 AResolve st2); [done|done|].
    destruct Ho2 as [Ho2|Ho2]; [by left|right].
    apply Hdown; [by eapply step_invariant|done]. }
  destruct (orch st) eqn:Ho.
  - assert (∃ st2, step cfg AFetching st = Some st2 ∧ orch st2 = OFetching)
      as (st2 & Hs & Ho2) by (cbn; rewrite Ho; by eexists).
    eapply (Hnext st AFetching st2); [done|exact Hs|]. right.
    apply Hres; [by eapply step_invariant|done].
  - by apply Hres.
  - by apply Hdown.
  - by apply Hsubmit.
  - by apply wave_to_end.
  - exists [], st. by cbn.
Qed.

(** C2. A task of three resolved items, none of them already on disk (or
    with duplicate checking off), in which the fetch of the second item
    raises [msg] while the fetches of the first and the third write their
    files, and which no other exception interrupts.  Whatever the
    interleaving of the workers, progress events and snapshots so far, the
    task can be carried on to the end of [process_download_enhanced]: the
    other two workers still run and every worker returns.  And whenever
    [process_download_enhanced] is over, the first and third items are
    [completed], the second is [failed] with [msg] as its error text, the
    task is [completed], and [failure_count] is 1. *)
Theorem C2_one_failed_item_does_not_fail_the_task cfg msg acts st :
  length (resolved cfg) = 3 →
  fetch (env cfg 1) = Raise msg →
  fetch_succeeds cfg 0 → fetch_succeeds cfg 2 →
  (∀ i, i < 3 → duplicate_miss cfg i) →
  forallb (λ a, negb (is_raise a)) acts = true →
  run cfg acts (initial_state cfg) = Some st →
  (orch st = OEnd →
   map outcome (videos st) = [(Completed, ""); (Failed, msg); (Completed, "")] ∧
   task_status (task st) = TaskCompleted ∧
   failure_count (task st) = Some 1) ∧
  (∃ rest st',
     forallb (λ a, negb (is_raise a)) rest = true ∧
     run cfg rest st = Some st' ∧
     orch st' = OEnd ∧
     map outcome (videos st') = [(Completed, ""); (Failed, msg); (Completed, "")] ∧
     task_status (task st') = TaskCompleted ∧
     failure_count (task st') = Some 1).
Proof.
  intros Hlen Hf1 Hf0 Hf2 Hmiss Hacts Hrun. split.
  - intros Hend. by eapply (one_failed_item_outcome cfg msg acts st).
  - assert (Hinv : invariant cfg st)
      by (eapply run_invariant; [apply initial_invariant | exact Hrun]).
    destruct (run_to_end cfg st Hinv) as (rest & st' & Hq & Hrest & Hend).
    exists rest, st'. split; [done|]. split; [done|]. split; [done|].
    eapply (one_failed_item_outcome cfg msg (acts ++ rest) st'); try done.
    + by apply quiet_app.
    + by rewrite (run_app _ _ _ _ _ Hrun).
Qed.

Lemma C2_one_failed_item_does_not_fail_the_task_witness :
  let cfg := second_fetch_fails "HTTP Error 403" in
  let st := final_state cfg interleaved in
  (orch st = OEnd →
   map outcome (videos st)
     = [(Completed, ""); (Failed, "HTTP Error 403"); (Completed, "")] ∧
   task_status (task st) = TaskCompleted ∧
   failure_count (task st) = Some 1) ∧
  (∃ rest st',
     forallb (λ a, negb (is_raise a)) rest = true ∧
     run cfg rest st = Some st' ∧
     orch st' = OEnd ∧
     map outcome (videos st')
       = [(Completed, ""); (Failed, "HTTP Error 403"); (Completed, "")] ∧
     task_status (task st') = TaskCompleted ∧
     failure_count (task st') = Some 1).
Proof.
  apply (C2_one_failed_item_does_not_fail_the_task
           (second_fetch_fails "HTTP Error 403") "HTTP Error 403" interleaved).
  - reflexivity.
  - reflexivity.
  - exists "clip.mp4", (Some 1024%Z). repeat split; reflexivity.
  - exists "clip.mp4", (Some 1024%Z). repeat split; reflexivity.
  - intros i _. right. simpl. destruct (i =? 1); reflexivity.
  - reflexivity.
  - vm_compute. reflexivity.
Defined.

End TaskLifecycleFacts.


(* ===================================================================== *)
(** ** The refresh of the SOCKS5 list                                     *)
(* ===================================================================== *)

Section Socks5FetchFacts.
Import ProxyPool Socks5Fetch.
Local Open Scope nat_scope.
Local Open Scope list_scope.

Lemma gt_spec (a b : number) : gt a b = true ↔ QArith_base.Qlt b a.
Proof.
  unfold gt. rewrite negb_true_iff, <- not_true_iff_false, QArith_base.Qle_bool_iff.
  split; [apply QArith_base.Qnot_le_lt | apply QArith_base.Qlt_not_le].
Qed.

Lemma gt_false (a b : number) : gt a b = false → QArith_base.Qle a b.
Proof.
  unfold gt. rewrite negb_false_iff. apply QArith_base.Qle_bool_iff.
Qed.

Lemma insert_desc_perm x l : insert_desc x l ≡ₚ x :: l.
Proof.
  induction l as [|y l IH]; cbn [insert_desc]; [done|].
  destruct (gt _ _); [|done]. rewrite IH. apply Permutation_swap.
Qed.

Lemma sorted_reverse_perm l : sorted_reverse l ≡ₚ l.
Proof.
  induction l as [|x l IH]; [done|]. cbn [sorted_reverse foldr].
  rewrite insert_desc_perm. by constructor.
Qed.

Lemma insert_desc_sorted x l :
  StronglySorted at_least l → StronglySorted at_least (insert_desc x l).
Proof.
  induction 1 as [|y l Hl IH Hy]; cbn [insert_desc]; [repeat constructor|].
  destruct (gt (uptime y) (uptime x)) eqn:E.
  - constructor; [done|]. rewrite insert_desc_perm. constructor; [|done].
    apply gt_spec in E. by apply QArith_base.Qlt_le_weak.
  - apply gt_false in E. constructor; [by constructor|].
    constructor; [done|]. eapply Forall_impl; [exact Hy|].
    intros z Hz. unfold at_least in *. by eapply QArith_base.Qle_trans.
Qed.

Lemma sorted_reverse_sorted l : StronglySorted at_least (sorted_reverse l).
Proof.
  induction l as [|x l IH]; [constructor|]. by apply insert_desc_sorted.
Qed.

(** What the page loop has gathered: accepted elements of the pages. *)
Lemma fetch_pages_accepted page limit pages : ∀ acc all_proxies,
  fetch_pages page limit pages acc = Orchestrator.Return all_proxies →
  ∀ r, r ∈ all_proxies →
       r ∈ acc ∨
       ∃ n data info, n ∈ pages ∧ page n = Orchestrator.Return data ∧
                      info ∈ data ∧ accepts info = true ∧ r = keep info.
Proof.
  induction pages as [|n pages IH]; intros acc all_proxies H r Hr;
    cbn [fetch_pages] in H.
  { injection H as <-. by left. }
  destruct (page n) as [data|msg] eqn:Hpage; [|done].
  destruct data as [|i0 data0] eqn:Hdata; [injection H as <-; by left|].
  rewrite <- Hdata in *. clear Hdata i0 data0.
  assert (Hin : r ∈ acc ++ map keep (List.filter accepts data) →
                r ∈ acc ∨
                ∃ n0 data0 info, n0 ∈ n :: pages ∧
                  page n0 = Orchestrator.Return data0 ∧
                  info ∈ data0 ∧ accepts info = true ∧ r = keep info).
  { intros Hin. apply elem_of_app in Hin as [Hin|Hin]; [by left|right].
    apply list_elem_of_In, in_map_iff in Hin as (info & <- & Hin).
    apply filter_In in Hin as [Hin Hacc]. exists n, data, info.
    split; [by left|]. split; [done|]. split; [by apply list_elem_of_In|done]. }
  destruct (limit <=? _).
  - injection H as <-. by apply Hin.
  - destruct (IH _ _ H r Hr) as [Hacc|(n0 & data0 & info & Hn & Hrest)].
    + by apply Hin.
    + right. exists n0, data0, info. split; [by right|done].
Qed.

Lemma accepts_uptime info : accepts info = true → QArith_base.Qlt fifty (info_upTime info).
Proof.
  unfold accepts. intros H. apply andb_prop in H as [_ H]. by apply gt_spec.
Qed.

(** The loop raises exactly when a page it asks for raises. *)
Lemma fetch_pages_outcome page limit pages : ∀ acc,
  match fetch_pages page limit pages acc with
  | Orchestrator.Raise msg =>
      ∃ n, n ∈ requested_pages page limit pages acc ∧
           page n = Orchestrator.Raise msg
  | Orchestrator.Return _ =>
      ∀ n, n ∈ requested_pages page limit pages acc →
           ∃ data, page n = Orchestrator.Return data
  end.
Proof.
  induction pages as [|n pages IH]; intros acc;
    cbn [fetch_pages requested_pages].
  { intros n Hn. by apply elem_of_nil in Hn. }
  destruct (page n) as [data|msg] eqn:Hpage.
  - assert (Hone : ∀ m, m ∈ [n] → ∃ d, page m = Orchestrator.Return d).
    { intros m Hm. apply list_elem_of_singleton in Hm as ->. eauto. }
    destruct data as [|i0 data0] eqn:Hdata; [exact Hone|].
    rewrite <- Hdata in *. clear Hdata i0 data0.
    destruct (limit <=? _); [exact Hone|].
    specialize (IH (acc ++ map keep (List.filter accepts data))).
    destruct (fetch_pages page limit pages _) as [all_proxies|msg].
    + intros m Hm. apply elem_of_cons in Hm as [->|Hm]; eauto.
    + destruct IH as (m & Hm & Hraise). exists m. split; [by right|done].
  - exists n. split; [by left|done].
Qed.

(** X20. A refresh of the SOCKS5 list is all or nothing.  The loop always
    asks for page 1, and for pages 2 and 3 as long as the page before
    answered, was not empty and left fewer than [limit] entries.  When a
    page it asks for raises, [fetch_fresh_proxies] returns the empty list
    and leaves the pool untouched.  When every page it asks for answers,
    the pool holds exactly the endpoints returned and the failure marks
    are gone.  The list returned has at most [limit] entries, in
    descending order of uptime, each the [ip:port] of an element of a page
    that has an address, a port, the protocol [socks5] and an uptime above
    50.  The cursor is never assigned. *)
Theorem X20_refresh_stores_checked_list
        (page : nat → Orchestrator.raises (list proxy_info)) (limit : nat) (p : pool) :
  let result := fst (fetch_fresh_proxies page limit p) in
  let p' := snd (fetch_fresh_proxies page limit p) in
  let asked := requested_pages page limit [1; 2; 3] [] in
  (∃ more, asked = 1 :: more) ∧
  (∀ n msg, n ∈ asked → page n = Orchestrator.Raise msg →
            result = [] ∧ p' = p) ∧
  ((∀ n, n ∈ asked → ∃ data, page n = Orchestrator.Return data) →
   valid_proxies p' = map proxy result ∧ failed_proxies p' = ∅) ∧
  current_index p' = current_index p ∧
  length result ≤ limit ∧
  StronglySorted at_least result ∧
  Forall (λ r, QArith_base.Qlt fifty (uptime r) ∧
               ∃ n data info, n ∈ [1; 2; 3] ∧ page n = Orchestrator.Return data ∧
                              info ∈ data ∧ accepts info = true ∧ r = keep info)
         result.
Proof.
  cbn zeta. pose proof (fetch_pages_outcome page limit [1; 2; 3] []) as Hout.
  unfold fetch_fresh_proxies. split; [by eexists|].
  destruct (fetch_pages page limit [1; 2; 3] []) as [all_proxies|msg] eqn:F;
    cbn [fst snd].
  - split.
    { intros n m Hn Hraise. destruct (Hout n Hn) as [data Hdata]. congruence. }
    split; [done|]. split; [done|]. split; [rewrite length_firstn; lia|].
    split.
    + pose proof (sorted_reverse_sorted all_proxies) as H.
      rewrite <- (firstn_skipn limit (sorted_reverse all_proxies)) in H.
      by apply StronglySorted_app_1_l in H.
    + apply Forall_forall. intros r Hr. apply elem_of_firstn in Hr.
      rewrite sorted_reverse_perm in Hr.
      destruct (fetch_pages_accepted _ _ _ _ _ F r Hr)
        as [Hnil|(n & data & info & Hn & Hp & Hi & Ha & ->)].
      { by apply elem_of_nil in Hnil. }
      split; [by apply accepts_uptime|]. by exists n, data, info.
  - split; [done|]. split.
    { intros Hall. destruct Hout as (n & Hn & Hraise).
      destruct (Hall n Hn) as [data Hdata]. congruence. }
    split; [done|]. split; [cbn; lia|]. split; constructor.
Qed.



End Socks5FetchFacts.


(* ===================================================================== *)
(** ** The address of a channel                                           *)
(* ===================================================================== *)

Section ChannelUrlFacts.
Import PyStr ChannelUrl.
Local Open Scope nat_scope.

Lemma split_from_nonempty (sep : string) (s : string) : ∀ skip cur,
  split_from sep skip cur s ≠ [].
Proof.
  induction s as [|c s IH]; intros skip cur; cbn [split_from]; [done|].
  destruct skip; [|apply IH]. destruct (String.prefix sep _); [done|apply IH].
Qed.

Lemma last_split (sep s : string) : is_Some (last (split sep s)).
Proof. apply last_is_Some, split_from_nonempty. Qed.

Lemma prefix_char (d c : ascii) (s : string) :
  String.prefix (String d "") (String c s) = bool_decide (d = c).
Proof.
  cbn [String.prefix]. destruct (ascii_dec d c) as [->|Hne].
  - rewrite prefix_empty. by rewrite bool_decide_eq_true_2.
  - by rewrite bool_decide_eq_false_2.
Qed.

(** The first piece of a split at one character: it runs up to the first
    occurrence of the character, or to the end. *)
Lemma split_char_head (d : ascii) (s : string) : ∀ cur,
  ∃ x, split_from (String d "") 0 cur s !! 0 = Some (str (rev cur) ++ x) ∧
       lacks d x = true ∧
       (s = x ∨ ∃ rest, s = x ++ String d rest).
Proof.
  induction s as [|c s IH]; intros cur.
  - exists "". cbn. rewrite append_empty_r. by auto.
  - cbn [split_from]. rewrite prefix_char. case_bool_decide as Hd.
    + subst c. exists "". rewrite append_empty_r. split; [done|].
      split; [done|]. right. by exists s.
    + destruct (IH (c :: cur)) as (x & Hx & Hl & Hs). exists (String c x).
      split; [by rewrite Hx, str_rev_cons|]. split.
      * cbn [lacks]. rewrite Hl. apply Ascii.eqb_neq in Hd.
        rewrite Ascii.eqb_sym in Hd. by rewrite Hd.
      * destruct Hs as [->|(rest & ->)]; [by left|right]. by exists rest.
Qed.

(** X22. [convert_channel_to_playlist] never raises, and it returns its
    argument or one of two addresses built around a channel identifier
    that holds no slash: the [/videos] page of a handle or of a channel.
    An address with [/playlist?] or [/watch], or without [/@] and
    [/channel/], is returned as it is. *)
Theorem X22_channel_address_shape (channel_url : string) :
  ∃ r, convert_channel_to_playlist channel_url = Some r ∧
       (r = channel_url ∨
        ∃ channel_id, lacks "/" channel_id = true ∧
                      (r = handle_page channel_id ∨ r = channel_page channel_id)) ∧
       (contains "/playlist?" channel_url = true ∨
        contains "/watch" channel_url = true ∨
        (contains "/@" channel_url = false ∧
         contains "/channel/" channel_url = false) → r = channel_url).
Proof.
  unfold convert_channel_to_playlist.
  destruct (contains "/playlist?" channel_url) eqn:E1; cbn [orb].
  { exists channel_url. by auto. }
  destruct (contains "/watch" channel_url) eqn:E2.
  { exists channel_url. by auto. }
  destruct (contains "/@" channel_url) eqn:E3.
  { destruct (last_split "/@" channel_url) as [seg ->]. cbn [mbind option_bind].
    unfold split. destruct (split_char_head "/" seg []) as (x & -> & Hx & _).
    cbn [mbind option_bind rev str string_of_list_ascii]. rewrite append_empty_l.
    eexists. split; [done|]. split.
    - right. exists x. split; [done|]. by left.
    - intros [?|[?|[? _]]]; done. }
  destruct (contains "/channel/" channel_url) eqn:E4.
  { destruct (last_split "/channel/" channel_url) as [seg ->].
    cbn [mbind option_bind].
    unfold split. destruct (split_char_head "/" seg []) as (x & -> & Hx & _).
    cbn [mbind option_bind rev str string_of_list_ascii]. rewrite append_empty_l.
    eexists. split; [done|]. split.
    - right. exists x. split; [done|]. by right.
    - intros [?|[?|[_ ?]]]; done. }
  exists channel_url. by auto.
Qed.

Lemma prefix_app_eq (sep : string) : ∀ s,
  String.prefix sep s = true → ∃ rest, s = sep ++ rest.
Proof.
  induction sep as [|a sep IH]; intros s H; [by exists s|].
  destruct s as [|c s]; [done|]. cbn [String.prefix] in H.
  destruct (ascii_dec a c) as [->|]; [|done].
  destruct (IH s H) as (rest & ->). by exists rest.
Qed.

Lemma contains_app_r (sep a b : string) :
  contains sep b = true → contains sep (a ++ b) = true.
Proof.
  intros H. induction a as [|c a IH]; [done|]. rewrite append_cons.
  by apply contains_later.
Qed.

Lemma prefix_other (d x : ascii) (sep s : string) :
  x ≠ d → String.prefix (String d sep) (String x s) = false.
Proof. intros H. cbn [String.prefix]. by destruct (ascii_dec d x) as [->|]. Qed.

(** A separator that starts with [d] is not found inside a text without
    [d]. *)
Lemma contains_skip (d : ascii) (sep id t : string) :
  lacks d id = true →
  contains (String d sep) (id ++ t) = contains (String d sep) t.
Proof.
  induction id as [|x id IH]; intros H; [done|].
  apply lacks_eqb in H as [Hx H]. rewrite append_cons. cbn [contains].
  rewrite prefix_other by done. by apply IH.
Qed.

Lemma split_from_pass (d : ascii) (sep id t : string) : ∀ cur,
  lacks d id = true →
  split_from (String d sep) 0 cur (id ++ t)
  = split_from (String d sep) 0 (rev (chars id) ++ cur)%list t.
Proof.
  induction id as [|x id IH]; intros cur H; [done|].
  apply lacks_eqb in H as [Hx H]. rewrite append_cons. cbn [split_from].
  rewrite prefix_other by done. rewrite IH by done.
  cbn [chars list_ascii_of_string rev]. by rewrite <- app_assoc.
Qed.

Lemma append_inj_length (x x' y y' : string) :
  x ++ y = x' ++ y' → String.length x = String.length x' → x = x' ∧ y = y'.
Proof.
  revert x'. induction x as [|c x IH]; intros [|c' x'] H Hl; try done.
  rewrite !append_cons in H. injection H as -> H. cbn in Hl.
  destruct (IH x' H) as [-> ->]; [lia|done].
Qed.

Lemma length_append (a b : string) :
  String.length (a ++ b) = String.length a + String.length b.
Proof. induction a as [|c a IH]; [done|]. rewrite append_cons. cbn. by rewrite IH. Qed.

Lemma last_cons_nonempty {A} (a : A) (l : list A) : l ≠ [] → last (a :: l) = last l.
Proof. by destruct l. Qed.

(** The last piece of a split: the whole text when nothing was cut, and
    otherwise what follows an occurrence of the separator. *)
Lemma split_from_last (sep : string) (s : string) : sep ≠ "" → ∀ skip cur seg,
  skip ≤ String.length s →
  last (split_from sep skip cur s) = Some seg →
  (split_from sep skip cur s = [seg] ∧
   ∃ x y, s = x ++ y ∧ String.length x = skip ∧ seg = str (rev cur) ++ y) ∨
  (∃ pre, s = pre ++ sep ++ seg).
Proof.
  intros Hsep. induction s as [|c s IH]; intros skip cur seg Hskip Hlast.
  - left. cbn in Hskip. assert (skip = 0) as -> by lia. cbn in Hlast.
    injection Hlast as <-. split; [done|]. exists "", "".
    by rewrite !append_empty_r.
  - cbn [split_from] in *. destruct skip as [|k].
    + destruct (String.prefix sep (String c s)) eqn:P.
      * right. rewrite last_cons_nonempty in Hlast by apply split_from_nonempty.
        apply prefix_app_eq in P as (rest & P).
        destruct sep as [|a sep']; [done|]. rewrite append_cons in P.
        injection P as <- ->. cbn [String.length] in Hlast.
        replace (S (String.length sep') - 1) with (String.length sep') in Hlast
          by lia.
        destruct (IH (String.length sep') [] seg) as [[_ (x & y & E & Hl & ->)]|(pre & E)].
        { rewrite length_append. lia. }
        { exact Hlast. }
        -- apply append_inj_length in E as [_ <-]; [|done]. by exists "".
        -- exists (String c pre). rewrite append_cons. by rewrite E.
      * destruct (IH 0 (c :: cur) seg) as [[E (x & y & -> & Hl & ->)]|(pre & ->)];
          [lia|done| |].
        -- left. split; [done|]. destruct x; [|done]. exists "", (String c y).
           split; [done|]. split; [done|]. by rewrite str_rev_cons.
        -- right. by exists (String c pre).
    + cbn in Hskip.
      destruct (IH k cur seg) as [[E (x & y & -> & Hl & ->)]|(pre & ->)];
        [lia|done| |].
      * left. split; [done|]. exists (String c x), y. cbn. by rewrite Hl.
      * right. by exists (String c pre).
Qed.

Lemma split_last_after (sep s seg : string) :
  sep ≠ "" → contains sep s = true → last (split sep s) = Some seg →
  ∃ pre, s = pre ++ sep ++ seg.
Proof.
  intros Hsep Hc Hlast.
  destruct (split_from_last sep s Hsep 0 [] seg) as [[E _]|H]; [lia|done| |done].
  destruct (split_second sep s Hsep Hc) as [y Hy]. unfold split in Hy.
  by rewrite E in Hy.
Qed.

(** A prefix without [d] found before the first [d] lies before it. *)
Lemma prefix_within (d : ascii) (w : string) : ∀ id t t',
  lacks d w = true →
  String.prefix w (id ++ String d t) = true → String.prefix w (id ++ t') = true.
Proof.
  induction w as [|a w IH]; intros id t t' Hw H; [apply prefix_empty|].
  apply lacks_eqb in Hw as [Ha Hw]. destruct id as [|x id].
  - rewrite append_empty_l in H. cbn [String.prefix] in H.
    by destruct (ascii_dec a d).
  - rewrite append_cons in *. cbn [String.prefix] in *.
    destruct (ascii_dec a x); [|done]. by eapply IH.
Qed.

(** Reading through the literal part of an address. *)
Ltac read_address :=
  rewrite ?append_cons, ?append_empty_l;
  cbn [contains split split_from String.prefix String.length Nat.sub orb
       ascii_dec Ascii.ascii_rec Ascii.ascii_rect Bool.bool_dec
       bool_rec bool_rect sumbool_rec sumbool_rect
       eq_rec_r eq_rec eq_rect eq_sym f_equal rev app str string_of_list_ascii];
  rewrite ?prefix_empty; cbn [orb].

Lemma split_tail (c d : ascii) (sep id t : string) :
  lacks d id = true → lacks c t = true → lacks c (String d sep) = false →
  split_from (String d sep) 0 [] (id ++ t) = [id ++ t].
Proof.
  intros Hid Ht Hsep. rewrite split_from_pass by done.
  rewrite (split_from_none c) by done.
  by rewrite app_nil_r, rev_involutive, str_chars.
Qed.

Lemma split_slash_head (id : string) :
  lacks "/" id = true → split "/" (id ++ "/videos") !! 0 = Some id.
Proof.
  intros H. unfold split.
  by rewrite (split_from_head_char "/" id "videos" [] H).
Qed.

(** The page of a handle is kept. *)
Lemma handle_page_fixed (id : string) :
  lacks "/" id = true →
  convert_channel_to_playlist (handle_page id) = Some (handle_page id).
Proof.
  intros H. unfold convert_channel_to_playlist, handle_page.
  assert (E1 : contains "/playlist?" ("https://www.youtube.com/@" ++ id ++ "/videos")
               = false).
  { read_address. by rewrite (contains_skip "/" _ id "/videos" H). }
  assert (E2 : contains "/watch" ("https://www.youtube.com/@" ++ id ++ "/videos")
               = false).
  { read_address. by rewrite (contains_skip "/" _ id "/videos" H). }
  assert (E3 : contains "/@" ("https://www.youtube.com/@" ++ id ++ "/videos") = true).
  { read_address. done. }
  rewrite E1, E2, E3. cbn [orb].
  assert (E4 : last (split "/@" ("https://www.youtube.com/@" ++ id ++ "/videos"))
               = Some (id ++ "/videos")).
  { read_address. by rewrite (split_tail "@" "/" "@" id "/videos"). }
  rewrite E4. cbn [mbind option_bind]. rewrite split_slash_head by done.
  reflexivity.
Qed.

(** The page of a channel is kept, when the identifier does not start
    with something the earlier tests look for after a slash. *)
Lemma channel_page_fixed (id : string) :
  lacks "/" id = true →
  String.prefix "playlist?" (id ++ "/videos") = false →
  String.prefix "watch" (id ++ "/videos") = false →
  String.prefix "@" (id ++ "/videos") = false →
  convert_channel_to_playlist (channel_page id) = Some (channel_page id).
Proof.
  intros H P1 P2 P3. unfold convert_channel_to_playlist, channel_page.
  assert (E1 : contains "/playlist?"
                 ("https://www.youtube.com/channel/" ++ id ++ "/videos") = false).
  { read_address. rewrite P1. cbn [orb].
    by rewrite (contains_skip "/" _ id "/videos" H). }
  assert (E2 : contains "/watch"
                 ("https://www.youtube.com/channel/" ++ id ++ "/videos") = false).
  { read_address. rewrite P2. cbn [orb].
    by rewrite (contains_skip "/" _ id "/videos" H). }
  assert (E3 : contains "/@"
                 ("https://www.youtube.com/channel/" ++ id ++ "/videos") = false).
  { read_address. rewrite P3. cbn [orb].
    by rewrite (contains_skip "/" _ id "/videos" H). }
  assert (E4 : contains "/channel/"
                 ("https://www.youtube.com/channel/" ++ id ++ "/videos") = true).
  { read_address. done. }
  rewrite E1, E2, E3, E4. cbn [orb].
  assert (E5 : last (split "/channel/"
                       ("https://www.youtube.com/channel/" ++ id ++ "/videos"))
               = Some (id ++ "/videos")).
  { read_address. by rewrite (split_tail "c" "/" "channel/" id "/videos"). }
  rewrite E5. cbn [mbind option_bind]. rewrite split_slash_head by done.
  reflexivity.
Qed.

(** What follows the last [/channel/] of an address does not start with a
    word that the address does not hold after a slash. *)
Lemma after_channel (w url pre seg x : string) :
  lacks "/" w = true →
  contains (String "/" w) url = false →
  url = pre ++ "/channel/" ++ seg →
  (seg = x ∨ ∃ rest, seg = x ++ String "/" rest) →
  String.prefix w (x ++ "/videos") = false.
Proof.
  intros Hw Hc -> Hseg. destruct (String.prefix w (x ++ "/videos")) eqn:P; [|done].
  assert (Hp : String.prefix w seg = true).
  { destruct Hseg as [->|(rest & ->)].
    - rewrite <- (append_empty_r x). by eapply (prefix_within "/" w x "videos" "").
    - by eapply (prefix_within "/" w x "videos"). }
  assert (Ht : contains (String "/" w) ((pre ++ "/channel") ++ String "/" seg) = true).
  { apply contains_app_r, contains_here. cbn [String.prefix].
    by destruct (ascii_dec "/" "/"). }
  rewrite append_assoc' in Ht.
  rewrite ?append_cons, ?append_empty_l in Ht.
  rewrite ?append_cons, ?append_empty_l in Hc. congruence.
Qed.

(** X23. [convert_channel_to_playlist] is idempotent: the address it
    returns is returned unchanged when converted again, so the two pages it
    builds are normal forms. *)
Theorem X23_channel_address_idempotent (channel_url r : string) :
  convert_channel_to_playlist channel_url = Some r →
  convert_channel_to_playlist r = Some r.
Proof.
  intros H. pose proof H as H0. unfold convert_channel_to_playlist in H.
  destruct (contains "/playlist?" channel_url) eqn:E1; cbn [orb] in H.
  { by injection H as <-. }
  destruct (contains "/watch" channel_url) eqn:E2.
  { by injection H as <-. }
  destruct (contains "/@" channel_url) eqn:E3.
  { destruct (last_split "/@" channel_url) as [seg Hseg].
    rewrite Hseg in H. cbn [mbind option_bind] in H. unfold split in H.
    destruct (split_char_head "/" seg []) as (x & Hx & Hl & _).
    rewrite Hx in H. cbn [mbind option_bind rev str string_of_list_ascii] in H.
    rewrite append_empty_l in H. injection H as <-.
    by apply handle_page_fixed. }
  destruct (contains "/channel/" channel_url) eqn:E4; [|by injection H as <-].
  destruct (last_split "/channel/" channel_url) as [seg Hseg].
  rewrite Hseg in H. cbn [mbind option_bind] in H. unfold split in H.
  destruct (split_char_head "/" seg []) as (x & Hx & Hl & Hs).
  rewrite Hx in H. cbn [mbind option_bind rev str string_of_list_ascii] in H.
  rewrite append_empty_l in H. injection H as <-.
  destruct (split_last_after "/channel/" channel_url seg) as (pre & Hurl);
    [done..|].
  apply channel_page_fixed; [done|..].
  - by eapply (after_channel "playlist?" channel_url pre seg x).
  - by eapply (after_channel "watch" channel_url pre seg x).
  - by eapply (after_channel "@" channel_url pre seg x).
Qed.

Lemma X23_channel_address_idempotent_witness :
  convert_channel_to_playlist "https://www.youtube.com/@somebody/videos"
  = Some "https://www.youtube.com/@somebody/videos".
Proof.
  apply (X23_channel_address_idempotent "https://youtube.com/@somebody/about?x=/").
  vm_compute. reflexivity.
Defined.

End ChannelUrlFacts.


(* ===================================================================== *)
(** ** The archive of a task                                              *)
(* ===================================================================== *)

Section ArchiveFacts.
Import PyStr Orchestrator Archive.
Local Open Scope nat_scope.

(** X25. [download_zip] never writes a missing archive again.  It hands
    out the archive exactly when the file exists.  For a missing file it
    answers 404 when the task or its items are unknown or no download
    directory is stored; once the items of the task are registered it
    blocks for ever, [create_task_zip_file] waiting for the lock its
    caller holds. *)
Theorem X25_zip_endpoint_blocks_on_its_own_lock
        (tasks_storage : gmap string (option string))
        (video_downloads : gmap string (list VideoDownload))
        (path_exists : string → bool) (file_exists : string → string → bool)
        (task_id : string) :
  let answer :=
    download_zip tasks_storage video_downloads path_exists file_exists task_id Free in
  (answer = Returns (FileResponse (zip_path task_id)) Free ↔
   path_exists (zip_path task_id) = true) ∧
  (answer = Blocks ↔
   path_exists (zip_path task_id) = false ∧
   ∃ download_dir, tasks_storage !! task_id = Some (Some download_dir) ∧
                   download_dir ≠ "" ∧ is_Some (video_downloads !! task_id)) ∧
  (answer = Returns NotFound Free ∨ answer = Blocks ∨
   answer = Returns (FileResponse (zip_path task_id)) Free).
Proof.
  unfold download_zip. destruct (path_exists (zip_path task_id)) eqn:E.
  { split; [done|]. split; [|by auto]. split; [done|]. by intros [? _]. }
  cbn [with_lock].
  destruct (tasks_storage !! task_id) as [[d|]|] eqn:Et.
  - destruct (video_downloads !! task_id) as [vs|] eqn:Ev.
    + destruct d as [|c d]; cbn [truthy create_task_zip_file with_lock].
      * split; [done|]. split; [|by auto]. split; [done|].
        by intros (_ & d & [= <-] & ? & _).
      * split; [done|]. split; [|by auto]. split; [|done]. intros _.
        split; [done|]. exists (String c d). by eauto.
    + split; [done|]. split; [|by auto]. split; [done|].
      by intros (_ & d' & _ & _ & [? ?]).
  - split; [done|]. split; [|by auto]. split; [done|].
    by intros (_ & d' & ? & _).
  - split; [done|]. split; [|by auto]. split; [done|].
    by intros (_ & d' & ? & _).
Qed.

Ltac block_branches H :=
  unfold worker_block in H;
  repeat match type of H with
         | context [match ?x with _ => _ end] => destruct x eqn:?
         end;
  try discriminate H; injection H as <- <- <-.

Lemma progress_hook_filename downloaded total v :
  filename (progress_hook downloaded total v) = filename v.
Proof.
  unfold progress_hook. by destruct (number_truthy downloaded), (number_truthy total).
Qed.

(** An item that is completed or skipped names its file. *)
Lemma local_reach_filename skip info e pc v :
  local_reach skip info e pc v →
  status v = Completed ∨ status v = Skipped → truthy (filename v) = true.
Proof.
  induction 1 as [|pc v pc' v' k Hreach IH Hblock|pc v d tot Hreach IH].
  - by intros [?|?].
  - destruct pc; block_branches Hblock; cbn; try (by intros [?|?]); auto.
  - by rewrite progress_hook_status, progress_hook_filename.
Qed.

(** X26. The archive written at the end of a wave: when every worker has
    returned, the members [create_task_zip_file] selects are the files of
    the items that did not fail, one for each item counted as a success,
    provided these files are still in the download directory. *)
Theorem X26_archive_of_a_finished_wave cfg st
        (file_exists : string → string → bool) (dir : string) :
  reachable cfg st → wave_finished st →
  (∀ v, v ∈ videos st → status v ≠ Failed → file_exists dir (filename v) = true) →
  archive_members file_exists dir (videos st)
    = map filename
          (List.filter (λ v, negb (bool_decide (status v = Failed))) (videos st)) ∧
  length (archive_members file_exists dir (videos st)) = count_success (videos st).
Proof.
  intros Hr Hw Hfiles. apply reachable_invariant in Hr.
  pose proof (wave_finished_terminal _ _ Hr Hw) as Hterm.
  assert (Hname : ∀ v, v ∈ videos st →
                       status v = Completed ∨ status v = Skipped →
                       truthy (filename v) = true).
  { intros v Hv Hs. apply list_elem_of_lookup in Hv as [i Hi].
    destruct (finished_item _ _ _ _ Hr Hw Hi) as (info & b & _ & Hreach).
    by eapply local_reach_filename. }
  assert (Hsel : List.filter
                   (λ v, (bool_decide (status v = Completed)
                          || bool_decide (status v = Skipped))
                         && truthy (filename v)
                         && file_exists dir (filename v)) (videos st)
                 = List.filter (λ v, bool_decide (status v = Completed)
                                     || bool_decide (status v = Skipped)) (videos st)).
  { apply filter_ext_in. intros v Hv. apply list_elem_of_In in Hv.
    destruct (bool_decide (status v = Completed) || bool_decide (status v = Skipped))
      eqn:Hs; [|done].
    rewrite Hname, Hfiles; try done.
    - intros Hf. rewrite Hf in Hs. done.
    - apply orb_prop in Hs as [Hs|Hs]; apply bool_decide_eq_true in Hs; auto. }
  unfold archive_members. rewrite Hsel. split.
  - f_equal. apply filter_ext_in. intros v Hv. apply list_elem_of_In in Hv.
    pose proof (proj1 (Forall_forall _ _) Hterm v Hv) as Ht. cbn in Ht.
    by destruct (status v).
  - by rewrite length_map.
Qed.

Lemma X26_archive_of_a_finished_wave_witness :
  let st := final_state (second_fetch_fails "HTTP Error 403") interleaved_wave in
  archive_members (λ _ _, true) "downloads/videos" (videos st)
    = map filename
          (List.filter (λ v, negb (bool_decide (status v = Failed))) (videos st)) ∧
  length (archive_members (λ _ _, true) "downloads/videos" (videos st))
    = count_success (videos st).
Proof.
  refine (X26_archive_of_a_finished_wave (second_fetch_fails "HTTP Error 403")
            _ (λ _ _, true) "downloads/videos" _ _ _).
  - exists interleaved_wave. vm_compute. reflexivity.
  - vm_compute. split; reflexivity.
  - reflexivity.
Defined.

End ArchiveFacts.


(* ===================================================================== *)
(** ** The list of items of a channel                                     *)
(* ===================================================================== *)

Section ResolverFacts.
Import PyStr DuplicateIndex Orchestrator Resolver.
Local Open Scope nat_scope.

Variable md5_hexdigest : string → string.

Lemma or_else_truthy (a : option string) (b : string) :
  truthy b = true → truthy (or_else a b) = true.
Proof. intros H. destruct a as [s|]; [|done]. cbn. by destruct (truthy s) eqn:E. Qed.

Lemma watch_url_truthy (e : flat_entry) : truthy (watch_url e) = true.
Proof. unfold watch_url. by rewrite append_cons. Qed.

Lemma truthy_nonempty (s : string) : truthy s = true → s ≠ "".
Proof. by destruct s. Qed.

Lemma well_formed_item (url t h : string) :
  truthy url = true → truthy t = true →
  generate_video_id_hash md5_hexdigest url = Some h →
  well_formed md5_hexdigest (mkInfo url t h).
Proof.
  intros Hu Ht Hh. unfold well_formed, new_video. cbn. rewrite Ht.
  by auto using truthy_nonempty.
Qed.

Lemma listed_item_well_formed (e : flat_entry) (i : video_info) :
  listed_item md5_hexdigest e = Some i → well_formed md5_hexdigest i.
Proof.
  unfold listed_item. destruct (generate_video_id_hash _ _) as [h|] eqn:Hh; [|done].
  cbn. intros [= <-].
  apply well_formed_item; [| |done]; repeat apply or_else_truthy;
    apply watch_url_truthy.
Qed.

Lemma listed_items_well_formed (es : list (option flat_entry)) : ∀ items,
  listed_items md5_hexdigest es = Some items → Forall (well_formed md5_hexdigest) items.
Proof.
  induction es as [|[e|] es IH]; intros items; cbn [listed_items]; auto.
  - by intros [= <-].
  - destruct (listed_item md5_hexdigest e) as [i|] eqn:Hi; [|done]. cbn.
    destruct (listed_items md5_hexdigest es) as [l|]; [|done]. cbn.
    intros [= <-]. constructor; [by eapply listed_item_well_formed|by apply IH].
Qed.

Lemma single_item_well_formed (e : flat_entry) (items : list video_info) :
  Resolver.single_item md5_hexdigest e = Some items → Forall (well_formed md5_hexdigest) items.
Proof.
  unfold Resolver.single_item.
  destruct (generate_video_id_hash _ _) as [h|] eqn:Hh; [|done]. cbn.
  destruct (truthy (or_else _ _)) eqn:Hu; intros [= <-]; [|constructor].
  constructor; [|constructor]. apply well_formed_item; [done| |done].
  by apply or_else_truthy.
Qed.

Lemma length_slice_to (max_videos : Z) (l : list video_info) :
  (0 ≤ max_videos)%Z → (Z.of_nat (length (slice_to max_videos l)) ≤ max_videos)%Z.
Proof.
  intros H. unfold slice_to. rewrite (proj2 (Z.leb_le _ _) H), length_firstn. lia.
Qed.

(** X27. The list [get_video_info_detailed] hands to the task: for a
    limit that is not negative it has at most [max_videos] items, and
    every item has an address that is not empty, a title that is not empty
    (so the task never shows its own fallback title), and the identifier
    [generate_video_id_hash] gives for its address.  When the listing
    raises or is empty the list is empty. *)
Theorem X27_resolved_items_are_well_formed
        (answer : raises (option listing)) (max_videos : Z) :
  let items := get_video_info_detailed md5_hexdigest answer max_videos in
  ((0 ≤ max_videos)%Z → (Z.of_nat (length items) ≤ max_videos)%Z) ∧
  Forall (well_formed md5_hexdigest) items ∧
  ((∃ msg, answer = Raise msg) ∨ answer = Return None → items = []).
Proof.
  cbn zeta. split; [|split].
  - intros H. unfold get_video_info_detailed.
    destruct answer as [[info|]|]; [|cbn; lia..].
    destruct (match entries info with Some (e :: es) => _ | _ => _ end);
      [by apply length_slice_to|cbn; lia].
  - unfold get_video_info_detailed. destruct answer as [[info|]|]; [|constructor..].
    destruct (match entries info with Some (e :: es) => _ | _ => _ end)
      as [items|] eqn:E; [|constructor].
    assert (Forall (well_formed md5_hexdigest) items) as Hitems.
    { destruct (entries info) as [[|e es]|].
      - by eapply single_item_well_formed.
      - by eapply listed_items_well_formed.
      - by eapply single_item_well_formed. }
    unfold slice_to. destruct (0 <=? max_videos)%Z; by apply Forall_take.
  - by intros [[msg ->]| ->].
Qed.

End ResolverFacts.
